(** * Garbage collection of an MVCC storage engine

    A shallow embedding of [storage/garbage_collector.cpp]: the collector's
    queues, the version chains it truncates, and the calls it makes to the
    transaction manager and to the data tables, followed by the properties
    of one collection period. *)

From Stdlib Require Import ZArith Lia.
From stdpp Require Import base option list gmap sorting.

Local Open Scope Z_scope.

(** ** Timestamps *)

(** [transaction::timestamp_t] is a strong typedef over [uint64_t]. *)
Abbreviation timestamp_t := Z (only parsing).

Definition uint64_max : Z := 2 ^ 64 - 1.
Definition is_uint64 (t : Z) : Prop := 0 <= t <= uint64_max.

Definition running_bit (t : timestamp_t) : bool := Z.testbit t 63.
Definition low63 (t : timestamp_t) : Z := Z.land t (2 ^ 63 - 1).

Module TransactionUtil.

(** Modelled from the spec: [transaction_util.h] is not among the sources.
    "Ordering predicate newer_than(a, b) compares raw values masked to 63
    bits while treating the running-bit separately: committed < running." *)
Definition NewerThan (a b : timestamp_t) : bool :=
  match running_bit a, running_bit b with
  | true, false => true
  | false, true => false
  | _, _ => low63 b <? low63 a
  end.

(** Modelled from the spec: "Bit 63 distinguishes running (1) from
    committed (0)." *)
Definition Committed (t : timestamp_t) : bool := negb (running_bit t).

End TransactionUtil.
Import TransactionUtil.

(** ** Data model *)

Abbreviation TupleSlot := Z (only parsing).      (* block address and offset, one word *)
Abbreviation col_id_t := nat (only parsing).
Abbreviation undo_ptr := positive (only parsing). (* address of an UndoRecord *)
Abbreviation buffer_ptr := Z (only parsing).      (* address of a varlen buffer *)
Abbreviation action_t := nat (only parsing).      (* a deferred std::function, by identity *)
Abbreviation index_ptr := nat (only parsing).

Definition uint32_incr (n : Z) : Z := (n + 1) mod 2 ^ 32.

Inductive DeltaRecordType := UPDATE | INSERT | DELETE.

#[global] Instance DeltaRecordType_eq_dec : EqDecision DeltaRecordType.
Proof. solve_decision. Defined.

(** What the collector reads of a [VarlenEntry]. *)
Record VarlenEntry := mkVarlenEntry {
  Content : buffer_ptr;
  NeedReclaim : bool
}.

(** What the collector reads of a [BlockLayout]: the number of columns and
    which of them are variable-length. *)
Record BlockLayout := mkBlockLayout {
  NumColumns : nat;
  varlens_ : list col_id_t
}.

Definition IsVarlen (layout : BlockLayout) (col_id : col_id_t) : bool :=
  bool_decide (col_id ∈ varlens_ layout).

Record TupleAccessStrategy := mkTupleAccessStrategy {
  GetBlockLayout : BlockLayout
}.

Record DataTable := mkDataTable {
  accessor_ : TupleAccessStrategy
}.

(** A [ProjectedRow], as the collector sees it: its column ids in order and,
    for each, the attribute viewed as a [VarlenEntry] ([None] when the
    attribute is null). *)
Record ProjectedRow := mkProjectedRow {
  ColumnIds : list col_id_t;
  values_ : list (option VarlenEntry)
}.

Definition Delta_NumColumns (row : ProjectedRow) : nat := length (ColumnIds row).
Definition Delta_AccessWithNullCheck (row : ProjectedRow) (i : nat) : option VarlenEntry :=
  mjoin (values_ row !! i).

(** [DataTable *] and [UndoRecord *] are options: [None] is [nullptr]. *)
Record UndoRecord := mkUndoRecord {
  Type_ : DeltaRecordType;
  Timestamp : timestamp_t;
  Next : option undo_ptr;
  Table : option DataTable;
  Slot : TupleSlot;
  Delta : ProjectedRow
}.

Record TransactionContext := mkTransactionContext {
  StartTime : timestamp_t;
  TxnId : timestamp_t;
  undo_buffer_ : list UndoRecord;
  loose_ptrs_ : list buffer_ptr;
  log_processed_ : bool;
  Aborted : bool
}.

(** [transaction::TransactionQueue] is a [std::forward_list]: the head of the
    list is [front()]. *)
Abbreviation TransactionQueue := (list TransactionContext) (only parsing).

Definition push_loose_ptr (txn : TransactionContext) (p : buffer_ptr) : TransactionContext :=
  {| StartTime := StartTime txn; TxnId := TxnId txn; undo_buffer_ := undo_buffer_ txn;
     loose_ptrs_ := loose_ptrs_ txn ++ [p];
     log_processed_ := log_processed_ txn; Aborted := Aborted txn |}.

(** ** Shared memory and the transaction manager *)

(** The part of the heap that the collector shares with running
    transactions: the version pointer of every slot, the undo records by
    address, and the attributes of the tuples. *)
Record Store := mkStore {
  version_ptr_ : gmap Z positive;
  undo_ : gmap positive UndoRecord;
  attrs_ : gmap (Z * nat) VarlenEntry
}.

(** Modelled from the spec: the transaction manager is not among the
    sources.  The record holds what the manager answers, at this moment, to
    each of the four calls the collector makes: "oldest_running_start_time",
    the current time, and the two queues that are move-returned. *)
Record TransactionManager := mkTransactionManager {
  oldest_start_time_ : timestamp_t;
  time_ : timestamp_t;
  completed_txns_ : list TransactionContext;
  tm_deferred_actions_ : list (timestamp_t * action_t)
}.

Record Shared := mkShared {
  txn_manager_ : TransactionManager;
  store_ : Store
}.

(** ** The collector *)

(** [deferred_actions_] is a [std::queue]: the head of the list is
    [front()], [push] appends. *)
Record GarbageCollector := mkGarbageCollector {
  last_unlinked_ : timestamp_t;
  txns_to_deallocate_ : list TransactionContext;
  txns_to_unlink_ : list TransactionContext;
  deferred_actions_ : list (timestamp_t * action_t);
  indexes_ : list index_ptr
}.

(** What the collector does to the outside, in program order. *)
Inductive Event :=
| EvOldestTransactionStartTime (t : timestamp_t)
| EvGetTimestamp (t : timestamp_t)
| EvCompletedTransactionsForGC (q : list TransactionContext)
| EvDeferredActionsForGC (q : list (timestamp_t * action_t))
| EvInvoke (a : action_t)
| EvDelete (txn : TransactionContext)
| EvTruncate (slot : TupleSlot) (oldest : timestamp_t)
| EvReadVersionPtr (slot : TupleSlot) (r : option undo_ptr)
| EvCompareAndSwapVersionPtr (slot : TupleSlot) (expected desired : option undo_ptr) (ok : bool)
| EvLoadTimestamp (p : undo_ptr) (t : timestamp_t)
| EvLoadNext (p : undo_ptr) (v : option undo_ptr)
| EvStoreNext (p : undo_ptr) (v : option undo_ptr)
| EvDeallocate (slot : TupleSlot)
| EvIndexGC (i : index_ptr).

(** The state of a run: the collector object, the shared heap, what the
    other threads will still do to the shared heap (one step is applied
    before each access of the collector to shared state), and the events so
    far. *)
Record World := mkWorld {
  gc_ : GarbageCollector;
  shared_ : Shared;
  sched_ : list (Shared → Shared);
  trace_ : list Event
}.

Inductive FaultKind := NullTable | DanglingUndo (p : undo_ptr).

Inductive Outcome (A : Type) :=
| Val (a : A)
| Fault (k : FaultKind)
| OutOfFuel.
Arguments Val {A} a.
Arguments Fault {A} k.
Arguments OutOfFuel {A}.

Definition M (A : Type) : Type := World → Outcome A * World.

Definition M_ret {A} (a : A) : M A := fun w => (Val a, w).

Definition M_bind {A B} (f : A → M B) (m : M A) : M B := fun w =>
  match m w with
  | (Val a, w') => f a w'
  | (Fault k, w') => (Fault k, w')
  | (OutOfFuel, w') => (OutOfFuel, w')
  end.

#[global] Instance M_mret : MRet M := @M_ret.
#[global] Instance M_mbind : MBind M := @M_bind.

Definition fault {A} (k : FaultKind) : M A := fun w => (Fault k, w).
Definition out_of_fuel {A} : M A := fun w => (OutOfFuel, w).

Definition get_gc : M GarbageCollector := fun w => (Val (gc_ w), w).
Definition put_gc (g : GarbageCollector) : M unit := fun w =>
  (Val (), mkWorld g (shared_ w) (sched_ w) (trace_ w)).
Definition get_store : M Store := fun w => (Val (store_ (shared_ w)), w).
Definition put_store (s : Store) : M unit := fun w =>
  (Val (), mkWorld (gc_ w) (mkShared (txn_manager_ (shared_ w)) s) (sched_ w) (trace_ w)).
Definition get_txn_manager : M TransactionManager := fun w =>
  (Val (txn_manager_ (shared_ w)), w).
Definition put_txn_manager (tm : TransactionManager) : M unit := fun w =>
  (Val (), mkWorld (gc_ w) (mkShared tm (store_ (shared_ w))) (sched_ w) (trace_ w)).
Definition log (e : Event) : M unit := fun w =>
  (Val (), mkWorld (gc_ w) (shared_ w) (sched_ w) (trace_ w ++ [e])).

(** The other threads take their next step. *)
Definition interfere : M unit := fun w =>
  match sched_ w with
  | [] => (Val (), w)
  | step :: rest => (Val (), mkWorld (gc_ w) (step (shared_ w)) rest (trace_ w))
  end.

(** ** Calls to the transaction manager *)

Definition OldestTransactionStartTime : M timestamp_t :=
  interfere;;
  tm ← get_txn_manager;
  log (EvOldestTransactionStartTime (oldest_start_time_ tm));;
  mret (oldest_start_time_ tm).

Definition GetTimestamp : M timestamp_t :=
  interfere;;
  tm ← get_txn_manager;
  log (EvGetTimestamp (time_ tm));;
  mret (time_ tm).

Definition CompletedTransactionsForGC : M (list TransactionContext) :=
  interfere;;
  tm ← get_txn_manager;
  put_txn_manager (mkTransactionManager (oldest_start_time_ tm) (time_ tm) []
                     (tm_deferred_actions_ tm));;
  log (EvCompletedTransactionsForGC (completed_txns_ tm));;
  mret (completed_txns_ tm).

Definition DeferredActionsForGC : M (list (timestamp_t * action_t)) :=
  interfere;;
  tm ← get_txn_manager;
  put_txn_manager (mkTransactionManager (oldest_start_time_ tm) (time_ tm)
                     (completed_txns_ tm) []);;
  log (EvDeferredActionsForGC (tm_deferred_actions_ tm));;
  mret (tm_deferred_actions_ tm).

(** ** Accesses to the data table *)

Definition deref_undo (p : undo_ptr) : M UndoRecord :=
  s ← get_store;
  match undo_ s !! p with
  | Some r => mret r
  | None => fault (DanglingUndo p)
  end.

(** [table->AtomicallyReadVersionPtr(slot, accessor)] *)
Definition AtomicallyReadVersionPtr (slot : TupleSlot) : M (option undo_ptr) :=
  interfere;;
  s ← get_store;
  log (EvReadVersionPtr slot (version_ptr_ s !! slot));;
  mret (version_ptr_ s !! slot).

Definition write_version_ptr (slot : TupleSlot) (v : option undo_ptr) (s : Store) : Store :=
  mkStore (match v with
           | Some p => <[slot := p]> (version_ptr_ s)
           | None => delete slot (version_ptr_ s)
           end) (undo_ s) (attrs_ s).

(** [table->CompareAndSwapVersionPtr(slot, accessor, expected, desired)] *)
Definition CompareAndSwapVersionPtr (slot : TupleSlot) (expected desired : option undo_ptr)
  : M bool :=
  interfere;;
  s ← get_store;
  if bool_decide (version_ptr_ s !! slot = expected) then
    put_store (write_version_ptr slot desired s);;
    log (EvCompareAndSwapVersionPtr slot expected desired true);;
    mret true
  else
    log (EvCompareAndSwapVersionPtr slot expected desired false);;
    mret false.

(** [p->Timestamp().load()] *)
Definition load_Timestamp (p : undo_ptr) : M timestamp_t :=
  interfere;;
  r ← deref_undo p;
  log (EvLoadTimestamp p (Timestamp r));;
  mret (Timestamp r).

(** [p->Next()] read *)
Definition load_Next (p : undo_ptr) : M (option undo_ptr) :=
  interfere;;
  r ← deref_undo p;
  log (EvLoadNext p (Next r));;
  mret (Next r).

Definition set_Next (r : UndoRecord) (v : option undo_ptr) : UndoRecord :=
  mkUndoRecord (Type_ r) (Timestamp r) v (Table r) (Slot r) (Delta r).

(** [p->Next().store(v)] *)
Definition store_Next (p : undo_ptr) (v : option undo_ptr) : M unit :=
  r ← deref_undo p;
  s ← get_store;
  put_store (mkStore (version_ptr_ s) (<[p := set_Next r v]> (undo_ s)) (attrs_ s));;
  log (EvStoreNext p v).

(** [accessor.AccessWithNullCheck(slot, col_id)], viewed as a [VarlenEntry]. *)
Definition AccessWithNullCheck (s : Store) (slot : TupleSlot) (col_id : col_id_t)
  : option VarlenEntry :=
  attrs_ s !! (slot, col_id).

(** ** [GarbageCollector::TruncateVersionChain] *)

(** The [while (true)] loop: [Some curr] when it leaves by [break], [None]
    when it returns from the function because [next == nullptr]. *)
Fixpoint traverse (fuel : nat) (oldest : timestamp_t) (curr : undo_ptr) : M (option undo_ptr) :=
  match fuel with
  | O => out_of_fuel
  | S fuel' =>
      next ← load_Next curr;
      match next with
      | None => mret None
      | Some n =>
          ts ← load_Timestamp n;
          if NewerThan oldest ts then mret (Some curr)
          else traverse fuel' oldest n
      end
  end.

Fixpoint TruncateVersionChain (fuel : nat) (table : DataTable) (slot : TupleSlot)
    (oldest : timestamp_t) : M unit :=
  match fuel with
  | O => out_of_fuel
  | S fuel' =>
      version_ptr ← AtomicallyReadVersionPtr slot;
      match version_ptr with
      | None => mret ()
      | Some vp =>
          ts ← load_Timestamp vp;
          if NewerThan oldest ts then
            ok ← CompareAndSwapVersionPtr slot (Some vp) None;
            if negb ok then TruncateVersionChain fuel' table slot oldest
            else mret ()
          else
            found ← traverse fuel' oldest vp;
            match found with
            | None => mret ()
            | Some curr =>
                store_Next curr None;;
                if bool_decide (curr = vp) then
                  ts' ← load_Timestamp vp;
                  if negb (Committed ts') then
                    head ← AtomicallyReadVersionPtr slot;
                    if bool_decide (head ≠ Some vp)
                    then TruncateVersionChain fuel' table slot oldest
                    else mret ()
                  else mret ()
                else mret ()
            end
      end
  end.

(** ** Reclaiming slots and varlen buffers *)

(** [GarbageCollector::ReclaimSlotIfDeleted] *)
Definition ReclaimSlotIfDeleted (undo_record : UndoRecord) : M unit :=
  match Type_ undo_record with
  | DELETE =>
      match Table undo_record with
      | None => fault NullTable
      | Some _ => log (EvDeallocate (Slot undo_record))
      end
  | _ => mret ()
  end.

(** [if (varlen != nullptr && varlen->NeedReclaim())
       txn->loose_ptrs_.push_back(varlen->Content());] *)
Definition reclaim_varlen (txn : TransactionContext) (varlen : option VarlenEntry)
  : TransactionContext :=
  match varlen with
  | Some v => if NeedReclaim v then push_loose_ptr txn (Content v) else txn
  | None => txn
  end.

(** [GarbageCollector::ReclaimBufferIfVarlen].  The transaction is updated
    through its pointer; here the updated transaction is returned. *)
Definition ReclaimBufferIfVarlen (txn : TransactionContext) (undo_record : UndoRecord)
  : M TransactionContext :=
  match Table undo_record with
  | None => fault NullTable
  | Some table =>
      let accessor := accessor_ table in
      let layout := GetBlockLayout accessor in
      match Type_ undo_record with
      | INSERT => mret txn
      | DELETE =>
          s ← get_store;
          mret (foldl (fun txn i =>
                         let col_id := i in
                         if IsVarlen layout col_id
                         then reclaim_varlen txn (AccessWithNullCheck s (Slot undo_record) col_id)
                         else txn)
                  txn (seq 0 (NumColumns layout)))
      | UPDATE =>
          mret (foldl (fun txn i =>
                         let col_id := ColumnIds (Delta undo_record) !!! i in
                         if IsVarlen layout col_id
                         then reclaim_varlen txn (Delta_AccessWithNullCheck (Delta undo_record) i)
                         else txn)
                  txn (seq 0 (Delta_NumColumns (Delta undo_record))))
      end
  end.

(** ** The phases of a collection period *)

Definition set_txns_to_deallocate (q : list TransactionContext) (g : GarbageCollector)
  : GarbageCollector :=
  mkGarbageCollector (last_unlinked_ g) q (txns_to_unlink_ g) (deferred_actions_ g) (indexes_ g).

Definition set_txns_to_unlink (q : list TransactionContext) (g : GarbageCollector)
  : GarbageCollector :=
  mkGarbageCollector (last_unlinked_ g) (txns_to_deallocate_ g) q (deferred_actions_ g)
    (indexes_ g).

Definition set_deferred_actions (q : list (timestamp_t * action_t)) (g : GarbageCollector)
  : GarbageCollector :=
  mkGarbageCollector (last_unlinked_ g) (txns_to_deallocate_ g) (txns_to_unlink_ g) q
    (indexes_ g).

Definition set_last_unlinked (t : timestamp_t) (g : GarbageCollector) : GarbageCollector :=
  mkGarbageCollector t (txns_to_deallocate_ g) (txns_to_unlink_ g) (deferred_actions_ g)
    (indexes_ g).

(** The [while] loop of [ProcessDeallocateQueue] over what is left of
    [txns_to_deallocate_]. *)
Fixpoint deallocate_loop (queue : list TransactionContext) (txns_processed : Z)
    (requeue : list TransactionContext) : M (Z * list TransactionContext) :=
  match queue with
  | [] => mret (txns_processed, requeue)
  | txn :: queue' =>
      if log_processed_ txn then
        log (EvDelete txn);;
        deallocate_loop queue' (uint32_incr txns_processed) requeue
      else
        deallocate_loop queue' txns_processed (txn :: requeue)
  end.

(** [GarbageCollector::ProcessDeallocateQueue] *)
Definition ProcessDeallocateQueue : M Z :=
  oldest_txn ← OldestTransactionStartTime;
  g ← get_gc;
  if NewerThan oldest_txn (last_unlinked_ g) then
    '(txns_processed, requeue) ← deallocate_loop (txns_to_deallocate_ g) 0 [];
    put_gc (set_txns_to_deallocate requeue g);;
    mret txns_processed
  else mret 0.

(** The body of the [for] loop over the undo buffer of a transaction that is
    safe to unlink. *)
Definition unlink_record (fuel : nat) (oldest_txn : timestamp_t) (undo_record : UndoRecord)
    (visited_slots : gset Z) (txn : TransactionContext) : M (gset Z * TransactionContext) :=
  visited_slots' ←
    match Table undo_record with
    | Some table =>
        if bool_decide (Slot undo_record ∈ visited_slots) then mret visited_slots
        else
          log (EvTruncate (Slot undo_record) oldest_txn);;
          TruncateVersionChain fuel table (Slot undo_record) oldest_txn;;
          mret ({[Slot undo_record]} ∪ visited_slots)
    | None => mret visited_slots
    end;
  txn' ←
    (if negb (Aborted txn) then
       ReclaimSlotIfDeleted undo_record;;
       ReclaimBufferIfVarlen txn undo_record
     else mret txn);
  mret (visited_slots', txn').

Fixpoint unlink_records (fuel : nat) (oldest_txn : timestamp_t) (records : list UndoRecord)
    (visited_slots : gset Z) (txn : TransactionContext) : M (gset Z * TransactionContext) :=
  match records with
  | [] => mret (visited_slots, txn)
  | undo_record :: records' =>
      '(visited_slots', txn') ← unlink_record fuel oldest_txn undo_record visited_slots txn;
      unlink_records fuel oldest_txn records' visited_slots' txn'
  end.

Definition push_front_txns_to_deallocate (txn : TransactionContext) : M unit :=
  g ← get_gc;
  put_gc (set_txns_to_deallocate (txn :: txns_to_deallocate_ g) g).

(** The [while] loop of [ProcessUnlinkQueue] over what is left of
    [txns_to_unlink_]. *)
Fixpoint unlink_loop (fuel : nat) (oldest_txn : timestamp_t) (queue : list TransactionContext)
    (txns_processed : Z) (requeue : list TransactionContext) (visited_slots : gset Z)
  : M (Z * list TransactionContext) :=
  match queue with
  | [] => mret (txns_processed, requeue)
  | txn :: queue' =>
      if bool_decide (undo_buffer_ txn = []) then
        log (EvDelete txn);;
        unlink_loop fuel oldest_txn queue' (uint32_incr txns_processed) requeue visited_slots
      else if NewerThan oldest_txn (TxnId txn) then
        '(visited_slots', txn') ←
          unlink_records fuel oldest_txn (undo_buffer_ txn) visited_slots txn;
        push_front_txns_to_deallocate txn';;
        unlink_loop fuel oldest_txn queue' (uint32_incr txns_processed) requeue visited_slots'
      else
        unlink_loop fuel oldest_txn queue' txns_processed (txn :: requeue) visited_slots
  end.

(** [GarbageCollector::ProcessUnlinkQueue] *)
Definition ProcessUnlinkQueue (fuel : nat) : M Z :=
  oldest_txn ← OldestTransactionStartTime;
  completed_txns ← CompletedTransactionsForGC;
  g ← get_gc;
  '(txns_processed, requeue) ←
    unlink_loop fuel oldest_txn (completed_txns ++ txns_to_unlink_ g) 0 [] ∅;
  g ← get_gc;
  put_gc (set_txns_to_unlink requeue g);;
  mret txns_processed.

(** The second [while] loop of [ProcessDeferredActions]; it returns what is
    left of the queue. *)
Fixpoint run_deferred_actions (oldest_txn : timestamp_t) (queue : list (timestamp_t * action_t))
  : M (list (timestamp_t * action_t)) :=
  match queue with
  | [] => mret []
  | front :: queue' =>
      if front.1 <=? oldest_txn then
        log (EvInvoke front.2);;
        run_deferred_actions oldest_txn queue'
      else mret queue
  end.

(** [GarbageCollector::ProcessDeferredActions] *)
Definition ProcessDeferredActions : M unit :=
  new_actions ← DeferredActionsForGC;
  g ← get_gc;
  put_gc (set_deferred_actions (deferred_actions_ g ++ new_actions) g);;
  oldest_txn ← OldestTransactionStartTime;
  g ← get_gc;
  remaining ← run_deferred_actions oldest_txn (deferred_actions_ g);
  put_gc (set_deferred_actions remaining g).

(** [GarbageCollector::ProcessIndexes] *)
Definition ProcessIndexes : M unit :=
  g ← get_gc;
  foldr (fun index rest => log (EvIndexGC index);; rest) (mret ()) (indexes_ g).

(** [GarbageCollector::PerformGarbageCollection] *)
Definition PerformGarbageCollection (fuel : nat) : M (Z * Z) :=
  ProcessDeferredActions;;
  txns_deallocated ← ProcessDeallocateQueue;
  txns_unlinked ← ProcessUnlinkQueue fuel;
  (if 0 <? txns_unlinked then
     now ← GetTimestamp;
     g ← get_gc;
     put_gc (set_last_unlinked now g)
   else mret ());;
  ProcessIndexes;;
  mret (txns_deallocated, txns_unlinked).

(** One execution of the body of [TruncateVersionChain], up to the point
    where it returns or calls itself again. *)
Inductive PassEnd := Return | Restart.

Definition truncate_pass (fuel : nat) (table : DataTable) (slot : TupleSlot)
    (oldest : timestamp_t) : M PassEnd :=
  version_ptr ← AtomicallyReadVersionPtr slot;
  match version_ptr with
  | None => mret Return
  | Some vp =>
      ts ← load_Timestamp vp;
      if NewerThan oldest ts then
        ok ← CompareAndSwapVersionPtr slot (Some vp) None;
        if negb ok then mret Restart else mret Return
      else
        found ← traverse fuel oldest vp;
        match found with
        | None => mret Return
        | Some curr =>
            store_Next curr None;;
            if bool_decide (curr = vp) then
              ts' ← load_Timestamp vp;
              if negb (Committed ts') then
                head ← AtomicallyReadVersionPtr slot;
                if bool_decide (head ≠ Some vp) then mret Restart else mret Return
              else mret Return
            else mret Return
        end
  end.

(** ** Reading traces *)

Definition deleted_txns (tr : list Event) : list TransactionContext :=
  omap (fun e => match e with EvDelete txn => Some txn | _ => None end) tr.

Definition oldest_answers (tr : list Event) : list timestamp_t :=
  omap (fun e => match e with EvOldestTransactionStartTime t => Some t | _ => None end) tr.

Definition timestamp_answers (tr : list Event) : list timestamp_t :=
  omap (fun e => match e with EvGetTimestamp t => Some t | _ => None end) tr.

Definition completed_answers (tr : list Event) : list (list TransactionContext) :=
  omap (fun e => match e with EvCompletedTransactionsForGC q => Some q | _ => None end) tr.

Definition invoked_actions (tr : list Event) : list action_t :=
  omap (fun e => match e with EvInvoke a => Some a | _ => None end) tr.

Definition truncated_slots (tr : list Event) : list TupleSlot :=
  omap (fun e => match e with EvTruncate slot _ => Some slot | _ => None end) tr.

Definition deallocated_slots (tr : list Event) : list TupleSlot :=
  omap (fun e => match e with EvDeallocate slot => Some slot | _ => None end) tr.

Definition version_ptr_reads (tr : list Event) : list (option undo_ptr) :=
  omap (fun e => match e with EvReadVersionPtr _ r => Some r | _ => None end) tr.

(** The writes of the collector to the shared heap. *)
Definition is_write (e : Event) : bool :=
  match e with
  | EvCompareAndSwapVersionPtr _ _ _ _ | EvStoreNext _ _ | EvDeallocate _ => true
  | _ => false
  end.

(** The accesses to version chains, which is all [TruncateVersionChain] does. *)
Definition is_chain_event (e : Event) : bool :=
  match e with
  | EvReadVersionPtr _ _ | EvCompareAndSwapVersionPtr _ _ _ _
  | EvLoadTimestamp _ _ | EvLoadNext _ _ | EvStoreNext _ _ => true
  | _ => false
  end.

Definition add_events (evs : list Event) (w : World) : World :=
  mkWorld (gc_ w) (shared_ w) (sched_ w) (trace_ w ++ evs).

Definition after_interference (w : World) : World := (interfere w).2.

(** The answer of the transaction manager to [OldestTransactionStartTime]
    when it is asked in world [w]. *)
Definition oldest_answer (w : World) : timestamp_t :=
  oldest_start_time_ (txn_manager_ (shared_ (after_interference w))).

(** ** What the specification says of varlen reclamation *)

Definition add_loose_ptrs (txn : TransactionContext) (ps : list buffer_ptr) : TransactionContext :=
  {| StartTime := StartTime txn; TxnId := TxnId txn; undo_buffer_ := undo_buffer_ txn;
     loose_ptrs_ := loose_ptrs_ txn ++ ps;
     log_processed_ := log_processed_ txn; Aborted := Aborted txn |}.

(** "a payload is moved iff it is non-null and needs reclamation" *)
Definition payload_to_move (varlen : option VarlenEntry) : option buffer_ptr :=
  v ← varlen; if NeedReclaim v then Some (Content v) else None.

(** The payloads to move, following the words of the specification:
    "INSERT: no varlen to reclaim.  DELETE: scan every varlen column of the
    base tuple and move any payload needing reclamation.  UPDATE: scan only
    columns present in the delta; same move." *)
Definition spec_payloads_to_move (s : Store) (layout : BlockLayout) (undo : UndoRecord)
  : list buffer_ptr :=
  match Type_ undo with
  | INSERT => []
  | DELETE =>
      omap (fun col => payload_to_move (AccessWithNullCheck s (Slot undo) col))
        (filter (fun col => IsVarlen layout col = true) (seq 0 (NumColumns layout)))
  | UPDATE =>
      omap (fun i => payload_to_move (Delta_AccessWithNullCheck (Delta undo) i))
        (filter (fun i => IsVarlen layout (ColumnIds (Delta undo) !!! i) = true)
           (seq 0 (length (ColumnIds (Delta undo)))))
  end.

(** ** The unlink phase, seen from outside the version chains *)

(** What is left of a trace when the accesses to version chains are
    dropped. *)
Definition high_level (tr : list Event) : list Event :=
  filter (fun e => is_chain_event e = false) tr.

(** [m] leaves the collector object alone and only accesses version
    chains. *)
Definition chain_only {A} (m : M A) : Prop :=
  ∀ w o w', m w = (o, w') →
    gc_ w' = gc_ w ∧ o ≠ Fault NullTable ∧
    ∃ evs, trace_ w' = trace_ w ++ evs ∧ high_level evs = [].

(** The three things [ProcessUnlinkQueue] can do with a transaction. *)
Inductive Fate := Deleted | Unlinked | Requeued.

#[global] Instance Fate_eq_dec : EqDecision Fate.
Proof. solve_decision. Defined.

Definition fate (oldest_txn : timestamp_t) (txn : TransactionContext) : Fate :=
  if bool_decide (undo_buffer_ txn = []) then Deleted
  else if NewerThan oldest_txn (TxnId txn) then Unlinked
  else Requeued.

(** The visited slots after an undo record has been processed. *)
Definition visit (visited_slots : gset Z) (undo_record : UndoRecord) : gset Z :=
  match Table undo_record with
  | Some _ => {[Slot undo_record]} ∪ visited_slots
  | None => visited_slots
  end.

(** The calls that processing one undo record makes, chain accesses aside. *)
Definition record_trace (oldest_txn : timestamp_t) (aborted : bool) (visited_slots : gset Z)
    (undo_record : UndoRecord) : list Event :=
  (match Table undo_record with
   | Some _ =>
       if bool_decide (Slot undo_record ∈ visited_slots) then []
       else [EvTruncate (Slot undo_record) oldest_txn]
   | None => []
   end) ++
  (if aborted then []
   else match Type_ undo_record with
        | DELETE => [EvDeallocate (Slot undo_record)]
        | _ => []
        end).

Fixpoint records_trace (oldest_txn : timestamp_t) (aborted : bool) (visited_slots : gset Z)
    (records : list UndoRecord) : list Event :=
  match records with
  | [] => []
  | undo_record :: records' =>
      record_trace oldest_txn aborted visited_slots undo_record ++
      records_trace oldest_txn aborted (visit visited_slots undo_record) records'
  end.

Fixpoint unlink_trace (oldest_txn : timestamp_t) (visited_slots : gset Z)
    (queue : list TransactionContext) : list Event :=
  match queue with
  | [] => []
  | txn :: queue' =>
      match fate oldest_txn txn with
      | Deleted => EvDelete txn :: unlink_trace oldest_txn visited_slots queue'
      | Unlinked =>
          records_trace oldest_txn (Aborted txn) visited_slots (undo_buffer_ txn) ++
          unlink_trace oldest_txn (foldl visit visited_slots (undo_buffer_ txn)) queue'
      | Requeued => unlink_trace oldest_txn visited_slots queue'
      end
  end.

(** The loose pointers that the records of a transaction contribute, each
    read off the store at the moment its record is processed. *)
Inductive reclaimed_ptrs : list UndoRecord → list buffer_ptr → Prop :=
| reclaimed_nil : reclaimed_ptrs [] []
| reclaimed_cons undo_record records table s ps :
    Table undo_record = Some table →
    reclaimed_ptrs records ps →
    reclaimed_ptrs (undo_record :: records)
      (spec_payloads_to_move s (GetBlockLayout (accessor_ table)) undo_record ++ ps).

(** [unlinked_as txn txn']: [txn'] is [txn] as it is pushed onto the
    deallocation queue. *)
Definition unlinked_as (txn txn' : TransactionContext) : Prop :=
  if Aborted txn then txn' = txn
  else ∃ ps, reclaimed_ptrs (undo_buffer_ txn) ps ∧ txn' = add_loose_ptrs txn ps.

(** ** The write-ahead log *)

Module WAL.

(** Modelled from the spec: the transaction manager, the log manager and the
    bodies of the serializer and of the disk writer are not among the
    sources; only the declaration of the serializer task and the tests of the
    log are.  Section 4.4: "record_type (u8): REDO=0, DELETE=1, COMMIT=2". *)
Inductive LogRecordType := REDO | DELETE | COMMIT.

#[global] Instance LogRecordType_eq_dec : EqDecision LogRecordType.
Proof. solve_decision. Defined.

(** Modelled from the spec: a log record carries its type, the begin
    timestamp of its transaction, the commit timestamp (COMMIT only) and the
    tuple slot (REDO and DELETE only); the column payload is left out. *)
Record LogRecord := mkLogRecord {
  RecordType : LogRecordType;
  TxnBegin : timestamp_t;
  CommitTime : timestamp_t;
  GetTupleSlot : Z
}.

(** What the threads of a workload do, in the order in which it happens.
    A transaction is named by its begin timestamp. *)
Inductive Step :=
| StBegin (txn : timestamp_t)
| StSelect (txn : timestamp_t) (slot : Z)
| StUpdate (txn : timestamp_t) (slot : Z)
| StDelete (txn : timestamp_t) (slot : Z)
| StCommit (txn : timestamp_t)
| StAbort (txn : timestamp_t)
| StSerialize.

(** The redo buffer of every running transaction, the buffers handed to the
    serializer ([flush_queue_] of [LogSerializerTask], a [std::queue]), the
    log file, and the timestamp counter. *)
Record LogState := mkLogState {
  redo_buffers_ : gmap Z (list LogRecord);
  flush_queue_ : list (list LogRecord);
  log_file_ : list LogRecord;
  next_time_ : timestamp_t
}.

Definition initial : LogState := mkLogState ∅ [] [] 1.

Definition redo_buffer (s : LogState) (txn : timestamp_t) : list LogRecord :=
  default [] (redo_buffers_ s !! txn).

Definition append_record (s : LogState) (txn : timestamp_t) (r : LogRecord) : LogState :=
  mkLogState (<[txn := redo_buffer s txn ++ [r]]> (redo_buffers_ s)) (flush_queue_ s)
    (log_file_ s) (next_time_ s).

(** [LogSerializerTask::AddBufferToFlushQueue]: [flush_queue_.push]. *)
Definition AddBufferToFlushQueue (buffer : list LogRecord) (s : LogState) : LogState :=
  mkLogState (redo_buffers_ s) (flush_queue_ s ++ [buffer]) (log_file_ s) (next_time_ s).

(** Modelled from the spec, section 4.2, commit: "If txn has no writes,
    allocate a committed ts, ... return ts.  Otherwise, ... allocate a
    committed ts, ... append a commit redo record tagged with the commit ts
    ..., hand the txn's redo buffer to the WAL serializer". *)
Definition Commit (txn : timestamp_t) (s : LogState) : LogState :=
  let commit_ts := next_time_ s in
  let s' := mkLogState (delete txn (redo_buffers_ s)) (flush_queue_ s) (log_file_ s)
              (next_time_ s + 1) in
  match redo_buffer s txn with
  | [] => s'
  | buffer => AddBufferToFlushQueue (buffer ++ [mkLogRecord COMMIT txn commit_ts 0]) s'
  end.

(** Modelled from the spec, section 4.2, abort: "The redo buffer is
    discarded; no commit record is emitted." *)
Definition Abort (txn : timestamp_t) (s : LogState) : LogState :=
  mkLogState (delete txn (redo_buffers_ s)) (flush_queue_ s) (log_file_ s) (next_time_ s).

(** Modelled from the spec, section 4.4: the serializer "drains the FIFO and
    iterates records in each buffer in order"; the disk writer "writes bytes
    to the log file". *)
Definition Process (s : LogState) : LogState :=
  mkLogState (redo_buffers_ s) [] (log_file_ s ++ concat (flush_queue_ s)) (next_time_ s).

Definition step (s : LogState) (st : Step) : LogState :=
  match st with
  | StBegin txn =>
      mkLogState (<[txn := []]> (redo_buffers_ s)) (flush_queue_ s) (log_file_ s)
        (next_time_ s + 1)
  | StSelect _ _ => s
  | StUpdate txn slot => append_record s txn (mkLogRecord REDO txn 0 slot)
  | StDelete txn slot => append_record s txn (mkLogRecord DELETE txn 0 slot)
  | StCommit txn => Commit txn s
  | StAbort txn => Abort txn s
  | StSerialize => Process s
  end.

Definition run (workload : list Step) : LogState := foldl step initial workload.

(** Modelled from the spec, section 4.4, shutdown: "Signal serializer to
    drain its FIFO; signal disk writer to persist and then terminate." *)
Definition PersistAndStop (s : LogState) : LogState := Process s.

Definition writes_of (txn : timestamp_t) (st : Step) : bool :=
  match st with
  | StUpdate t _ | StDelete t _ => bool_decide (t = txn)
  | _ => false
  end.

Definition commit_of (txn : timestamp_t) (st : Step) : bool :=
  match st with
  | StCommit t => bool_decide (t = txn)
  | _ => false
  end.

Definition is_write_step (st : Step) : bool :=
  match st with
  | StUpdate _ _ | StDelete _ _ => true
  | _ => false
  end.

(** The loop of [ReadOnlyTransactionsGenerateNoLogTest] over the records read
    back from the log file: the records of the transaction that began at 0
    are skipped, every other record is counted. *)
Fixpoint log_records_count (log : list LogRecord) (count : Z) : Z :=
  match log with
  | [] => count
  | log_record :: log' =>
      if bool_decide (TxnBegin log_record = 0) then log_records_count log' count
      else log_records_count log' (count + 1)
  end.

(** A workload of readers only, over two threads, and a mixed one. *)
Definition readers_only : list Step :=
  [StBegin 1; StBegin 2; StSelect 1 100; StSelect 2 100; StCommit 1; StSerialize;
   StSelect 2 200; StAbort 2; StBegin 3; StSelect 3 100; StCommit 3].

Definition mixed : list Step :=
  [StBegin 1; StBegin 2; StUpdate 1 100; StSelect 2 100; StCommit 2; StUpdate 1 200;
   StBegin 3; StUpdate 3 300; StAbort 3; StCommit 1].

End WAL.

(** ** Example worlds *)

Module Examples.

Definition empty_store : Store := mkStore ∅ ∅ ∅.

Definition quiet_world (g : GarbageCollector) (tm : TransactionManager) (s : Store) : World :=
  mkWorld g (mkShared tm s) [] [].

(** Two pending actions that are not in timestamp order, and an oldest
    running transaction that started at 5. *)
Definition out_of_order_actions : World :=
  quiet_world (mkGarbageCollector 0 [] [] [(10, 0%nat); (3, 1%nat)] [])
    (mkTransactionManager 5 20 [] []) empty_store.

(** Three pending actions in timestamp order, one more handed over by the
    manager. *)
Definition ordered_actions : World :=
  quiet_world (mkGarbageCollector 0 [] [] [(2, 0%nat); (3, 1%nat); (9, 2%nat)] [])
    (mkTransactionManager 5 20 [] [(12, 3%nat)]) empty_store.

(** A version chain at slot 100: an uncommitted head written by a running
    transaction, over two committed versions with timestamps 20 and 10. *)
Definition running_ts : timestamp_t := 2 ^ 63 + 7.
Definition no_delta : ProjectedRow := mkProjectedRow [] [].
Definition a_table : DataTable := mkDataTable (mkTupleAccessStrategy (mkBlockLayout 3 [1%nat])).

Definition chain_store : Store :=
  mkStore {[ 100 := 1%positive ]}
    (<[ 1%positive := mkUndoRecord UPDATE running_ts (Some 2%positive) (Some a_table) 100 no_delta ]>
       (<[ 2%positive := mkUndoRecord UPDATE 20 (Some 3%positive) (Some a_table) 100 no_delta ]>
          {[ 3%positive := mkUndoRecord UPDATE 10 None (Some a_table) 100 no_delta ]}))
    ∅.

Definition idle_manager : TransactionManager := mkTransactionManager 15 30 [] [].
Definition fresh_collector : GarbageCollector := mkGarbageCollector 0 [] [] [] [].

(** The running transaction aborts: its record is unlinked from the head. *)
Definition abort_head (sh : Shared) : Shared :=
  mkShared (txn_manager_ sh) (write_version_ptr 100 (Some 2%positive) (store_ sh)).

(** The head aborts while the collector is inside the chain, just before
    its sixth access to shared memory. *)
Definition head_aborts_during_traversal : World :=
  mkWorld fresh_collector (mkShared idle_manager chain_store)
    [id; id; id; id; id; abort_head] [].

(** A committed delete of the tuple at slot 7 of a table with three columns,
    the second and third variable-length. *)
Definition wide_table : DataTable :=
  mkDataTable (mkTupleAccessStrategy (mkBlockLayout 3 [1%nat; 2%nat])).

Definition deleted_tuple_store : Store :=
  mkStore ∅ ∅
    (<[ (7, 1%nat) := mkVarlenEntry 4096 true ]> {[ (7, 2%nat) := mkVarlenEntry 8192 false ]}).

Definition delete_record : UndoRecord :=
  mkUndoRecord DELETE 12 None (Some wide_table) 7 no_delta.

Definition deleting_txn : TransactionContext :=
  mkTransactionContext 11 12 [delete_record] [] true false.

Definition quiet_chain : World := quiet_world fresh_collector idle_manager chain_store.

(** An uncommitted head directly over a version that nobody can see any
    more; the head aborts just before the collector reads the version
    pointer again. *)
Definition short_chain_store : Store :=
  mkStore {[ 100 := 1%positive ]}
    (<[ 1%positive := mkUndoRecord UPDATE running_ts (Some 2%positive) (Some a_table) 100 no_delta ]>
       {[ 2%positive := mkUndoRecord UPDATE 10 None (Some a_table) 100 no_delta ]})
    ∅.

Definition head_aborts_before_recheck : World :=
  mkWorld fresh_collector (mkShared idle_manager short_chain_store)
    [id; id; id; id; id; abort_head] [].

(** Three completed transactions: a reader, a writer that committed at 4
    with two records on slot 100, and a writer that committed at 25, after the
    oldest running transaction began (15). *)
Definition update_100 : UndoRecord :=
  mkUndoRecord UPDATE 4 None (Some a_table) 100 no_delta.

Definition reader : TransactionContext := mkTransactionContext 1 2 [] [] true false.
Definition writer : TransactionContext :=
  mkTransactionContext 3 4 [update_100; update_100] [] false false.
Definition late_writer : TransactionContext :=
  mkTransactionContext 20 25 [mkUndoRecord UPDATE 25 None (Some a_table) 200 no_delta] []
    false false.

Definition three_completed : World :=
  quiet_world fresh_collector (mkTransactionManager 15 30 [reader; writer; late_writer] [])
    chain_store.

(** The last record of an aborted transaction: the write lost the race for
    slot 100 and the record never got its table. *)
Definition conflicting_record : UndoRecord :=
  mkUndoRecord UPDATE running_ts None None 100 no_delta.

Definition aborted_txn : TransactionContext :=
  mkTransactionContext 3 4 [update_100; conflicting_record] [] true true.

Definition one_aborted : World :=
  quiet_world fresh_collector (mkTransactionManager 15 30 [aborted_txn] []) chain_store.

(** A reader completes long after the collector last unlinked anything (at
    40), while a transaction that began at 15 is still running. *)
Definition late_reader : TransactionContext := mkTransactionContext 45 46 [] [] true false.

Definition reader_under_old_txn : World :=
  quiet_world (mkGarbageCollector 40 [] [] [] [])
    (mkTransactionManager 15 50 [late_reader] []) empty_store.

(** The writer of [three_completed] has been unlinked at 30 and waits in the
    deallocation queue; the log has not processed it yet. *)
Definition waiting_writer : World :=
  quiet_world (mkGarbageCollector 30 [writer] [] [] [])
    (mkTransactionManager 35 50 [] []) empty_store.



End Examples.

(** ** Version chains *)

Definition is_load (e : Event) : bool :=
  match e with
  | EvLoadTimestamp _ _ | EvLoadNext _ _ => true
  | _ => false
  end.

(** [chain_reaches s p q]: following [Next] from the record at [p] in store
    [s] leads to the record at [q]. *)
Inductive chain_reaches (s : Store) : undo_ptr → undo_ptr → Prop :=
| chain_here p : chain_reaches s p p
| chain_next p r n q :
    undo_ s !! p = Some r → Next r = Some n → chain_reaches s n q → chain_reaches s p q.


(** ** Well-formed version chains *)

(** [version_chain s head l]: following [Next] from [head] in store [s]
    visits the records at the addresses [l], in this order, and then reaches
    [nullptr]. *)
Inductive version_chain (s : Store) : option undo_ptr → list undo_ptr → Prop :=
| version_chain_nil : version_chain s None []
| version_chain_cons p r l :
    undo_ s !! p = Some r → version_chain s (Next r) l → version_chain s (Some p) (p :: l).

Definition timestamp_at (s : Store) (p : undo_ptr) : timestamp_t :=
  from_option Timestamp 0 (undo_ s !! p).

(** The version at [p] is not older than the oldest running transaction:
    [TruncateVersionChain] keeps it. *)
Definition visible_at (s : Store) (oldest : timestamp_t) (p : undo_ptr) : bool :=
  negb (NewerThan oldest (timestamp_at s p)).

Fixpoint take_while {A} (f : A → bool) (l : list A) : list A :=
  match l with
  | [] => []
  | x :: l' => if f x then x :: take_while f l' else []
  end.

(** The store after [curr->Next().store(nullptr)]. *)
Definition cut_after (c : undo_ptr) (s : Store) : Store :=
  match undo_ s !! c with
  | Some rc => mkStore (version_ptr_ s) (<[c := set_Next rc None]> (undo_ s)) (attrs_ s)
  | None => s
  end.

(** The store in which the chain [l] of [slot] has been cut down to its
    prefix [kept]: nothing changes when the whole chain is kept, the version
    pointer becomes null when nothing is kept, and otherwise the next pointer
    of the last record kept becomes null. *)
Definition truncated_store (s : Store) (slot : TupleSlot) (l kept : list undo_ptr) : Store :=
  if bool_decide (kept = l) then s
  else match last kept with
       | None => write_version_ptr slot None s
       | Some c => cut_after c s
       end.

(** Every version chain of the store ends, after fewer than [k] records. *)
Definition chains_bounded (s : Store) (k : nat) : Prop :=
  ∀ slot, ∃ l, version_chain s (version_ptr_ s !! slot) l ∧ (length l < k)%nat.

(** A chain is sorted from the newest version to the oldest when no record
    is newer than a record before it. *)
Definition newest_first (s : Store) (l : list undo_ptr) : Prop :=
  StronglySorted (λ p q, NewerThan (timestamp_at s q) (timestamp_at s p) = false) l.

(** The accesses that can at most shorten the chain of [slot]: reads, a
    compare-and-swap of its version pointer from a record to null, and a
    store of null into a next pointer. *)
Definition shortens_chain (slot : TupleSlot) (e : Event) : bool :=
  match e with
  | EvReadVersionPtr slot' _ => bool_decide (slot' = slot)
  | EvCompareAndSwapVersionPtr slot' (Some _) None _ => bool_decide (slot' = slot)
  | EvLoadTimestamp _ _ | EvLoadNext _ _ => true
  | EvStoreNext _ None => true
  | _ => false
  end.

(** Every event that [m] adds to the trace satisfies [P]. *)
Definition emits {A} (P : Event → Prop) (m : M A) : Prop :=
  ∀ w o w', m w = (o, w') → ∃ evs, trace_ w' = trace_ w ++ evs ∧ Forall P evs.

(** ** The registry of indexes *)

(** Modelled from the spec: [TERRIER_ASSERT] is defined in
    [common/macros.h], which is not among the sources.  "The registry
    disallows double-registration and unregistration of an unknown index":
    a call whose assertion fails ends in [AssertionFailed]. *)
Inductive Asserted (A : Type) :=
| Passed (a : A)
| AssertionFailed.
Arguments Passed {A} a.
Arguments AssertionFailed {A}.

Definition set_indexes (l : list index_ptr) (g : GarbageCollector) : GarbageCollector :=
  mkGarbageCollector (last_unlinked_ g) (txns_to_deallocate_ g) (txns_to_unlink_ g)
    (deferred_actions_ g) l.

(** [indexes_.count(index)] *)
Definition indexes_count (index : index_ptr) (g : GarbageCollector) : nat :=
  length (filter (λ i, i = index) (indexes_ g)).

(** [GarbageCollector::RegisterIndexForGC].  [index] is a pointer, [None]
    is [nullptr].  [indexes_] is an [unordered_set], held here as the list of
    its elements in the order in which [ProcessIndexes] iterates over them;
    a new element is put in front. *)
Definition RegisterIndexForGC (index : option index_ptr) (g : GarbageCollector)
  : Asserted GarbageCollector :=
  match index with
  | None => AssertionFailed
  | Some i =>
      if bool_decide (indexes_count i g = 0%nat)
      then Passed (set_indexes (i :: indexes_ g) g)
      else AssertionFailed
  end.

(** [GarbageCollector::UnregisterIndexForGC] *)
Definition UnregisterIndexForGC (index : option index_ptr) (g : GarbageCollector)
  : Asserted GarbageCollector :=
  match index with
  | None => AssertionFailed
  | Some i =>
      if bool_decide (indexes_count i g = 1%nat)
      then Passed (set_indexes (filter (λ j, j ≠ i) (indexes_ g)) g)
      else AssertionFailed
  end.

(** The indexes whose collection a trace runs. *)
Definition collected_indexes (tr : list Event) : list index_ptr :=
  omap (fun e => match e with EvIndexGC i => Some i | _ => None end) tr.

(** The visited slots when [ProcessUnlinkQueue] has gone through [queue]. *)
Fixpoint visited_after (oldest_txn : timestamp_t) (visited_slots : gset Z)
    (queue : list TransactionContext) : gset Z :=
  match queue with
  | [] => visited_slots
  | txn :: queue' =>
      match fate oldest_txn txn with
      | Unlinked =>
          visited_after oldest_txn (foldl visit visited_slots (undo_buffer_ txn)) queue'
      | _ => visited_after oldest_txn visited_slots queue'
      end
  end.

(** [chains_cut_to_visible s0 oldest visited s]: against store [s0], the
    chain of every slot in [s] is a prefix of what it was that still holds
    every record up to the first one older than [oldest], and the chain of
    a visited slot holds exactly these; timestamps are the same. *)
Definition chains_cut_to_visible (s0 : Store) (oldest : timestamp_t) (visited : gset Z)
    (s : Store) : Prop :=
  (∀ p, timestamp_at s p = timestamp_at s0 p) ∧
  ∀ slot l0, version_chain s0 (version_ptr_ s0 !! slot) l0 →
    ∃ l, version_chain s (version_ptr_ s !! slot) l ∧
         take_while (visible_at s0 oldest) l0 `prefix_of` l ∧ l `prefix_of` l0 ∧
         (slot ∈ visited → l = take_while (visible_at s0 oldest) l0).

(** ** The test of the log against the bookkeeping *)

Module LargeLogTest.

(** Modelled from the spec: the test harness is not among the sources.
    "bookkeeping on.  For every committed txn observed in the log, every
    recorded REDO matches the bookkeeping delta for the same (txn, slot);
    every commit_ts in the log matches the bookkeeping commit_ts."  What
    [LargeLogTest] reads of a [RandomWorkloadTransaction] that committed is
    [CommitTimestamp()] and [Updates()], the map from the tuple slots it
    updated to the rows it wrote, each row named by its address. *)
Record RandomWorkloadTransaction := mkRandomWorkloadTransaction {
  CommitTimestamp : timestamp_t;
  Updates : gmap Z positive
}.

Section expectations.

(** Modelled from the spec: [StorageTestUtil::ProjectionListEqualDeep] is
    not among the sources; "every recorded REDO matches the bookkeeping
    delta".  [ProjectionListEqualDeep row log_record] stands for
    [ProjectionListEqualDeep(layout, row, redo->Delta())], the comparison of
    a bookkept row with the delta of a log record. *)
Variable ProjectionListEqualDeep : positive → WAL.LogRecord → bool.

(** The [while (in.HasMore())] loop of [LargeLogTest] over the records read
    back from the log file, followed by the loop over what is left of
    [txns_map]: [true] when every [EXPECT_] of the test holds.  A redo record
    for a slot that is not in [Updates()] fails [EXPECT_NE] (and the test
    then dereferences the end iterator). *)
Fixpoint expectations_hold (log : list WAL.LogRecord)
    (txns_map : gmap Z RandomWorkloadTransaction) : bool :=
  match log with
  | [] => bool_decide (map_Forall (λ _ txn, Updates txn = ∅) txns_map)
  | log_record :: log' =>
      if bool_decide (WAL.TxnBegin log_record = 0) then expectations_hold log' txns_map
      else
        match txns_map !! WAL.TxnBegin log_record with
        | None =>
            bool_decide (WAL.RecordType log_record ≠ WAL.COMMIT) &&
            expectations_hold log' txns_map
        | Some txn =>
            if bool_decide (WAL.RecordType log_record = WAL.COMMIT) then
              bool_decide (WAL.CommitTime log_record = CommitTimestamp txn) &&
              bool_decide (Updates txn = ∅) &&
              expectations_hold log' (delete (WAL.TxnBegin log_record) txns_map)
            else
              match Updates txn !! WAL.GetTupleSlot log_record with
              | None => false
              | Some row =>
                  ProjectionListEqualDeep row log_record &&
                  expectations_hold log'
                    (<[WAL.TxnBegin log_record :=
                         mkRandomWorkloadTransaction (CommitTimestamp txn)
                           (delete (WAL.GetTupleSlot log_record) (Updates txn))]> txns_map)
              end
        end
  end.

(** [log_record] is a redo record of the transaction that began at [t],
    for [slot], and its delta equals [row]. *)
Definition logs_update (t : timestamp_t) (slot : Z) (row : positive)
    (log_record : WAL.LogRecord) : Prop :=
  WAL.TxnBegin log_record = t ∧ WAL.RecordType log_record ≠ WAL.COMMIT ∧
  WAL.GetTupleSlot log_record = slot ∧ ProjectionListEqualDeep row log_record = true.

End expectations.

(** The commit record of the transaction that began at [t]. *)
Definition commits (t : timestamp_t) (log_record : WAL.LogRecord) : Prop :=
  WAL.RecordType log_record = WAL.COMMIT ∧ WAL.TxnBegin log_record = t.

End LargeLogTest.

(** ** The payment transaction of the TPC-C benchmark *)

Module Payment.

(** [std::string::operator<]: bytes are compared as unsigned characters. *)
Fixpoint string_lt (a b : list Byte.byte) : bool :=
  match a, b with
  | _, [] => false
  | [], _ :: _ => true
  | x :: a', y :: b' =>
      if (Byte.to_N x <? Byte.to_N y)%N then true
      else if (Byte.to_N y <? Byte.to_N x)%N then false
      else string_lt a' b'
  end.

(** [std::map<std::string, storage::TupleSlot>::emplace]: the map is the list
    of its entries in the order of the keys; an entry whose key is already
    there is not inserted. *)
Fixpoint emplace (key : list Byte.byte) (tuple_slot : Z) (m : list (list Byte.byte * Z))
  : list (list Byte.byte * Z) :=
  match m with
  | [] => [(key, tuple_slot)]
  | (k, v) :: m' =>
      if string_lt key k then (key, tuple_slot) :: m
      else if string_lt k key then (k, v) :: emplace key tuple_slot m'
      else m
  end.

(** The choice of the customer in [Payment::Execute] when the customer is
    given by last name: [index_scan_results] is what the scan of the
    secondary index returns, [c_first] what [Select] reads as the first name
    of the customer in a slot.  [None] stands for the dereference of
    [sorted_index_scan_results.cend()], or of the first element of an empty
    vector. *)
Definition customer_slot (c_first : Z → list Byte.byte) (index_scan_results : list Z)
  : option Z :=
  if bool_decide (1 < length index_scan_results)%nat then
    let sorted_index_scan_results :=
      foldl (λ m tuple_slot, emplace (c_first tuple_slot) tuple_slot m) []
        index_scan_results in
    let median := ((length sorted_index_scan_results + 1) / 2)%nat in
    snd <$> sorted_index_scan_results !! median
  else index_scan_results !! 0%nat.

End Payment.

(** ** A period over [2 ^ 32] read-only transactions *)

(** The [i]-th of a row of completed read-only transactions: it began at
    [2 i + 1] and finished at [2 i + 2], and the log has processed it. *)
Definition reader_at (i : nat) : TransactionContext :=
  mkTransactionContext (2 * Z.of_nat i + 1) (2 * Z.of_nat i + 2) [] [] true false.

Definition readers (n : nat) : list TransactionContext := reader_at <$> seq 0 n.

(** A collector that has nothing queued and has not unlinked anything yet,
    at the moment at which the transaction manager holds [completed]; no
    transaction is running, the current timestamp is [2 ^ 34]. *)
Definition read_only_completed (completed : list TransactionContext) : World :=
  Examples.quiet_world Examples.fresh_collector
    (mkTransactionManager (2 ^ 34) (2 ^ 34) completed []) Examples.empty_store.

Definition readers_completed : World := read_only_completed (readers (Z.to_nat (2 ^ 32))).
(** ** The order of timestamps *)

Lemma low63_range t : 0 <= low63 t < 2 ^ 63.
Proof.
  unfold low63. change (2 ^ 63 - 1) with (Z.ones 63).
  rewrite Z.land_ones by lia. apply Z.mod_pos_bound. lia.
Qed.

(** [NewerThan] compares the pair of the running bit and the low 63 bits. *)
Lemma NewerThan_order a b c :
  NewerThan a b = true → NewerThan c b = false → NewerThan a c = true.
Proof.
  unfold NewerThan.
  pose proof (low63_range a). pose proof (low63_range b). pose proof (low63_range c).
  destruct (running_bit a), (running_bit b), (running_bit c);
    rewrite ?Z.ltb_lt, ?Z.ltb_ge; try done; lia.
Qed.

Lemma NewerThan_below a b c :
  NewerThan a b = true → NewerThan a c = false → NewerThan c b = true.
Proof.
  unfold NewerThan.
  pose proof (low63_range a). pose proof (low63_range b). pose proof (low63_range c).
  destruct (running_bit a), (running_bit b), (running_bit c);
    rewrite ?Z.ltb_lt, ?Z.ltb_ge; try done; lia.
Qed.

(** ** Running the monad *)

(** Unfold the monad and the accessors of the state, then compute. *)
Ltac munfold :=
  unfold mbind, mret, M_mbind, M_mret, M_bind, M_ret, get_gc, put_gc, get_store, put_store,
    get_txn_manager, put_txn_manager, log, fault, out_of_fuel.
Ltac mred := munfold; cbn.

Lemma run_bind {A B} (m : M A) (f : A → M B) (w : World) :
  (m ≫= f) w = match m w with
               | (Val a, w') => f a w'
               | (Fault k, w') => (Fault k, w')
               | (OutOfFuel, w') => (OutOfFuel, w')
               end.
Proof. reflexivity. Qed.

Lemma run_ret {A} (a : A) (w : World) : (mret a : M A) w = (Val a, w).
Proof. reflexivity. Qed.

Ltac mstep_in H := cbv beta iota zeta in H; cbn [negb] in H; rewrite ?run_ret in H.

Lemma run_interfere (w : World) : interfere w = (Val (), after_interference w).
Proof. unfold after_interference, interfere. by destruct (sched_ w). Qed.

Lemma after_interference_gc w : gc_ (after_interference w) = gc_ w.
Proof. unfold after_interference, interfere. by destruct (sched_ w). Qed.

Lemma after_interference_trace w : trace_ (after_interference w) = trace_ w.
Proof. unfold after_interference, interfere. by destruct (sched_ w). Qed.

Lemma after_interference_quiet w : sched_ w = [] → after_interference w = w.
Proof. unfold after_interference, interfere. by intros ->. Qed.

Lemma add_events_nil w : add_events [] w = w.
Proof. destruct w. unfold add_events. simpl. by rewrite app_nil_r. Qed.

Lemma add_events_app evs1 evs2 w :
  add_events evs2 (add_events evs1 w) = add_events (evs1 ++ evs2) w.
Proof. unfold add_events. simpl. by rewrite app_assoc. Qed.

Lemma run_OldestTransactionStartTime w :
  OldestTransactionStartTime w =
    let w1 := after_interference w in
    let t := oldest_start_time_ (txn_manager_ (shared_ w1)) in
    (Val t, add_events [EvOldestTransactionStartTime t] w1).
Proof. unfold OldestTransactionStartTime. rewrite run_bind, run_interfere. reflexivity. Qed.

Lemma run_GetTimestamp w :
  GetTimestamp w =
    let w1 := after_interference w in
    let t := time_ (txn_manager_ (shared_ w1)) in
    (Val t, add_events [EvGetTimestamp t] w1).
Proof. unfold GetTimestamp. rewrite run_bind, run_interfere. reflexivity. Qed.

(** Iterating the 32-bit increment counts modulo [2 ^ 32]. *)
Lemma uint32_incr_iter (k : nat) (n : Z) :
  Nat.iter k uint32_incr n = if decide (k = 0%nat) then n else (n + Z.of_nat k) mod 2 ^ 32.
Proof.
  induction k as [|k IH]; [done|].
  rewrite Nat.iter_succ, IH. unfold uint32_incr.
  destruct (decide (k = 0%nat)) as [->|_]; simpl decide.
  - done.
  - destruct (decide _) as [|_]; [done|].
    rewrite Zplus_mod_idemp_l. f_equal. lia.
Qed.

Lemma uint32_count_pos (k : nat) :
  (Z.of_nat k < 2 ^ 32) → (0 <? Nat.iter k uint32_incr 0) = bool_decide (k ≠ 0%nat).
Proof.
  intros Hk. rewrite uint32_incr_iter.
  destruct (decide (k = 0%nat)) as [->|Hne]; [done|].
  rewrite Z.mod_small by lia.
  rewrite bool_decide_true by done. apply Z.ltb_lt. lia.
Qed.

Lemma run_log e w : log e w = (Val (), add_events [e] w).
Proof. reflexivity. Qed.

(** ** The deallocation phase *)

Lemma deallocate_loop_run q n rq w :
  deallocate_loop q n rq w =
    (Val (Nat.iter (length (filter (λ t, log_processed_ t = true) q)) uint32_incr n,
          rev (filter (λ t, log_processed_ t = false) q) ++ rq),
     add_events (EvDelete <$> filter (λ t, log_processed_ t = true) q) w).
Proof.
  revert n rq w. induction q as [|txn q IH]; intros n rq w.
  - simpl. by rewrite add_events_nil.
  - simpl. destruct (log_processed_ txn) eqn:Hlp.
    + rewrite run_bind, run_log, IH.
      rewrite filter_cons_True, filter_cons_False by congruence.
      rewrite add_events_app. cbn [length fmap list_fmap].
      by rewrite Nat.iter_succ_r.
    + rewrite IH.
      rewrite filter_cons_False, filter_cons_True by congruence.
      simpl. by rewrite <- app_assoc.
Qed.

Lemma ProcessDeallocateQueue_run w :
  ProcessDeallocateQueue w =
    let w1 := after_interference w in
    let q := txns_to_deallocate_ (gc_ w) in
    let gone := filter (λ t, log_processed_ t = true) q in
    if NewerThan (oldest_answer w) (last_unlinked_ (gc_ w)) then
      (Val (Nat.iter (length gone) uint32_incr 0),
       mkWorld (set_txns_to_deallocate (rev (filter (λ t, log_processed_ t = false) q)) (gc_ w))
         (shared_ w1) (sched_ w1)
         (trace_ w ++ EvOldestTransactionStartTime (oldest_answer w) :: (EvDelete <$> gone)))
    else
      (Val 0, add_events [EvOldestTransactionStartTime (oldest_answer w)] w1).
Proof.
  unfold ProcessDeallocateQueue.
  rewrite run_bind, run_OldestTransactionStartTime. fold (oldest_answer w).
  cbv beta iota zeta.
  rewrite run_bind. unfold get_gc at 1. cbv beta iota. cbn [gc_ add_events].
  rewrite (after_interference_gc w).
  destruct (NewerThan _ _); [|done].
  rewrite run_bind, deallocate_loop_run. mred. unfold oldest_answer.
  by rewrite app_nil_r, <- app_assoc, after_interference_trace.
Qed.

(** ** The deferred actions *)

Lemma run_deferred_actions_run oldest q w :
  ∃ ready rest,
    q = ready ++ rest ∧
    Forall (λ a, a.1 <= oldest) ready ∧
    (∀ front, head rest = Some front → oldest < front.1) ∧
    run_deferred_actions oldest q w = (Val rest, add_events (EvInvoke ∘ snd <$> ready) w).
Proof.
  revert w. induction q as [|front q IH]; intros w.
  - exists [], []. split_and!; [done|constructor|done|]. simpl. by rewrite add_events_nil.
  - simpl. destruct (front.1 <=? oldest) eqn:Hle.
    + destruct (IH (add_events [EvInvoke front.2] w)) as (ready & rest & -> & Hready & Hrest & Hrun).
      exists (front :: ready), rest. split_and!; [done| |done|].
      * constructor; [by apply Z.leb_le|done].
      * rewrite run_bind, run_log, Hrun. by rewrite add_events_app.
    + exists [], (front :: q). split_and!; [done|constructor| |].
      * intros ? [= <-]. by apply Z.leb_gt.
      * simpl. by rewrite add_events_nil.
Qed.

Lemma ProcessDeferredActions_spec w :
  ∃ w' new_actions oldest ready rest,
    ProcessDeferredActions w = (Val (), w') ∧
    trace_ w' = trace_ w ++
      EvDeferredActionsForGC new_actions :: EvOldestTransactionStartTime oldest ::
      (EvInvoke ∘ snd <$> ready) ∧
    gc_ w' = set_deferred_actions rest (gc_ w) ∧
    deferred_actions_ (gc_ w) ++ new_actions = ready ++ rest ∧
    Forall (λ a, a.1 <= oldest) ready ∧
    (∀ front, head rest = Some front → oldest < front.1).
Proof.
  unfold ProcessDeferredActions, DeferredActionsForGC.
  set (w1 := after_interference w).
  set (new_actions := tm_deferred_actions_ (txn_manager_ (shared_ w1))).
  set (g1 := set_deferred_actions (deferred_actions_ (gc_ w) ++ new_actions) (gc_ w)).
  set (w2 := mkWorld g1
         (mkShared (mkTransactionManager (oldest_start_time_ (txn_manager_ (shared_ w1)))
                      (time_ (txn_manager_ (shared_ w1)))
                      (completed_txns_ (txn_manager_ (shared_ w1))) [])
            (store_ (shared_ w1)))
         (sched_ w1) (trace_ w ++ [EvDeferredActionsForGC new_actions])).
  destruct (run_deferred_actions_run (oldest_answer w2) (deferred_actions_ g1)
              (add_events [EvOldestTransactionStartTime (oldest_answer w2)]
                 (after_interference w2)))
    as (ready & rest & Hsplit & Hready & Hrest & Hrun).
  assert (Hg1 : gc_ w1 = gc_ w) by apply after_interference_gc.
  assert (Ht1 : trace_ w1 = trace_ w) by apply after_interference_trace.
  eexists _, new_actions, (oldest_answer w2), ready, rest.
  split_and!; [| | |exact Hsplit|exact Hready|exact Hrest].
  - rewrite !run_bind, run_interfere. fold w1. mred.
    rewrite Hg1, Ht1. fold new_actions g1 w2.
    rewrite run_OldestTransactionStartTime. fold (oldest_answer w2). cbv zeta.
    cbn [gc_ add_events]. rewrite after_interference_gc.
    change (gc_ w2) with g1. fold (oldest_answer w2).
    rewrite Hrun. reflexivity.
  - cbn. rewrite after_interference_trace. cbn. by rewrite <- !app_assoc.
  - cbn. by destruct (gc_ w).
Qed.

(** C6 (as stated) fails: the pending actions are kept in a [std::queue] and
    the loop stops at the first one that is not yet due.  With [(10, a0)]
    ahead of [(3, a1)] and an oldest running transaction started at 5,
    nothing is invoked although [a1] is pending with a timestamp below 5. *)
Lemma C6_counterexample :
  let w := Examples.out_of_order_actions in
  let w' := (ProcessDeferredActions w).2 in
  deferred_actions_ (gc_ w) = [(10, 0%nat); (3, 1%nat)] ∧
  oldest_answers (trace_ w') = [5] ∧
  invoked_actions (trace_ w') = [] ∧
  deferred_actions_ (gc_ w') = [(10, 0%nat); (3, 1%nat)].
Proof. vm_compute. done. Qed.

(** C6 (amended): the deferred-actions phase appends the actions handed
    over by the transaction manager to the pending ones and then pops and
    invokes, in queue order, the longest prefix of that queue whose
    timestamps are at most the oldest running begin-timestamp; it stops at
    the first action with a larger timestamp, which stays pending with
    everything behind it.  No action with a larger timestamp is invoked, and
    when the queue is in non-decreasing timestamp order every pending action
    with a timestamp at most the oldest running one is invoked. *)
Theorem C6_deferred_actions_prefix (w : World) :
  ∃ w' new_actions oldest ready rest,
    ProcessDeferredActions w = (Val (), w') ∧
    trace_ w' = trace_ w ++
      EvDeferredActionsForGC new_actions :: EvOldestTransactionStartTime oldest ::
      (EvInvoke ∘ snd <$> ready) ∧
    deferred_actions_ (gc_ w) ++ new_actions = ready ++ rest ∧
    deferred_actions_ (gc_ w') = rest ∧
    Forall (λ a, a.1 <= oldest) ready ∧
    (∀ front, head rest = Some front → oldest < front.1) ∧
    (StronglySorted (λ a b, a.1 <= b.1) (deferred_actions_ (gc_ w) ++ new_actions) →
     ∀ a, a ∈ deferred_actions_ (gc_ w) ++ new_actions → a.1 <= oldest → a ∈ ready).
Proof.
  destruct (ProcessDeferredActions_spec w)
    as (w' & new_actions & oldest & ready & rest & Hrun & Htr & Hgc & Hsplit & Hready & Hrest).
  exists w', new_actions, oldest, ready, rest.
  split_and!; [done|done|done|by rewrite Hgc|done|done|].
  rewrite Hsplit. intros Hsorted a Ha Hle.
  apply elem_of_app in Ha as [Ha|Ha]; [done|].
  destruct rest as [|front rest']; [by apply elem_of_nil in Ha|].
  specialize (Hrest front eq_refl).
  apply StronglySorted_app_1_r in Hsorted.
  apply StronglySorted_inv in Hsorted as [_ Hall].
  apply elem_of_cons in Ha as [->|Ha]; [lia|].
  rewrite Forall_forall in Hall. specialize (Hall a Ha). lia.
Qed.

Lemma C6_deferred_actions_prefix_witness :
  StronglySorted (λ a b : Z * nat, a.1 <= b.1) [(2, 0%nat); (3, 1%nat); (9, 2%nat); (12, 3%nat)] ∧
  ∃ w' ready,
    ProcessDeferredActions Examples.ordered_actions = (Val (), w') ∧
    (3, 1%nat) ∈ ready ∧
    invoked_actions (trace_ w') = ready.*2.
Proof.
  assert (Hsorted : StronglySorted (λ a b : Z * nat, a.1 <= b.1)
                      [(2, 0%nat); (3, 1%nat); (9, 2%nat); (12, 3%nat)]).
  { repeat (constructor; [|repeat constructor; simpl; lia]). constructor. }
  split; [exact Hsorted|].
  destruct (C6_deferred_actions_prefix Examples.ordered_actions)
    as (w' & new_actions & oldest & ready & rest & Hrun & Htr & Hsplit & Hgc & Hready & Hrest & Hall).
  exists w', ready. split; [exact Hrun|].
  assert (Hw' : w' = (ProcessDeferredActions Examples.ordered_actions).2) by (by rewrite Hrun).
  vm_compute in Hw'.
  assert (Htr' := Htr). rewrite Hw' in Htr'. cbn in Htr'.
  injection Htr' as Hnew Holdest Hinv. subst new_actions oldest.
  split.
  - apply Hall; [exact Hsorted|set_solver|simpl; lia].
  - rewrite Htr. cbn. clear. induction ready as [|a ready IH]; [done|]. cbn. by f_equal.
Defined.

(** ** Version-chain truncation *)

Lemma bind_inv {A B} (m : M A) (f : A → M B) w o w' :
  (m ≫= f) w = (o, w') →
  (∃ a w1, m w = (Val a, w1) ∧ f a w1 = (o, w')) ∨
  (∃ k, m w = (Fault k, w') ∧ o = Fault k) ∨
  (m w = (OutOfFuel, w') ∧ o = OutOfFuel).
Proof.
  rewrite run_bind. destruct (m w) as [[a|k|] w1]; intros H.
  - left. by exists a, w1.
  - right; left. exists k. by simplify_eq.
  - right; right. by simplify_eq.
Qed.

(** Case analysis on the run of the first action of a sequence. *)
Ltac mcase m w :=
  let a := fresh "a" in let k := fresh "k" in let w1 := fresh "w" in let E := fresh "Hrun" in
  rewrite ?run_bind; destruct (m w) as [[a|k|] w1] eqn:E.

Lemma TruncateVersionChain_unfold fuel table slot oldest w :
  TruncateVersionChain (S fuel) table slot oldest w =
    match truncate_pass fuel table slot oldest w with
    | (Val Restart, w1) => TruncateVersionChain fuel table slot oldest w1
    | (Val Return, w1) => (Val (), w1)
    | (Fault k, w1) => (Fault k, w1)
    | (OutOfFuel, w1) => (OutOfFuel, w1)
    end.
Proof.
  unfold truncate_pass. cbn [TruncateVersionChain].
  mcase (AtomicallyReadVersionPtr slot) w; [|done|done].
  destruct a as [vp|]; [|done].
  mcase (load_Timestamp vp) w0; [|done|done].
  destruct (NewerThan oldest a).
  { mcase (CompareAndSwapVersionPtr slot (Some vp) None) w1; [|done|done]. by destruct a0. }
  mcase (traverse fuel oldest vp) w1; [|done|done].
  destruct a0 as [curr|]; [|done].
  mcase (store_Next curr None) w2; [|done|done].
  destruct (bool_decide (curr = vp)); [|done].
  mcase (load_Timestamp vp) w3; [|done|done].
  destruct (negb (Committed a1)); [|done].
  mcase (AtomicallyReadVersionPtr slot) w4; [|done|done].
  by destruct (bool_decide _).
Qed.

Lemma run_AtomicallyReadVersionPtr slot w :
  AtomicallyReadVersionPtr slot w =
    let w1 := after_interference w in
    let r := version_ptr_ (store_ (shared_ w1)) !! slot in
    (Val r, add_events [EvReadVersionPtr slot r] w1).
Proof. unfold AtomicallyReadVersionPtr. rewrite run_bind, run_interfere. reflexivity. Qed.

Lemma run_CompareAndSwapVersionPtr slot expected desired w :
  CompareAndSwapVersionPtr slot expected desired w =
    let w1 := after_interference w in
    let s := store_ (shared_ w1) in
    if bool_decide (version_ptr_ s !! slot = expected) then
      (Val true,
       mkWorld (gc_ w1) (mkShared (txn_manager_ (shared_ w1)) (write_version_ptr slot desired s))
         (sched_ w1)
         (trace_ w1 ++ [EvCompareAndSwapVersionPtr slot expected desired true]))
    else
      (Val false, add_events [EvCompareAndSwapVersionPtr slot expected desired false] w1).
Proof.
  unfold CompareAndSwapVersionPtr. rewrite run_bind, run_interfere. mred.
  by destruct (bool_decide _).
Qed.

Lemma run_load_Timestamp p w :
  load_Timestamp p w =
    let w1 := after_interference w in
    match undo_ (store_ (shared_ w1)) !! p with
    | Some r => (Val (Timestamp r), add_events [EvLoadTimestamp p (Timestamp r)] w1)
    | None => (Fault (DanglingUndo p), w1)
    end.
Proof.
  unfold load_Timestamp, deref_undo. rewrite run_bind, run_interfere. mred.
  by destruct (_ !! p).
Qed.

Lemma run_load_Next p w :
  load_Next p w =
    let w1 := after_interference w in
    match undo_ (store_ (shared_ w1)) !! p with
    | Some r => (Val (Next r), add_events [EvLoadNext p (Next r)] w1)
    | None => (Fault (DanglingUndo p), w1)
    end.
Proof.
  unfold load_Next, deref_undo. rewrite run_bind, run_interfere. mred.
  by destruct (_ !! p).
Qed.

Lemma run_store_Next p v w :
  store_Next p v w =
    let s := store_ (shared_ w) in
    match undo_ s !! p with
    | Some r =>
        (Val (),
         mkWorld (gc_ w)
           (mkShared (txn_manager_ (shared_ w))
              (mkStore (version_ptr_ s) (<[p := set_Next r v]> (undo_ s)) (attrs_ s)))
           (sched_ w) (trace_ w ++ [EvStoreNext p v]))
    | None => (Fault (DanglingUndo p), w)
    end.
Proof. unfold store_Next, deref_undo. mred. by destruct (_ !! p). Qed.

(** The traversal only loads: it leaves the collector and the trace prefix
    alone, and the node it stops at was reached by loading [Next] fields. *)
Lemma traverse_events fuel oldest curr w o w' :
  traverse fuel oldest curr w = (o, w') →
  gc_ w' = gc_ w ∧
  ∃ evs, trace_ w' = trace_ w ++ evs ∧
         Forall (λ e, is_load e = true) evs ∧
         (o = Val None → ∃ p, last evs = Some (EvLoadNext p None)) ∧
         ∀ c, o = Val (Some c) →
              (c = curr ∨ ∃ q, EvLoadNext q (Some c) ∈ evs) ∧
              ∃ tsn, last evs = Some (EvLoadTimestamp tsn.1 tsn.2) ∧ NewerThan oldest tsn.2 = true.
Proof.
  revert curr w. induction fuel as [|fuel IH]; intros curr w Hrun.
  { injection Hrun as <- <-. split; [done|]. exists []. by rewrite app_nil_r. }
  cbn [traverse] in Hrun. rewrite run_bind, run_load_Next in Hrun. cbv zeta in Hrun.
  pose proof (after_interference_gc w) as Hg. pose proof (after_interference_trace w) as Ht.
  destruct (undo_ _ !! curr) as [r|].
  2:{ injection Hrun as <- <-. split; [done|]. exists []. by rewrite app_nil_r, Ht. }
  destruct (Next r) as [n|] eqn:Hn.
  2:{ injection Hrun as <- <-. split; [done|]. exists [EvLoadNext curr None].
      cbn. rewrite Ht. split_and!; [done|by repeat constructor|by exists curr|done]. }
  rewrite run_bind, run_load_Timestamp in Hrun. cbv zeta in Hrun.
  set (w1 := add_events _ _) in Hrun.
  assert (Hg1 : gc_ (after_interference w1) = gc_ w) by (by rewrite after_interference_gc).
  assert (Ht1 : trace_ (after_interference w1) = trace_ w ++ [EvLoadNext curr (Some n)]).
  { rewrite after_interference_trace. cbn. by rewrite Ht. }
  destruct (undo_ _ !! n) as [rn|].
  2:{ injection Hrun as <- <-. split; [done|]. exists [EvLoadNext curr (Some n)].
      split_and!; [done|by repeat constructor|done|done]. }
  destruct (NewerThan oldest (Timestamp rn)) eqn:Hnew.
  - injection Hrun as <- <-. split; [done|].
    exists [EvLoadNext curr (Some n); EvLoadTimestamp n (Timestamp rn)].
    cbn. rewrite Ht1, <- app_assoc. split_and!; [done|by repeat constructor|done|].
    intros c [= <-]. split; [by left|]. by exists (n, Timestamp rn).
  - apply IH in Hrun as (Hg2 & evs & Ht2 & Hloads & Hnone & Hc).
    split; [by rewrite Hg2|].
    exists (EvLoadNext curr (Some n) :: EvLoadTimestamp n (Timestamp rn) :: evs).
    split_and!.
    + rewrite Ht2. cbn. rewrite Ht1. by rewrite <- !app_assoc.
    + by repeat constructor.
    + intros Ho. destruct (Hnone Ho) as [p Hp]. exists p.
      destruct evs; [done|]. by rewrite !last_cons_cons.
    + intros c Ho. destruct (Hc c Ho) as [[->|[q Hq]] (tsn & Hlast & Htsn)].
      * split; [right; exists curr; apply list_elem_of_here|].
        exists tsn. split; [|done]. destruct evs; [done|]. by rewrite !last_cons_cons.
      * split; [right; exists q; by do 2 apply list_elem_of_further|].
        exists tsn. split; [|done]. destruct evs; [done|]. by rewrite !last_cons_cons.
Qed.

(** C3 (as stated) fails: the head of slot 100 is uncommitted and is replaced
    while the collector traverses the chain, but the collector cuts the chain
    behind the second record, not behind the head, and returns without
    reading the head again. *)
Lemma C3_counterexample :
  let w := Examples.head_aborts_during_traversal in
  let res := TruncateVersionChain 10 Examples.a_table 100 15 w in
  res.1 = Val () ∧
  trace_ res.2 =
    [EvReadVersionPtr 100 (Some 1%positive);
     EvLoadTimestamp 1 Examples.running_ts;
     EvLoadNext 1 (Some 2%positive); EvLoadTimestamp 2 20;
     EvLoadNext 2 (Some 3%positive); EvLoadTimestamp 3 10;
     EvStoreNext 2 None] ∧
  Committed Examples.running_ts = false ∧
  version_ptr_ (store_ (shared_ res.2)) !! 100 = Some 2%positive ∧
  (truncate_pass 9 Examples.a_table 100 15 w).1 = Val Return.
Proof. vm_compute. done. Qed.

(** C3 (amended): a call of [TruncateVersionChain] executes its body once and
    calls itself again exactly when that execution ends in a restart, which
    happens in two cases only: the compare-and-swap of the head to null
    failed; or the traversal stored null into the next pointer of the
    original head itself, the timestamp of that head, read again, is
    uncommitted, and the head pointer, read again, is no longer that head.
    In every other case (empty chain, successful swap, end of the chain
    reached, chain cut behind a later record, head committed, head
    unchanged) it returns; when the chain is cut behind a later record the
    head is not read again.  No execution reports a conflict: the result is
    [()] or the result of the restarted call. *)
Theorem C3_restart_cases (fuel : nat) (table : DataTable) (slot : TupleSlot)
    (oldest : timestamp_t) (w : World) :
  TruncateVersionChain (S fuel) table slot oldest w =
    match truncate_pass fuel table slot oldest w with
    | (Val Restart, w1) => TruncateVersionChain fuel table slot oldest w1
    | (Val Return, w1) => (Val (), w1)
    | (Fault k, w1) => (Fault k, w1)
    | (OutOfFuel, w1) => (OutOfFuel, w1)
    end
  ∧
  ∀ e w', truncate_pass fuel table slot oldest w = (Val e, w') →
    ∃ evs, trace_ w' = trace_ w ++ evs ∧
    match e with
    | Restart =>
        (∃ vp ts, NewerThan oldest ts = true ∧
           evs = [EvReadVersionPtr slot (Some vp); EvLoadTimestamp vp ts;
                  EvCompareAndSwapVersionPtr slot (Some vp) None false])
        ∨
        (∃ vp ts loads ts' head,
           NewerThan oldest ts = false ∧ Forall (λ e, is_load e = true) loads ∧
           Committed ts' = false ∧ head ≠ Some vp ∧
           evs = [EvReadVersionPtr slot (Some vp); EvLoadTimestamp vp ts] ++ loads ++
                 [EvStoreNext vp None; EvLoadTimestamp vp ts'; EvReadVersionPtr slot head])
    | Return =>
        evs = [EvReadVersionPtr slot None]
        ∨
        (∃ vp ts, NewerThan oldest ts = true ∧
           evs = [EvReadVersionPtr slot (Some vp); EvLoadTimestamp vp ts;
                  EvCompareAndSwapVersionPtr slot (Some vp) None true])
        ∨
        (∃ vp ts loads p,
           NewerThan oldest ts = false ∧ Forall (λ e, is_load e = true) loads ∧
           last loads = Some (EvLoadNext p None) ∧
           evs = [EvReadVersionPtr slot (Some vp); EvLoadTimestamp vp ts] ++ loads)
        ∨
        (∃ vp ts loads curr,
           NewerThan oldest ts = false ∧ Forall (λ e, is_load e = true) loads ∧
           curr ≠ vp ∧
           evs = [EvReadVersionPtr slot (Some vp); EvLoadTimestamp vp ts] ++ loads ++
                 [EvStoreNext curr None])
        ∨
        (∃ vp ts loads ts',
           NewerThan oldest ts = false ∧ Forall (λ e, is_load e = true) loads ∧
           Committed ts' = true ∧
           evs = [EvReadVersionPtr slot (Some vp); EvLoadTimestamp vp ts] ++ loads ++
                 [EvStoreNext vp None; EvLoadTimestamp vp ts'])
        ∨
        (∃ vp ts loads ts',
           NewerThan oldest ts = false ∧ Forall (λ e, is_load e = true) loads ∧
           Committed ts' = false ∧
           evs = [EvReadVersionPtr slot (Some vp); EvLoadTimestamp vp ts] ++ loads ++
                 [EvStoreNext vp None; EvLoadTimestamp vp ts'; EvReadVersionPtr slot (Some vp)])
    end.
Proof.
  split; [apply TruncateVersionChain_unfold|].
  intros e w' Hrun. unfold truncate_pass in Hrun.
  rewrite run_bind, run_AtomicallyReadVersionPtr in Hrun. cbv beta iota zeta in Hrun.
  pose proof (after_interference_trace w) as Ht0.
  set (w0 := after_interference w) in *.
  destruct (version_ptr_ (store_ (shared_ w0)) !! slot) as [vp|].
  2:{ injection Hrun as <- <-. exists [EvReadVersionPtr slot None]. cbn. rewrite Ht0. by split; [|left]. }
  rewrite run_bind, run_load_Timestamp in Hrun. cbv beta iota zeta in Hrun.
  set (w1 := add_events _ w0) in *.
  pose proof (after_interference_trace w1) as Ht1. cbn in Ht1. rewrite Ht0 in Ht1.
  set (w1' := after_interference w1) in *.
  destruct (undo_ (store_ (shared_ w1')) !! vp) as [r|]; [|done].
  set (ts := Timestamp r) in *.
  set (w2 := add_events _ w1') in *.
  assert (Ht2 : trace_ w2 = trace_ w ++ [EvReadVersionPtr slot (Some vp); EvLoadTimestamp vp ts]).
  { cbn. rewrite Ht1. by rewrite <- app_assoc. }
  clearbody w2. clear Ht1 w1' w1 Ht0 w0.
  destruct (NewerThan oldest ts) eqn:Hnew.
  { rewrite run_bind, run_CompareAndSwapVersionPtr in Hrun. cbv beta iota zeta in Hrun.
    pose proof (after_interference_trace w2) as Ht3. rewrite Ht2 in Ht3.
    destruct (bool_decide _); mstep_in Hrun; injection Hrun as <- <-; eexists; cbn;
      rewrite Ht3, <- app_assoc; (split; [done|]).
    - right; left. by exists vp, ts.
    - left. by exists vp, ts. }
  rewrite run_bind in Hrun.
  destruct (traverse fuel oldest vp w2) as [[found| |] w3] eqn:Htrav; [|done|done].
  apply traverse_events in Htrav as (_ & loads & Ht3 & Hloads & Hnone & Hsome).
  rewrite Ht2, <- app_assoc in Ht3.
  destruct found as [curr|].
  2:{ injection Hrun as <- <-. destruct (Hnone eq_refl) as [p Hp].
      eexists. split; [exact Ht3|]. right; right; left. by exists vp, ts, loads, p. }
  clear Hnone Hsome.
  rewrite run_bind, run_store_Next in Hrun. cbv beta iota zeta in Hrun.
  destruct (undo_ (store_ (shared_ w3)) !! curr) as [rc|]; [|done].
  set (w4 := mkWorld _ _ _ _) in Hrun.
  assert (Ht4 : trace_ w4 = trace_ w ++
            [EvReadVersionPtr slot (Some vp); EvLoadTimestamp vp ts] ++ loads ++
            [EvStoreNext curr None]).
  { cbn. rewrite Ht3. by rewrite <- !app_assoc. }
  clearbody w4. clear Ht3 w3 Ht2 w2.
  destruct (bool_decide (curr = vp)) eqn:Hcurr.
  2:{ injection Hrun as <- <-. apply bool_decide_eq_false in Hcurr.
      eexists. split; [exact Ht4|]. do 3 right; left. by exists vp, ts, loads, curr. }
  apply bool_decide_eq_true in Hcurr as ->.
  rewrite run_bind, run_load_Timestamp in Hrun. cbv beta iota zeta in Hrun.
  pose proof (after_interference_trace w4) as Ht5. rewrite Ht4 in Ht5.
  set (w5 := after_interference w4) in *.
  destruct (undo_ (store_ (shared_ w5)) !! vp) as [r'|]; [|done].
  set (ts' := Timestamp r') in *.
  destruct (Committed ts') eqn:Hcommitted; cbn [negb] in Hrun.
  { injection Hrun as <- <-. eexists. split.
    - cbn. rewrite Ht5. rewrite <- !app_assoc. cbn. reflexivity.
    - do 4 right; left. by exists vp, ts, loads, ts'. }
  rewrite run_bind, run_AtomicallyReadVersionPtr in Hrun. cbv beta iota zeta in Hrun.
  set (w6 := add_events _ w5) in *.
  pose proof (after_interference_trace w6) as Ht6. cbn in Ht6. rewrite Ht5 in Ht6.
  set (w6' := after_interference w6) in *.
  set (head := version_ptr_ (store_ (shared_ w6')) !! slot) in *.
  case_bool_decide as Hhead; mstep_in Hrun; injection Hrun as <- <-.
  - eexists. split.
    + cbn. rewrite Ht6. rewrite <- !app_assoc. cbn. reflexivity.
    + right. by exists vp, ts, loads, ts', head.
  - eexists. split.
    + cbn. rewrite Ht6. rewrite <- !app_assoc. cbn. reflexivity.
    + do 5 right. rewrite Hhead. by exists vp, ts, loads, ts'.
Qed.

Lemma C3_restart_cases_witness :
  ∃ w' evs,
    truncate_pass 9 Examples.a_table 100 15 Examples.head_aborts_before_recheck = (Val Restart, w') ∧
    trace_ w' = trace_ Examples.head_aborts_before_recheck ++ evs ∧
    last evs = Some (EvReadVersionPtr 100 (Some 2%positive)).
Proof.
  set (w := Examples.head_aborts_before_recheck).
  assert (Hrun : truncate_pass 9 Examples.a_table 100 15 w
                 = (Val Restart, (truncate_pass 9 Examples.a_table 100 15 w).2))
    by (vm_compute; reflexivity).
  destruct (proj2 (C3_restart_cases 9 Examples.a_table 100 15 w) Restart _ Hrun)
    as (evs & Htrace & Hcases).
  eexists _, evs. split; [exact Hrun|]. split; [exact Htrace|].
  assert (Hevs : trace_ (truncate_pass 9 Examples.a_table 100 15 w).2 = [] ++ evs) by exact Htrace.
  vm_compute in Hevs. by rewrite <- Hevs.
Defined.

(** In a quiet world the traversal changes nothing but the trace, and the
    node it stops at is on the chain. *)
Lemma traverse_quiet fuel oldest curr w o w' :
  sched_ w = [] →
  traverse fuel oldest curr w = (o, w') →
  gc_ w' = gc_ w ∧ shared_ w' = shared_ w ∧ sched_ w' = [] ∧
  ∀ c, o = Val (Some c) →
       chain_reaches (store_ (shared_ w)) curr c ∧ is_Some (undo_ (store_ (shared_ w)) !! c).
Proof.
  revert curr w. induction fuel as [|fuel IH]; intros curr w Hq Hrun.
  { by injection Hrun as <- <-. }
  cbn [traverse] in Hrun. rewrite run_bind, run_load_Next in Hrun.
  rewrite after_interference_quiet in Hrun by done. cbv beta iota zeta in Hrun.
  destruct (undo_ _ !! curr) as [r|] eqn:Hr; [|by injection Hrun as <- <-].
  cbv beta iota zeta in Hrun.
  destruct (Next r) as [n|] eqn:Hn; [|by injection Hrun as <- <-].
  rewrite run_bind, run_load_Timestamp in Hrun.
  rewrite after_interference_quiet in Hrun by done. cbv beta iota zeta in Hrun.
  cbn [shared_ add_events] in Hrun.
  destruct (undo_ _ !! n) as [rn|] eqn:Hrn; [|by injection Hrun as <- <-].
  cbv beta iota zeta in Hrun.
  destruct (NewerThan oldest (Timestamp rn)).
  - injection Hrun as <- <-. split_and!; [done..|].
    intros c [= <-]. split; [constructor|by exists r].
  - apply IH in Hrun as (Hg & Hs & Hq' & Hc); [|done].
    split_and!; [done..|]. intros c Ho. destruct (Hc c Ho) as [Hreach Hsome].
    split; [|done]. by eapply chain_next.
Qed.

Lemma truncate_quiet_frame fuel table slot oldest w vp r o w' :
  sched_ w = [] →
  version_ptr_ (store_ (shared_ w)) !! slot = Some vp →
  undo_ (store_ (shared_ w)) !! vp = Some r →
  NewerThan oldest (Timestamp r) = false →
  TruncateVersionChain (S fuel) table slot oldest w = (o, w') →
  let s := store_ (shared_ w) in
  let s' := store_ (shared_ w') in
  gc_ w' = gc_ w ∧ txn_manager_ (shared_ w') = txn_manager_ (shared_ w) ∧
  version_ptr_ s' = version_ptr_ s ∧ attrs_ s' = attrs_ s ∧
  (undo_ s' = undo_ s ∨
   ∃ p rp, chain_reaches s vp p ∧ undo_ s !! p = Some rp ∧
           undo_ s' = <[p := set_Next rp None]> (undo_ s)).
Proof.
  intros Hq Hhead Hr Hnew Hrun. cbn [TruncateVersionChain] in Hrun.
  rewrite run_bind, run_AtomicallyReadVersionPtr in Hrun.
  rewrite after_interference_quiet in Hrun by done. cbv beta iota zeta in Hrun.
  rewrite Hhead in Hrun. cbv beta iota zeta in Hrun.
  rewrite run_bind, run_load_Timestamp in Hrun.
  rewrite after_interference_quiet in Hrun by done. cbv beta iota zeta in Hrun.
  cbn [shared_ add_events] in Hrun. rewrite Hr in Hrun. cbv beta iota zeta in Hrun.
  rewrite Hnew in Hrun. rewrite run_bind in Hrun.
  set (w2 := add_events _ (add_events _ w)) in Hrun.
  destruct (traverse fuel oldest vp w2) as [[found| |] w3] eqn:Htrav.
  2,3: apply traverse_quiet in Htrav as (Hg & Hs & _); [|done];
       injection Hrun as <- <-; cbv zeta; rewrite Hs, Hg; by split_and!; [..|left].
  apply traverse_quiet in Htrav as (Hg & Hs & Hq3 & Hc); [|done].
  destruct found as [curr|].
  2:{ mstep_in Hrun. injection Hrun as <- <-. cbv zeta. rewrite Hs, Hg. by split_and!; [..|left]. }
  destruct (Hc curr eq_refl) as [Hreach [rc Hrc]]. cbn [shared_ w2 add_events] in Hreach, Hrc.
  cbv beta iota zeta in Hrun. rewrite run_bind, run_store_Next in Hrun.
  rewrite Hs in Hrun. cbn [shared_ w2 add_events] in Hrun. rewrite Hrc in Hrun.
  cbv beta iota zeta in Hrun.
  set (w4 := mkWorld _ _ _ _) in Hrun.
  assert (Hframe :
    gc_ w4 = gc_ w ∧ txn_manager_ (shared_ w4) = txn_manager_ (shared_ w) ∧
    version_ptr_ (store_ (shared_ w4)) = version_ptr_ (store_ (shared_ w)) ∧
    attrs_ (store_ (shared_ w4)) = attrs_ (store_ (shared_ w)) ∧
    (undo_ (store_ (shared_ w4)) = undo_ (store_ (shared_ w)) ∨
     ∃ p rp, chain_reaches (store_ (shared_ w)) vp p ∧ undo_ (store_ (shared_ w)) !! p = Some rp ∧
             undo_ (store_ (shared_ w4)) = <[p := set_Next rp None]> (undo_ (store_ (shared_ w))))).
  { cbn. rewrite Hg. split_and!; [done..|]. right. by exists curr, rc. }
  assert (Hq4 : sched_ w4 = []) by done.
  assert (Hhead4 : version_ptr_ (store_ (shared_ w4)) !! slot = Some vp) by done.
  clearbody w4.
  case_bool_decide as Hcurr; [|mstep_in Hrun; by injection Hrun as <- <-].
  rewrite run_bind, run_load_Timestamp in Hrun.
  rewrite after_interference_quiet in Hrun by done. cbv beta iota zeta in Hrun.
  destruct (undo_ (store_ (shared_ w4)) !! vp) as [r'|]; [|by injection Hrun as <- <-].
  cbv beta iota zeta in Hrun.
  destruct (Committed (Timestamp r')); cbn [negb] in Hrun;
    [mstep_in Hrun; by injection Hrun as <- <-|].
  rewrite run_bind, run_AtomicallyReadVersionPtr in Hrun.
  rewrite after_interference_quiet in Hrun by done. cbv beta iota zeta in Hrun.
  cbn [shared_ add_events] in Hrun. rewrite Hhead4 in Hrun.
  rewrite bool_decide_false in Hrun by (by intros []).
  mstep_in Hrun. by injection Hrun as <- <-.
Qed.

Lemma loads_are_not_writes (evs : list Event) :
  Forall (λ e, is_load e = true) evs → filter (λ e, is_write e = true) evs = [].
Proof.
  induction 1 as [|e evs He _ IH]; [done|].
  rewrite filter_cons_False; [done|]. by destruct e.
Qed.

Lemma truncate_pass_writes fuel table slot oldest w o w' vp ts evs :
  truncate_pass fuel table slot oldest w = (o, w') →
  trace_ w' = trace_ w ++ EvReadVersionPtr slot (Some vp) :: EvLoadTimestamp vp ts :: evs →
  NewerThan oldest ts = false →
  filter (λ e, is_write e = true) evs = [] ∨
  ∃ p, filter (λ e, is_write e = true) evs = [EvStoreNext p None] ∧
       (p = vp ∨ ∃ q, EvLoadNext q (Some p) ∈ evs).
Proof.
  intros Hrun Htrace Hnew. unfold truncate_pass in Hrun.
  rewrite run_bind, run_AtomicallyReadVersionPtr in Hrun. cbv beta iota zeta in Hrun.
  pose proof (after_interference_trace w) as Ht0.
  set (w0 := after_interference w) in *.
  destruct (version_ptr_ (store_ (shared_ w0)) !! slot) as [vp0|].
  2:{ mstep_in Hrun. injection Hrun as <- <-. cbn in Htrace. rewrite Ht0 in Htrace.
      by apply app_inv_head in Htrace. }
  cbv beta iota zeta in Hrun.
  rewrite run_bind, run_load_Timestamp in Hrun. cbv beta iota zeta in Hrun.
  set (w1 := add_events _ w0) in *.
  pose proof (after_interference_trace w1) as Ht1. cbn in Ht1. rewrite Ht0 in Ht1.
  set (w1' := after_interference w1) in *.
  destruct (undo_ (store_ (shared_ w1')) !! vp0) as [r|].
  2:{ injection Hrun as <- <-. rewrite Ht1 in Htrace. by apply app_inv_head in Htrace. }
  cbv beta iota zeta in Hrun.
  set (w2 := add_events _ w1') in *.
  assert (Ht2 : trace_ w2 = trace_ w ++
            [EvReadVersionPtr slot (Some vp0); EvLoadTimestamp vp0 (Timestamp r)]).
  { cbn. rewrite Ht1. by rewrite <- app_assoc. }
  clearbody w2. clear Ht1 w1' w1 Ht0 w0.
  assert (Hsame : ∀ w3 rest, trace_ w3 = trace_ w2 ++ rest → w3 = w' →
            vp0 = vp ∧ Timestamp r = ts ∧ evs = rest).
  { intros w3 rest Ht3 ->. rewrite Ht3, Ht2, <- app_assoc in Htrace.
    apply app_inv_head in Htrace. cbn in Htrace. by simplify_eq. }
  destruct (NewerThan oldest (Timestamp r)) eqn:Hnew0.
  { rewrite run_bind, run_CompareAndSwapVersionPtr in Hrun. cbv beta iota zeta in Hrun.
    pose proof (after_interference_trace w2) as Ht3.
    case_bool_decide; mstep_in Hrun; injection Hrun as <- Hw';
      (eapply Hsame in Hw' as (_ & <- & _); [congruence|cbn; by rewrite Ht3]). }
  rewrite run_bind in Hrun.
  destruct (traverse fuel oldest vp0 w2) as [[found| |] w3] eqn:Htrav.
  2,3: apply traverse_events in Htrav as (_ & loads & Ht3 & Hloads & _);
       injection Hrun as <- Hw'; eapply Hsame in Hw' as (_ & _ & ->); [|exact Ht3];
       left; by apply loads_are_not_writes.
  apply traverse_events in Htrav as (_ & loads & Ht3 & Hloads & _ & Hsome).
  destruct found as [curr|].
  2:{ mstep_in Hrun. injection Hrun as <- Hw'. eapply Hsame in Hw' as (_ & _ & ->); [|exact Ht3].
      left. by apply loads_are_not_writes. }
  destruct (Hsome curr eq_refl) as [Hcurr _]. clear Hsome.
  cbv beta iota zeta in Hrun. rewrite run_bind, run_store_Next in Hrun.
  cbv beta iota zeta in Hrun.
  destruct (undo_ (store_ (shared_ w3)) !! curr) as [rc|].
  2:{ injection Hrun as <- Hw'. eapply Hsame in Hw' as (_ & _ & ->); [|exact Ht3].
      left. by apply loads_are_not_writes. }
  cbv beta iota zeta in Hrun.
  set (w4 := mkWorld _ _ _ _) in Hrun.
  assert (Ht4 : trace_ w4 = trace_ w2 ++ loads ++ [EvStoreNext curr None]).
  { cbn. rewrite Ht3. by rewrite <- !app_assoc. }
  clearbody w4.
  assert (Hdone : ∀ w5 tail, trace_ w5 = trace_ w4 ++ tail → w5 = w' →
            Forall (λ e, is_write e = false) tail →
            ∃ p, filter (λ e, is_write e = true) evs = [EvStoreNext p None] ∧
                 (p = vp ∨ ∃ q, EvLoadNext q (Some p) ∈ evs)).
  { intros w5 tail Ht5 Hw' Htail.
    eapply Hsame in Hw' as (<- & _ & ->).
    2:{ rewrite Ht5, Ht4, <- !app_assoc. reflexivity. }
    exists curr. split.
    - rewrite !filter_app, loads_are_not_writes by done.
      rewrite filter_cons_True by done. rewrite filter_nil. cbn. f_equal.
      clear -Htail. induction Htail as [|e tail He _ IH]; [done|].
      rewrite filter_cons_False; [done|]. by rewrite He.
    - destruct Hcurr as [->|[q Hq]]; [by left|].
      right. exists q. apply elem_of_app. by left. }
  right.
  case_bool_decide as Heq.
  2:{ mstep_in Hrun. injection Hrun as <- Hw'. eapply (Hdone _ []); [|exact Hw'|constructor].
      by rewrite app_nil_r. }
  subst curr.
  rewrite run_bind, run_load_Timestamp in Hrun. cbv beta iota zeta in Hrun.
  pose proof (after_interference_trace w4) as Ht5.
  set (w5 := after_interference w4) in *.
  destruct (undo_ (store_ (shared_ w5)) !! vp0) as [r'|].
  2:{ injection Hrun as <- Hw'. eapply (Hdone _ []); [|exact Hw'|constructor].
      by rewrite app_nil_r. }
  cbv beta iota zeta in Hrun.
  destruct (Committed (Timestamp r')); cbn [negb] in Hrun.
  { mstep_in Hrun. injection Hrun as <- Hw'.
    eapply (Hdone _ [EvLoadTimestamp vp0 (Timestamp r')]);
      [|exact Hw'|by constructor]. cbn. by rewrite Ht5. }
  rewrite run_bind, run_AtomicallyReadVersionPtr in Hrun. cbv beta iota zeta in Hrun.
  set (w6 := add_events _ w5) in *.
  pose proof (after_interference_trace w6) as Ht6. cbn in Ht6. rewrite Ht5 in Ht6.
  case_bool_decide; mstep_in Hrun; injection Hrun as <- Hw';
    (eapply (Hdone _ [EvLoadTimestamp vp0 (Timestamp r'); EvReadVersionPtr slot _]);
       [|exact Hw'|by repeat constructor]);
    cbn; rewrite Ht6; by rewrite <- !app_assoc.
Qed.

(** C9: when [TruncateVersionChain] reads a non-null head whose timestamp is
    not older than [oldest], it does not write the version pointer of the
    slot.  With no other thread running, the call leaves the version
    pointers, the tuples, the transaction manager and the collector as they
    were, and the undo records are unchanged or differ in exactly one record
    of the chain, whose next pointer has become null.  With other threads
    running, the writes of one execution of the body are at most one store
    of null into the next pointer of a record that is the head or was
    reached by following next pointers, and never a compare-and-swap. *)
Theorem C9_truncation_keeps_head (fuel : nat) (table : DataTable) (slot : TupleSlot)
    (oldest : timestamp_t) :
  (∀ w vp r o w',
     sched_ w = [] →
     version_ptr_ (store_ (shared_ w)) !! slot = Some vp →
     undo_ (store_ (shared_ w)) !! vp = Some r →
     NewerThan oldest (Timestamp r) = false →
     TruncateVersionChain (S fuel) table slot oldest w = (o, w') →
     let s := store_ (shared_ w) in
     let s' := store_ (shared_ w') in
     gc_ w' = gc_ w ∧ txn_manager_ (shared_ w') = txn_manager_ (shared_ w) ∧
     version_ptr_ s' = version_ptr_ s ∧ attrs_ s' = attrs_ s ∧
     (undo_ s' = undo_ s ∨
      ∃ p rp, chain_reaches s vp p ∧ undo_ s !! p = Some rp ∧
              undo_ s' = <[p := set_Next rp None]> (undo_ s)))
  ∧
  (∀ w o w' vp ts evs,
     truncate_pass fuel table slot oldest w = (o, w') →
     trace_ w' = trace_ w ++ EvReadVersionPtr slot (Some vp) :: EvLoadTimestamp vp ts :: evs →
     NewerThan oldest ts = false →
     filter (λ e, is_write e = true) evs = [] ∨
     ∃ p, filter (λ e, is_write e = true) evs = [EvStoreNext p None] ∧
          (p = vp ∨ ∃ q, EvLoadNext q (Some p) ∈ evs)).
Proof.
  split.
  - intros w vp r o w'. apply truncate_quiet_frame.
  - intros w o w' vp ts evs. apply truncate_pass_writes.
Qed.

Lemma C9_truncation_keeps_head_witness :
  let w := Examples.quiet_chain in
  let res := TruncateVersionChain 10 Examples.a_table 100 15 w in
  (sched_ w = [] ∧
   version_ptr_ (store_ (shared_ w)) !! 100 = Some 1%positive ∧
   NewerThan 15 Examples.running_ts = false) ∧
  res.1 = Val () ∧
  version_ptr_ (store_ (shared_ res.2)) = version_ptr_ (store_ (shared_ w)) ∧
  (undo_ (store_ (shared_ res.2)) = undo_ (store_ (shared_ w)) ∨
   ∃ p rp, chain_reaches (store_ (shared_ w)) 1%positive p ∧
           undo_ (store_ (shared_ w)) !! p = Some rp ∧
           undo_ (store_ (shared_ res.2)) = <[p := set_Next rp None]> (undo_ (store_ (shared_ w)))).
Proof.
  intros w res.
  assert (Hq : sched_ w = []) by reflexivity.
  assert (Hhead : version_ptr_ (store_ (shared_ w)) !! 100 = Some 1%positive) by reflexivity.
  assert (Hr : undo_ (store_ (shared_ w)) !! 1%positive
               = Some (mkUndoRecord UPDATE Examples.running_ts (Some 2%positive)
                         (Some Examples.a_table) 100 Examples.no_delta))
    by (vm_compute; reflexivity).
  assert (Hnew : NewerThan 15 Examples.running_ts = false) by (vm_compute; reflexivity).
  split; [done|]. split; [vm_compute; reflexivity|].
  destruct (proj1 (C9_truncation_keeps_head 9 Examples.a_table 100 15)
              w 1%positive _ res.1 res.2 Hq Hhead Hr Hnew (surjective_pairing _))
    as (_ & _ & Hvp & _ & Hundo).
  split; [exact Hvp|exact Hundo].
Defined.

(** ** Varlen reclamation *)

Lemma add_loose_ptrs_nil txn : add_loose_ptrs txn [] = txn.
Proof. destruct txn. unfold add_loose_ptrs. cbn. by rewrite app_nil_r. Qed.

Lemma add_loose_ptrs_app txn ps qs :
  add_loose_ptrs (add_loose_ptrs txn ps) qs = add_loose_ptrs txn (ps ++ qs).
Proof. unfold add_loose_ptrs. cbn. by rewrite app_assoc. Qed.

Lemma reclaim_varlen_payload txn varlen :
  reclaim_varlen txn varlen = add_loose_ptrs txn (option_list (payload_to_move varlen)).
Proof.
  unfold reclaim_varlen, payload_to_move. destruct varlen as [v|]; cbn.
  - destruct (NeedReclaim v); cbn; [done|by rewrite add_loose_ptrs_nil].
  - by rewrite add_loose_ptrs_nil.
Qed.

Lemma reclaim_scan (is_varlen : nat → bool) (access : nat → option VarlenEntry) txn cols :
  foldl (λ txn i, if is_varlen i then reclaim_varlen txn (access i) else txn) txn cols =
    add_loose_ptrs txn
      (omap (λ i, payload_to_move (access i)) (filter (λ i, is_varlen i = true) cols)).
Proof.
  revert txn. induction cols as [|i cols IH]; intros txn; cbn [foldl].
  - by rewrite add_loose_ptrs_nil.
  - rewrite IH. destruct (is_varlen i) eqn:Hv.
    + rewrite filter_cons_True by done. cbn [omap list_omap].
      rewrite reclaim_varlen_payload, add_loose_ptrs_app.
      by destruct (payload_to_move (access i)).
    + by rewrite filter_cons_False by congruence.
Qed.

Lemma payload_to_move_Some varlen p :
  payload_to_move varlen = Some p ↔ ∃ v, varlen = Some v ∧ NeedReclaim v = true ∧ p = Content v.
Proof.
  unfold payload_to_move. destruct varlen as [v|]; cbn.
  - destruct (NeedReclaim v) eqn:Hn; split.
    + intros [= <-]. by exists v.
    + intros (v' & [= <-] & _ & ->). done.
    + done.
    + intros (v' & [= <-] & ? & _). congruence.
  - split; [done|]. by intros (v & ? & _).
Qed.

(** C8: [ReclaimBufferIfVarlen] appends to the loose pointers of the owning
    transaction exactly the payloads the specification names, in column
    order, and changes nothing else: none for an INSERT record; for a DELETE
    record those of the varlen columns of the base tuple; for an UPDATE
    record those of the varlen columns present in the delta; in each scanned
    column the payload is moved iff the attribute is non-null and needs
    reclamation. *)
Theorem C8_reclaim_buffer_if_varlen (txn : TransactionContext) (undo_record : UndoRecord)
    (table : DataTable) (w : World) :
  Table undo_record = Some table →
  let layout := GetBlockLayout (accessor_ table) in
  let s := store_ (shared_ w) in
  let moved := spec_payloads_to_move s layout undo_record in
  ReclaimBufferIfVarlen txn undo_record w = (Val (add_loose_ptrs txn moved), w) ∧
  ∀ p, p ∈ moved ↔
       match Type_ undo_record with
       | INSERT => False
       | DELETE =>
           ∃ col v, (col < NumColumns layout)%nat ∧ IsVarlen layout col = true ∧
                    AccessWithNullCheck s (Slot undo_record) col = Some v ∧
                    NeedReclaim v = true ∧ p = Content v
       | UPDATE =>
           ∃ i col v, ColumnIds (Delta undo_record) !! i = Some col ∧
                      IsVarlen layout col = true ∧
                      Delta_AccessWithNullCheck (Delta undo_record) i = Some v ∧
                      NeedReclaim v = true ∧ p = Content v
       end.
Proof.
  intros Htable layout s moved. subst moved. split.
  - unfold ReclaimBufferIfVarlen, spec_payloads_to_move. rewrite Htable. fold layout.
    destruct (Type_ undo_record).
    + rewrite run_ret. f_equal. f_equal.
      apply (reclaim_scan (λ i, IsVarlen layout (ColumnIds (Delta undo_record) !!! i))
               (Delta_AccessWithNullCheck (Delta undo_record))).
    + rewrite run_ret. by rewrite add_loose_ptrs_nil.
    + rewrite run_bind. unfold get_store at 1. cbv beta iota. fold s.
      rewrite run_ret. f_equal. f_equal.
      apply (reclaim_scan (IsVarlen layout) (AccessWithNullCheck s (Slot undo_record))).
  - intros p. unfold spec_payloads_to_move. destruct (Type_ undo_record).
    + rewrite list_elem_of_omap. split.
      * intros (i & [Hv Hi]%list_elem_of_filter & (v & Hacc & Hneed & ->)%payload_to_move_Some).
        apply elem_of_seq in Hi as [_ Hi]. cbn in Hi.
        apply lookup_lt_is_Some_2 in Hi as [col Hcol].
        exists i, col, v. split_and!; [done| |done..].
        by rewrite (list_lookup_total_correct _ _ _ Hcol) in Hv.
      * intros (i & col & v & Hcol & Hv & Hacc & Hneed & ->).
        exists i. split.
        -- apply list_elem_of_filter. split.
           ++ by rewrite (list_lookup_total_correct _ _ _ Hcol).
           ++ apply elem_of_seq. split; [lia|]. cbn. by eapply lookup_lt_Some.
        -- apply payload_to_move_Some. by exists v.
    + by rewrite elem_of_nil.
    + rewrite list_elem_of_omap. split.
      * intros (col & [Hv Hcol]%list_elem_of_filter & (v & Hacc & Hneed & ->)%payload_to_move_Some).
        apply elem_of_seq in Hcol as [_ Hcol]. cbn in Hcol.
        by exists col, v.
      * intros (col & v & Hcol & Hv & Hacc & Hneed & ->).
        exists col. split.
        -- apply list_elem_of_filter. split; [done|]. apply elem_of_seq. split; [lia|done].
        -- apply payload_to_move_Some. by exists v.
Qed.

Lemma C8_reclaim_buffer_if_varlen_witness :
  Table Examples.delete_record = Some Examples.wide_table ∧
  ReclaimBufferIfVarlen Examples.deleting_txn Examples.delete_record
      (Examples.quiet_world Examples.fresh_collector Examples.idle_manager
         Examples.deleted_tuple_store)
    = (Val (add_loose_ptrs Examples.deleting_txn [4096]),
       Examples.quiet_world Examples.fresh_collector Examples.idle_manager
         Examples.deleted_tuple_store).
Proof.
  split; [reflexivity|].
  exact (proj1 (C8_reclaim_buffer_if_varlen Examples.deleting_txn Examples.delete_record
                  Examples.wide_table _ eq_refl)).
Defined.

(** ** Version chains from outside *)

Lemma high_level_app evs1 evs2 : high_level (evs1 ++ evs2) = high_level evs1 ++ high_level evs2.
Proof. apply filter_app. Qed.

Lemma chain_only_ret {A} (a : A) : chain_only (mret a : M A).
Proof. intros w o w' [= <- <-]. split_and!; [done..|]. exists []. by rewrite app_nil_r. Qed.

Lemma chain_only_bind {A B} (m : M A) (f : A → M B) :
  chain_only m → (∀ a, chain_only (f a)) → chain_only (m ≫= f).
Proof.
  intros Hm Hf w o w' Hrun.
  apply bind_inv in Hrun as [(a & w1 & Hm1 & Hf1)|[(k & Hm1 & ->)|[Hm1 ->]]].
  - destruct (Hm _ _ _ Hm1) as (Hg1 & _ & evs1 & Ht1 & Hh1).
    destruct (Hf a _ _ _ Hf1) as (Hg2 & Ho & evs2 & Ht2 & Hh2).
    split_and!; [congruence|done|]. exists (evs1 ++ evs2).
    rewrite Ht2, Ht1, <- app_assoc, high_level_app, Hh1, Hh2. done.
  - destruct (Hm _ _ _ Hm1) as (Hg1 & Hk & evs1 & Ht1 & Hh1).
    split_and!; [done|intros [= ->]; by apply Hk|eauto].
  - destruct (Hm _ _ _ Hm1) as (Hg1 & _ & evs1 & Ht1 & Hh1). split_and!; [done..|eauto].
Qed.

Lemma chain_only_AtomicallyReadVersionPtr slot : chain_only (AtomicallyReadVersionPtr slot).
Proof.
  intros w o w'. rewrite run_AtomicallyReadVersionPtr. intros [= <- <-]. cbn.
  rewrite after_interference_gc, after_interference_trace. split_and!; [done..|]. by eexists.
Qed.

Lemma chain_only_CompareAndSwapVersionPtr slot expected desired :
  chain_only (CompareAndSwapVersionPtr slot expected desired).
Proof.
  intros w o w'. rewrite run_CompareAndSwapVersionPtr. cbv zeta.
  case_bool_decide; intros [= <- <-]; cbn;
    rewrite after_interference_gc, after_interference_trace; (split_and!; [done..|]); by eexists.
Qed.

Lemma chain_only_load_Timestamp p : chain_only (load_Timestamp p).
Proof.
  intros w o w'. rewrite run_load_Timestamp. cbv zeta.
  destruct (_ !! p); intros [= <- <-]; cbn;
    rewrite after_interference_gc, after_interference_trace; (split_and!; [done..|]).
  - by eexists.
  - exists []. by rewrite app_nil_r.
Qed.

Lemma chain_only_load_Next p : chain_only (load_Next p).
Proof.
  intros w o w'. rewrite run_load_Next. cbv zeta.
  destruct (_ !! p); intros [= <- <-]; cbn;
    rewrite after_interference_gc, after_interference_trace; (split_and!; [done..|]).
  - by eexists.
  - exists []. by rewrite app_nil_r.
Qed.

Lemma chain_only_store_Next p v : chain_only (store_Next p v).
Proof.
  intros w o w'. rewrite run_store_Next. cbv zeta.
  destruct (_ !! p); intros [= <- <-]; cbn; (split_and!; [done..|]).
  - by eexists.
  - exists []. by rewrite app_nil_r.
Qed.

Lemma chain_only_out_of_fuel {A} : chain_only (out_of_fuel : M A).
Proof. intros w o w' [= <- <-]. split_and!; [done..|]. exists []. by rewrite app_nil_r. Qed.

Create HintDb chain_only.
#[local] Hint Resolve chain_only_ret chain_only_AtomicallyReadVersionPtr
  chain_only_CompareAndSwapVersionPtr chain_only_load_Timestamp chain_only_load_Next
  chain_only_store_Next chain_only_out_of_fuel : chain_only.

Lemma chain_only_traverse fuel oldest curr : chain_only (traverse fuel oldest curr).
Proof.
  revert curr. induction fuel as [|fuel IH]; intros curr; cbn [traverse];
    [auto with chain_only|].
  apply chain_only_bind; [auto with chain_only|]. intros [n|]; [|auto with chain_only].
  apply chain_only_bind; [auto with chain_only|]. intros ts.
  destruct (NewerThan oldest ts); auto with chain_only.
Qed.

Lemma chain_only_TruncateVersionChain fuel table slot oldest :
  chain_only (TruncateVersionChain fuel table slot oldest).
Proof.
  induction fuel as [|fuel IH]; cbn [TruncateVersionChain]; [auto with chain_only|].
  apply chain_only_bind; [auto with chain_only|]. intros [vp|]; [|auto with chain_only].
  apply chain_only_bind; [auto with chain_only|]. intros ts.
  destruct (NewerThan oldest ts).
  { apply chain_only_bind; [auto with chain_only|]. intros []; cbn [negb]; auto with chain_only. }
  apply chain_only_bind; [apply chain_only_traverse|]. intros [curr|]; [|auto with chain_only].
  apply chain_only_bind; [auto with chain_only|]. intros _.
  case_bool_decide; [|auto with chain_only].
  apply chain_only_bind; [auto with chain_only|]. intros ts'.
  destruct (negb (Committed ts')); [|auto with chain_only].
  apply chain_only_bind; [auto with chain_only|]. intros head.
  case_bool_decide; auto with chain_only.
Qed.

(** ** The unlink phase *)

Lemma ReclaimBufferIfVarlen_run txn undo_record table w :
  Table undo_record = Some table →
  ReclaimBufferIfVarlen txn undo_record w =
    (Val (add_loose_ptrs txn
            (spec_payloads_to_move (store_ (shared_ w)) (GetBlockLayout (accessor_ table))
               undo_record)), w).
Proof.
  intros Htable. unfold ReclaimBufferIfVarlen, spec_payloads_to_move. rewrite Htable.
  destruct (Type_ undo_record).
  - rewrite run_ret. f_equal. f_equal.
    apply (reclaim_scan
             (λ i, IsVarlen (GetBlockLayout (accessor_ table))
                     (ColumnIds (Delta undo_record) !!! i))
             (Delta_AccessWithNullCheck (Delta undo_record))).
  - rewrite run_ret. by rewrite add_loose_ptrs_nil.
  - rewrite run_bind. unfold get_store at 1. cbv beta iota.
    rewrite run_ret. f_equal. f_equal.
    apply (reclaim_scan (IsVarlen (GetBlockLayout (accessor_ table)))
             (AccessWithNullCheck (store_ (shared_ w)) (Slot undo_record))).
Qed.

Lemma ReclaimBufferIfVarlen_null txn undo_record w :
  Table undo_record = None → ReclaimBufferIfVarlen txn undo_record w = (Fault NullTable, w).
Proof. intros Htable. unfold ReclaimBufferIfVarlen. by rewrite Htable. Qed.

Lemma truncate_half_sim fuel oldest u visited w o w' :
  (match Table u with
   | Some table =>
       if bool_decide (Slot u ∈ visited) then mret visited
       else
         log (EvTruncate (Slot u) oldest);;
         TruncateVersionChain fuel table (Slot u) oldest;;
         mret ({[Slot u]} ∪ visited)
   | None => mret visited
   end) w = (o, w') →
  gc_ w' = gc_ w ∧ o ≠ Fault NullTable ∧ (∀ v, o = Val v → v = visit visited u) ∧
  ∃ evs, trace_ w' = trace_ w ++ evs ∧
         high_level evs = match Table u with
                          | Some _ => if bool_decide (Slot u ∈ visited) then []
                                      else [EvTruncate (Slot u) oldest]
                          | None => []
                          end.
Proof.
  unfold visit. destruct (Table u) as [table|] eqn:Htable.
  2:{ intros [= <- <-]. split_and!; [done|done|by intros ? [= <-]|].
      exists []. by rewrite app_nil_r. }
  case_bool_decide as Hvis.
  { intros [= <- <-]. split_and!; [done|done|intros ? [= <-]|].
    { symmetry. apply subseteq_union_1_L. by apply singleton_subseteq_l. }
    exists []. by rewrite app_nil_r. }
  rewrite run_bind, run_log. cbv beta iota. rewrite run_bind.
  destruct (TruncateVersionChain fuel table (Slot u) oldest _) as [o2 w2] eqn:Htr.
  apply chain_only_TruncateVersionChain in Htr as (Hg & Hnn & evs & Ht & Hh).
  intros Hrun.
  assert (w2 = w' ∧ o ≠ Fault NullTable ∧ (∀ v, o = Val v → v = {[Slot u]} ∪ visited))
    as (-> & Ho & Hv).
  { destruct o2 as [[]|f|]; mstep_in Hrun; injection Hrun as <- <-.
    - split_and!; [done..|]. by intros ? [= <-].
    - split_and!; [done| |done]. intros [= ->]. by apply Hnn.
    - by split_and!. }
  split_and!; [done..|]. exists (EvTruncate (Slot u) oldest :: evs).
  split; [by rewrite Ht; cbn; rewrite <- app_assoc|].
  change (EvTruncate (Slot u) oldest :: evs) with ([EvTruncate (Slot u) oldest] ++ evs).
  by rewrite high_level_app, Hh, app_nil_r.
Qed.

Lemma reclaim_half_sim u txn w o w' :
  (if negb (Aborted txn) then ReclaimSlotIfDeleted u;; ReclaimBufferIfVarlen txn u
   else mret txn) w = (o, w') →
  gc_ w' = gc_ w ∧
  ∃ evs, trace_ w' = trace_ w ++ evs ∧
    match o with
    | Val txn' =>
        high_level evs = (if Aborted txn then []
                          else match Type_ u with
                               | DELETE => [EvDeallocate (Slot u)]
                               | _ => []
                               end) ∧
        if Aborted txn then txn' = txn
        else ∃ table s, Table u = Some table ∧
               txn' = add_loose_ptrs txn
                        (spec_payloads_to_move s (GetBlockLayout (accessor_ table)) u)
    | Fault NullTable => evs = [] ∧ Aborted txn = false ∧ Table u = None
    | _ => False
    end.
Proof.
  destruct (Aborted txn) eqn:Hab; cbn [negb].
  { intros [= <- <-]. split; [done|]. exists []. by rewrite app_nil_r. }
  rewrite run_bind. unfold ReclaimSlotIfDeleted.
  destruct (Table u) as [table|] eqn:Htable.
  2:{ intros Hrun. assert (o = Fault NullTable ∧ w' = w) as [-> ->].
      { destruct (Type_ u); mstep_in Hrun;
          rewrite ?(ReclaimBufferIfVarlen_null _ _ _ Htable) in Hrun;
          by injection Hrun as <- <-. }
      split; [done|]. exists []. by rewrite app_nil_r. }
  intros Hrun.
  destruct (Type_ u); mstep_in Hrun; rewrite ?run_log in Hrun; cbv beta iota in Hrun;
    rewrite (ReclaimBufferIfVarlen_run _ _ _ _ Htable) in Hrun; injection Hrun as <- <-;
    (split; [done|]).
  - exists []. rewrite app_nil_r. split_and!; [done..|]. by eexists _, _.
  - exists []. rewrite app_nil_r. split_and!; [done..|]. by eexists _, _.
  - exists [EvDeallocate (Slot u)]. split_and!; [done..|]. by eexists _, _.
Qed.

Lemma unlink_record_sim fuel oldest u visited txn w o w' :
  unlink_record fuel oldest u visited txn w = (o, w') →
  gc_ w' = gc_ w ∧
  ∃ evs, trace_ w' = trace_ w ++ evs ∧
    high_level evs `prefix_of` record_trace oldest (Aborted txn) visited u ∧
    match o with
    | Val (visited', txn') =>
        high_level evs = record_trace oldest (Aborted txn) visited u ∧
        visited' = visit visited u ∧
        if Aborted txn then txn' = txn
        else ∃ table s, Table u = Some table ∧
               txn' = add_loose_ptrs txn
                        (spec_payloads_to_move s (GetBlockLayout (accessor_ table)) u)
    | Fault NullTable => Aborted txn = false ∧ Table u = None
    | _ => True
    end.
Proof.
  unfold unlink_record, record_trace. intros Hrun.
  apply bind_inv in Hrun as [(visited' & w1 & Hrun1 & Hrun)|Hfail].
  2:{ destruct Hfail as [(f & Hk & ->)|[Hk ->]];
        apply truncate_half_sim in Hk as (Hg & Hnn & _ & evs & Ht & Hh);
        (split; [done|]); exists evs; (split; [done|]);
        (split; [rewrite Hh; by apply prefix_app_r|]); [|done].
      destruct f; [by destruct Hnn|done]. }
  apply truncate_half_sim in Hrun1 as (Hg1 & _ & Hv & evs1 & Ht1 & Hh1).
  rewrite (Hv _ eq_refl) in Hrun. clear Hv.
  rewrite run_bind in Hrun.
  destruct (_ w1) as [o2 w2] eqn:Hrun2 in Hrun.
  apply reclaim_half_sim in Hrun2 as (Hg2 & evs2 & Ht2 & Ho2).
  assert (w2 = w') as ->.
  { destruct o2; mstep_in Hrun; by injection Hrun as <- <-. }
  split; [congruence|]. exists (evs1 ++ evs2).
  rewrite Ht2, Ht1, <- app_assoc, high_level_app, Hh1. split; [done|].
  destruct o2 as [txn'|[]|]; mstep_in Hrun; try done; injection Hrun as <-.
  - destruct Ho2 as [-> Htxn]. by split_and!.
  - destruct Ho2 as (-> & Hab & Htable). rewrite app_nil_r. split; [by apply prefix_app_r|done].
Qed.

Lemma unlink_records_sim fuel oldest us visited txn w o w' :
  unlink_records fuel oldest us visited txn w = (o, w') →
  gc_ w' = gc_ w ∧
  ∃ evs, trace_ w' = trace_ w ++ evs ∧
    high_level evs `prefix_of` records_trace oldest (Aborted txn) visited us ∧
    match o with
    | Val (visited', txn') =>
        high_level evs = records_trace oldest (Aborted txn) visited us ∧
        visited' = foldl visit visited us ∧
        if Aborted txn then txn' = txn
        else ∃ ps, reclaimed_ptrs us ps ∧ txn' = add_loose_ptrs txn ps
    | Fault NullTable => Aborted txn = false ∧ ∃ u, u ∈ us ∧ Table u = None
    | _ => True
    end.
Proof.
  revert visited txn w. induction us as [|u us IH]; intros visited txn w Hrun.
  { injection Hrun as <- <-. split; [done|]. exists []. rewrite app_nil_r.
    split_and!; [done..|]. destruct (Aborted txn); [done|].
    exists []. split; [constructor|by rewrite add_loose_ptrs_nil]. }
  cbn [unlink_records records_trace foldl] in *.
  apply bind_inv in Hrun as [([visited1 txn1] & w1 & Hrun1 & Hrun)|Hfail].
  2:{ assert (∃ k : Outcome (gset Z * TransactionContext),
                unlink_record fuel oldest u visited txn w = (k, w') ∧
                match k with Val _ => False | Fault f => o = Fault f | OutOfFuel => o = OutOfFuel end)
        as (k & Hk & Ho).
      { destruct Hfail as [(f & Hk & ->)|[Hk ->]]; eexists; (split; [exact Hk|done]). }
      apply unlink_record_sim in Hk as (Hg & evs & Ht & Hpre & Hk).
      split; [done|]. exists evs. split; [done|]. split; [by apply prefix_app_r|].
      destruct k as [|[]|]; [done|subst o..]; [|done..].
      destruct Hk as [Hab Htable]. split; [done|]. exists u. split; [left|done]. }
  apply unlink_record_sim in Hrun1 as (Hg1 & evs1 & Ht1 & _ & Hh1 & -> & Htxn1).
  assert (Hab1 : Aborted txn1 = Aborted txn).
  { destruct (Aborted txn) eqn:Hab; [by subst|]. by destruct Htxn1 as (? & ? & _ & ->). }
  apply IH in Hrun as (Hg2 & evs2 & Ht2 & Hpre2 & Ho). rewrite Hab1 in *.
  split; [congruence|]. exists (evs1 ++ evs2).
  rewrite Ht2, Ht1, <- app_assoc, high_level_app, Hh1.
  split; [done|]. split; [by apply prefix_app|].
  destruct o as [[visited' txn']|[]|]; [|..|done].
  - destruct Ho as (-> & -> & Htxn'). split_and!; [done..|].
    destruct (Aborted txn) eqn:Hab; [congruence|].
    destruct Htxn1 as (table & s & Htable & ->). destruct Htxn' as (ps & Hps & ->).
    eexists. split; [by econstructor|]. by rewrite add_loose_ptrs_app.
  - destruct Ho as (Hab & u' & Hu' & Htable). split; [done|]. exists u'. split; [by right|done].
  - done.
Qed.

Lemma set_txns_to_deallocate_id g : set_txns_to_deallocate (txns_to_deallocate_ g) g = g.
Proof. by destruct g. Qed.

Lemma unlink_loop_sim fuel oldest q n rq visited w o w' :
  unlink_loop fuel oldest q n rq visited w = (o, w') →
  ∃ pushed evs,
    gc_ w' = set_txns_to_deallocate (pushed ++ txns_to_deallocate_ (gc_ w)) (gc_ w) ∧
    trace_ w' = trace_ w ++ evs ∧
    high_level evs `prefix_of` unlink_trace oldest visited q ∧
    match o with
    | Val (n', rq') =>
        high_level evs = unlink_trace oldest visited q ∧
        n' = Nat.iter (length (filter (λ t, fate oldest t ≠ Requeued) q)) uint32_incr n ∧
        rq' = reverse (filter (λ t, fate oldest t = Requeued) q) ++ rq ∧
        Forall2 unlinked_as (reverse (filter (λ t, fate oldest t = Unlinked) q)) pushed
    | Fault NullTable =>
        ∃ t u, t ∈ q ∧ fate oldest t = Unlinked ∧ Aborted t = false ∧
               u ∈ undo_buffer_ t ∧ Table u = None
    | _ => True
    end.
Proof.
  revert n rq visited w. induction q as [|txn q IH]; intros n rq visited w Hrun.
  { injection Hrun as <- <-. exists [], []. cbn. rewrite app_nil_r, set_txns_to_deallocate_id.
    split_and!; done || constructor. }
  cbn [unlink_loop unlink_trace] in *.
  destruct (fate oldest txn) eqn:Hfate; pose proof Hfate as Hf; unfold fate in Hfate.
  - (* deleted on the spot *)
    case_bool_decide as Hempty; [|by destruct (NewerThan _ _)].
    rewrite run_bind, run_log in Hrun. cbv beta iota in Hrun.
    apply IH in Hrun as (pushed & evs & Hg & Ht & Hpre & Ho).
    exists pushed, (EvDelete txn :: evs). split; [done|].
    split; [by rewrite Ht; cbn; rewrite <- app_assoc|].
    change (EvDelete txn :: evs) with ([EvDelete txn] ++ evs). rewrite high_level_app.
    split; [by apply (prefix_app [_])|].
    destruct o as [[n' rq']|[]|]; [|..|done].
    + destruct Ho as (-> & -> & -> & Hpushed).
      rewrite !filter_cons, Hf. repeat case_decide; try done.
      split_and!; [done| |done..]. cbn [length]. by rewrite Nat.iter_succ_r.
    + destruct Ho as (t & u & Ht' & Ho). exists t, u. split; [by right|done].
    + done.
  - (* unlinked *)
    case_bool_decide as Hempty; [done|].
    destruct (NewerThan oldest (TxnId txn)) eqn:Hnewer; [|done].
    apply bind_inv in Hrun as [([visited1 txn1] & w1 & Hrun1 & Hrun)|Hfail].
    2:{ assert (∃ k : Outcome (gset Z * TransactionContext),
                  unlink_records fuel oldest (undo_buffer_ txn) visited txn w = (k, w') ∧
                  match k with
                  | Val _ => False | Fault f => o = Fault f | OutOfFuel => o = OutOfFuel
                  end) as (k & Hk & Ho).
        { destruct Hfail as [(f & Hk & ->)|[Hk ->]]; eexists; (split; [exact Hk|done]). }
        apply unlink_records_sim in Hk as (Hg & evs & Ht & Hpre & Hk).
        exists [], evs. cbn. rewrite Hg, set_txns_to_deallocate_id.
        split_and!; [done..|by apply prefix_app_r|].
        destruct k as [|[]|]; [done|subst o..]; [|done..].
        destruct Hk as (Hab & u & Hu & Htable). exists txn, u.
        split_and!; [left|unfold fate; by rewrite bool_decide_false, Hnewer|done..]. }
    apply unlink_records_sim in Hrun1 as (Hg1 & evs1 & Ht1 & _ & Hh1 & -> & Htxn1).
    cbv beta iota in Hrun. rewrite run_bind in Hrun.
    unfold push_front_txns_to_deallocate at 1 in Hrun. rewrite run_bind in Hrun.
    unfold get_gc at 1, put_gc at 1 in Hrun. cbv beta iota in Hrun.
    apply IH in Hrun as (pushed & evs & Hg & Ht & Hpre & Ho).
    cbn [gc_ trace_ txns_to_deallocate_ set_txns_to_deallocate] in Hg, Ht.
    exists (pushed ++ [txn1]), (evs1 ++ evs).
    split; [by rewrite Hg, Hg1, <- app_assoc|].
    split; [by rewrite Ht, Ht1, <- app_assoc|].
    rewrite high_level_app, Hh1. split; [by apply prefix_app|].
    destruct o as [[n' rq']|[]|]; [|..|done].
    + destruct Ho as (-> & -> & -> & Hpushed).
      rewrite !filter_cons, Hf. repeat case_decide; try done.
      split_and!; [done| |done|].
      * cbn [length]. by rewrite Nat.iter_succ_r.
      * rewrite reverse_cons. apply Forall2_app; [done|]. constructor; [|constructor].
        unfold unlinked_as. by destruct (Aborted txn).
    + destruct Ho as (t & u & Ht' & Ho). exists t, u. split; [by right|done].
    + done.
  - (* requeued *)
    case_bool_decide as Hempty; [done|].
    destruct (NewerThan oldest (TxnId txn)) eqn:Hnewer; [done|].
    apply IH in Hrun as (pushed & evs & Hg & Ht & Hpre & Ho).
    exists pushed, evs. split_and!; [done..|].
    destruct o as [[n' rq']|[]|]; [|..|done].
    + destruct Ho as (-> & -> & -> & Hpushed).
      rewrite !filter_cons, Hf. repeat case_decide; try done.
      split_and!; [done..| |done]. by rewrite reverse_cons, <- app_assoc.
    + destruct Ho as (t & u & Ht' & Ho). exists t, u. split; [by right|done].
    + done.
Qed.

Lemma run_CompletedTransactionsForGC w :
  ∃ w1, gc_ w1 = gc_ w ∧
    trace_ w1 = trace_ w ++
      [EvCompletedTransactionsForGC (completed_txns_ (txn_manager_ (shared_ (after_interference w))))] ∧
    CompletedTransactionsForGC w
      = (Val (completed_txns_ (txn_manager_ (shared_ (after_interference w)))), w1).
Proof.
  unfold CompletedTransactionsForGC. rewrite run_bind, run_interfere.
  eexists. split_and!; [| |mred; reflexivity].
  - cbn. apply after_interference_gc.
  - cbn. by rewrite after_interference_trace.
Qed.

Lemma ProcessUnlinkQueue_sim fuel w o w' :
  ProcessUnlinkQueue fuel w = (o, w') →
  ∃ oldest completed pushed evs,
    let q := completed ++ txns_to_unlink_ (gc_ w) in
    let g := set_txns_to_deallocate (pushed ++ txns_to_deallocate_ (gc_ w)) (gc_ w) in
    trace_ w' = trace_ w ++
      EvOldestTransactionStartTime oldest :: EvCompletedTransactionsForGC completed :: evs ∧
    oldest = oldest_answer w ∧
    high_level evs `prefix_of` unlink_trace oldest ∅ q ∧
    match o with
    | Val n =>
        gc_ w' = set_txns_to_unlink (reverse (filter (λ t, fate oldest t = Requeued) q)) g ∧
        high_level evs = unlink_trace oldest ∅ q ∧
        n = Nat.iter (length (filter (λ t, fate oldest t ≠ Requeued) q)) uint32_incr 0 ∧
        Forall2 unlinked_as (reverse (filter (λ t, fate oldest t = Unlinked) q)) pushed
    | Fault NullTable =>
        gc_ w' = g ∧
        ∃ t u, t ∈ q ∧ fate oldest t = Unlinked ∧ Aborted t = false ∧
               u ∈ undo_buffer_ t ∧ Table u = None
    | _ => gc_ w' = g
    end.
Proof.
  unfold ProcessUnlinkQueue. intros Hrun.
  rewrite run_bind, run_OldestTransactionStartTime in Hrun. cbv beta iota zeta in Hrun.
  fold (oldest_answer w) in Hrun.
  set (w0 := add_events _ _) in Hrun.
  assert (Hg0 : gc_ w0 = gc_ w) by apply after_interference_gc.
  assert (Ht0 : trace_ w0 = trace_ w ++ [EvOldestTransactionStartTime (oldest_answer w)]).
  { cbn. by rewrite after_interference_trace. }
  clearbody w0.
  destruct (run_CompletedTransactionsForGC w0) as (w1 & Hg1 & Ht1 & Hc).
  set (completed := completed_txns_ _) in *. clearbody completed.
  rewrite run_bind, Hc in Hrun. cbv beta iota in Hrun.
  rewrite run_bind in Hrun. unfold get_gc at 1 in Hrun. cbv beta iota in Hrun.
  rewrite run_bind in Hrun.
  destruct (unlink_loop _ _ _ _ _ _ w1) as [o2 w2] eqn:Hloop.
  apply unlink_loop_sim in Hloop as (pushed & evs & Hg2 & Ht2 & Hpre & Ho2).
  rewrite Hg1, Hg0 in Hg2, Hpre, Ho2.
  exists (oldest_answer w), completed, pushed, evs. cbv zeta.
  assert (Htr : trace_ w2 = trace_ w ++
            EvOldestTransactionStartTime (oldest_answer w) ::
            EvCompletedTransactionsForGC completed :: evs).
  { rewrite Ht2, Ht1, Ht0. by rewrite <- !app_assoc. }
  destruct o2 as [[n rq]|f|].
  - cbv beta iota in Hrun. rewrite run_bind in Hrun. unfold get_gc at 1 in Hrun.
    cbv beta iota in Hrun. rewrite run_bind in Hrun. unfold put_gc at 1 in Hrun.
    mstep_in Hrun. injection Hrun as <- <-. cbn [trace_ gc_].
    destruct Ho2 as (Hh & -> & -> & Hpushed). rewrite app_nil_r, Hg2.
    by split_and!.
  - injection Hrun as <- <-. split_and!; [done..|]. by destruct f.
  - injection Hrun as <- <-. by split_and!.
Qed.

(** *** What the unlink phase calls *)

Lemma omap_high_level {B} (f : Event → option B) evs :
  (∀ e, is_chain_event e = true → f e = None) →
  omap f (high_level evs) = omap f evs.
Proof.
  intros Hf. unfold high_level. induction evs as [|e evs IH]; [done|].
  destruct (is_chain_event e) eqn:He.
  - rewrite filter_cons_False by congruence. cbn. by rewrite (Hf e He).
  - rewrite filter_cons_True by done. cbn. by rewrite IH.
Qed.

Lemma deleted_txns_high_level evs : deleted_txns (high_level evs) = deleted_txns evs.
Proof. apply omap_high_level. by intros []. Qed.

Lemma truncated_slots_high_level evs : truncated_slots (high_level evs) = truncated_slots evs.
Proof. apply omap_high_level. by intros []. Qed.

Lemma deallocated_slots_high_level evs :
  deallocated_slots (high_level evs) = deallocated_slots evs.
Proof. apply omap_high_level. by intros []. Qed.

Lemma timestamp_answers_high_level evs :
  timestamp_answers (high_level evs) = timestamp_answers evs.
Proof. apply omap_high_level. by intros []. Qed.

Lemma oldest_answers_high_level evs : oldest_answers (high_level evs) = oldest_answers evs.
Proof. apply omap_high_level. by intros []. Qed.

Lemma elem_of_visit_all visited us s :
  s ∈ foldl visit visited us ↔
  s ∈ visited ∨ ∃ u, u ∈ us ∧ is_Some (Table u) ∧ Slot u = s.
Proof.
  revert visited. induction us as [|u us IH]; intros visited; cbn [foldl].
  { split; [by left|]. intros [?|(u & Hu & _)]; [done|]. by apply elem_of_nil in Hu. }
  rewrite IH. unfold visit. split.
  - intros [Hs|(u' & Hu' & Hrest)].
    + destruct (Table u) eqn:Htable; [|by left].
      apply elem_of_union in Hs as [->%elem_of_singleton|Hs]; [|by left].
      right. exists u. rewrite Htable. split_and!; [left|by eexists|done].
    + right. exists u'. split; [by right|done].
  - intros [Hs|(u' & [->|Hu']%elem_of_cons & Htable & Hslot)].
    + left. destruct (Table u); [|done]. apply elem_of_union. by right.
    + left. destruct Htable as [table ->]. apply elem_of_union. left.
      by apply elem_of_singleton.
    + right. by exists u'.
Qed.

Lemma truncated_slots_records oldest aborted visited us :
  NoDup (truncated_slots (records_trace oldest aborted visited us)) ∧
  ∀ s, s ∈ truncated_slots (records_trace oldest aborted visited us) ↔
       (s ∉ visited) ∧ ∃ u, u ∈ us ∧ is_Some (Table u) ∧ Slot u = s.
Proof.
  revert visited. induction us as [|u us IH]; intros visited; cbn [records_trace].
  { split; [constructor|]. intros s. split; [by intros ?%elem_of_nil|].
    intros (_ & u & Hu & _). by apply elem_of_nil in Hu. }
  destruct (IH (visit visited u)) as [Hnd Hin]. clear IH.
  unfold truncated_slots in *. rewrite omap_app.
  assert (Hhead : omap (λ e, match e with EvTruncate slot _ => Some slot | _ => None end)
                    (record_trace oldest aborted visited u)
                  = if bool_decide (is_Some (Table u) ∧ Slot u ∉ visited) then [Slot u] else []).
  { unfold record_trace. rewrite omap_app.
    replace (omap _ (if aborted then [] else _)) with (@nil Z)
      by (by destruct aborted, (Type_ u)).
    rewrite app_nil_r. destruct (Table u) eqn:Htable.
    - case_bool_decide as Hvis; case_bool_decide as Hnew; try done.
      + by destruct Hnew as [_ Hnew].
      + destruct Hnew. by split; [eexists|].
    - rewrite bool_decide_false; [done|]. by intros [[? [=]] _]. }
  rewrite Hhead. clear Hhead. split.
  - case_bool_decide as Hnew; [|done]. cbn. constructor; [|done].
    rewrite Hin. intros [Hnot _]. apply Hnot. unfold visit. destruct Hnew as [[table ->] _].
    apply elem_of_union. left. by apply elem_of_singleton.
  - intros s. rewrite elem_of_app, Hin. unfold visit. split.
    + intros [Hs|(Hnot & u' & Hu' & Hrest)].
      * case_bool_decide as Hnew; [|by apply elem_of_nil in Hs].
        apply list_elem_of_singleton in Hs as ->. destruct Hnew as [Htable Hnot].
        split; [done|]. exists u. split; [left|done].
      * split.
        -- intros Hs. apply Hnot. destruct (Table u); [|done]. apply elem_of_union. by right.
        -- exists u'. split; [by right|done].
    + intros (Hnot & u' & [->|Hu']%elem_of_cons & Htable & Hslot).
      * subst s. left. rewrite bool_decide_true by done. left.
      * destruct (decide (is_Some (Table u) ∧ Slot u = s)) as [[Htu Hsu]|Hother].
        -- left. rewrite bool_decide_true; [rewrite Hsu; left|]. split; [done|by rewrite Hsu].
        -- right. split; [|by exists u'].
           destruct (Table u) eqn:Htu; [|done].
           intros [->%elem_of_singleton|Hs]%elem_of_union; [|done].
           apply Hother. by split; [eexists|].
Qed.

Lemma deallocated_slots_records oldest aborted visited us :
  deallocated_slots (records_trace oldest aborted visited us) =
    if aborted then [] else Slot <$> filter (λ u, Type_ u = DELETE) us.
Proof.
  revert visited. induction us as [|u us IH]; intros visited; cbn [records_trace].
  { by destruct aborted. }
  unfold deallocated_slots in *. rewrite omap_app, IH. unfold record_trace. rewrite omap_app.
  replace (omap _ (match Table u with Some _ => _ | None => _ end)) with (@nil Z)
    by (destruct (Table u); [by case_bool_decide|done]).
  destruct aborted; [done|]. rewrite filter_cons.
  destruct (Type_ u); by case_decide.
Qed.

Lemma deleted_txns_records oldest aborted visited us :
  deleted_txns (records_trace oldest aborted visited us) = [].
Proof.
  revert visited. induction us as [|u us IH]; intros visited; cbn [records_trace]; [done|].
  unfold deleted_txns in *. rewrite omap_app, IH, app_nil_r. unfold record_trace.
  rewrite omap_app. destruct (Table u), aborted, (Type_ u); try case_bool_decide; done.
Qed.

Lemma deleted_txns_unlink_trace oldest visited q :
  deleted_txns (unlink_trace oldest visited q) = filter (λ t, fate oldest t = Deleted) q.
Proof.
  revert visited. induction q as [|t q IH]; intros visited; cbn [unlink_trace]; [done|].
  rewrite filter_cons. destruct (fate oldest t) eqn:Hfate; case_decide; try done.
  - cbn. f_equal. apply IH.
  - unfold deleted_txns in *. by rewrite omap_app, IH, (deleted_txns_records _ _ _ _).
Qed.

Lemma truncated_slots_unlink_trace oldest visited q :
  NoDup (truncated_slots (unlink_trace oldest visited q)) ∧
  ∀ s, s ∈ truncated_slots (unlink_trace oldest visited q) ↔
       (s ∉ visited) ∧
       ∃ t u, t ∈ q ∧ fate oldest t = Unlinked ∧ u ∈ undo_buffer_ t ∧
              is_Some (Table u) ∧ Slot u = s.
Proof.
  revert visited. induction q as [|t q IH]; intros visited; cbn [unlink_trace].
  { split; [constructor|]. intros s. split; [by intros ?%elem_of_nil|].
    intros (_ & t & u & Ht & _). by apply elem_of_nil in Ht. }
  destruct (fate oldest t) eqn:Hfate.
  - destruct (IH visited) as [Hnd Hin]. split; [done|]. intros s.
    change (truncated_slots (EvDelete t :: ?l)) with (truncated_slots l). rewrite Hin.
    split; intros (Hnot & t' & u & Ht' & Hrest); (split; [done|]); exists t', u.
    + split; [by right|done].
    + apply elem_of_cons in Ht' as [->|Ht']; [|done]. destruct Hrest as [Hf _]. congruence.
  - destruct (IH (foldl visit visited (undo_buffer_ t))) as [Hnd Hin].
    destruct (truncated_slots_records oldest (Aborted t) visited (undo_buffer_ t))
      as [Hnd1 Hin1].
    unfold truncated_slots in *. rewrite omap_app. split.
    + apply NoDup_app. split_and!; [done| |done].
      intros s Hs1 [Hs2 _]%Hin. apply Hs2. apply elem_of_visit_all.
      apply Hin1 in Hs1 as [_ Hu]. by right.
    + intros s. rewrite elem_of_app, Hin1, Hin, elem_of_visit_all. split.
      * intros [(Hnot & u & Hu & Hrest)|(Hnot & t' & u & Ht' & Hrest)].
        -- split; [done|]. exists t, u. split; [left|done].
        -- split; [intros Hs; apply Hnot; by left|]. exists t', u. split; [by right|done].
      * intros (Hnot & t' & u & [->|Ht']%elem_of_cons & Hf & Hu & Htable & Hslot).
        -- left. split; [done|]. by exists u.
        -- destruct (decide (s ∈ foldl visit visited (undo_buffer_ t))) as [Hhere|Hnothere].
           ++ left. split; [done|]. by apply elem_of_visit_all in Hhere as [?|?].
           ++ right. split; [|by exists t', u].
              intros Hs. apply Hnothere. by apply elem_of_visit_all.
  - destruct (IH visited) as [Hnd Hin]. split; [done|]. intros s. rewrite Hin.
    split; intros (Hnot & t' & u & Ht' & Hrest); (split; [done|]); exists t', u.
    + split; [by right|done].
    + apply elem_of_cons in Ht' as [->|Ht']; [|done]. destruct Hrest as [Hf _]. congruence.
Qed.

Lemma deallocated_slots_unlink_trace oldest visited q :
  deallocated_slots (unlink_trace oldest visited q) =
    filter (λ t, fate oldest t = Unlinked ∧ Aborted t = false) q ≫=
      (λ t, Slot <$> filter (λ u, Type_ u = DELETE) (undo_buffer_ t)).
Proof.
  revert visited. induction q as [|t q IH]; intros visited; cbn [unlink_trace]; [done|].
  rewrite filter_cons. destruct (fate oldest t) eqn:Hfate.
  - rewrite decide_False by (by intros [? _]). apply IH.
  - unfold deallocated_slots in *. rewrite omap_app, IH.
    rewrite (deallocated_slots_records _ _ _ _). destruct (Aborted t) eqn:Hab.
    + by rewrite decide_False by (by intros [_ ?]).
    + by rewrite decide_True by done.
  - rewrite decide_False by (by intros [? _]). apply IH.
Qed.

Lemma answers_records oldest aborted visited us :
  oldest_answers (records_trace oldest aborted visited us) = [] ∧
  timestamp_answers (records_trace oldest aborted visited us) = [].
Proof.
  revert visited. induction us as [|u us IH]; intros visited; cbn [records_trace]; [done|].
  destruct (IH (visit visited u)) as [IH1 IH2].
  unfold oldest_answers, timestamp_answers in *. rewrite !omap_app, IH1, IH2, !app_nil_r.
  unfold record_trace. rewrite !omap_app.
  destruct (Table u), aborted, (Type_ u); try case_bool_decide; done.
Qed.

Lemma answers_unlink_trace oldest visited q :
  oldest_answers (unlink_trace oldest visited q) = [] ∧
  timestamp_answers (unlink_trace oldest visited q) = [].
Proof.
  revert visited. induction q as [|t q IH]; intros visited; cbn [unlink_trace]; [done|].
  destruct (fate oldest t); [apply IH| |apply IH].
  destruct (IH (foldl visit visited (undo_buffer_ t))) as [IH1 IH2].
  destruct (answers_records oldest (Aborted t) visited (undo_buffer_ t)) as [H1 H2].
  unfold oldest_answers, timestamp_answers in *. by rewrite !omap_app, IH1, IH2, H1, H2.
Qed.

(** C2: in the unlink phase every transaction of the queue (the completed
    transactions handed over by the manager, followed by those requeued
    earlier) meets exactly one fate.  With an empty undo buffer it is deleted
    on the spot.  Otherwise, if the oldest running begin-timestamp is newer
    than its finish timestamp, it is unlinked: [TruncateVersionChain] is
    called for the slots of its undo records that have a table, each slot at
    most once in the whole phase; the slots of its DELETE records are
    reclaimed and its loose pointers are extended by the payloads of its
    records if and only if it did not abort; and it is pushed onto the
    deallocation queue.  Otherwise it is requeued for the next period. *)
Theorem C2_unlink_three_cases (fuel : nat) (w : World) (n : Z) (w' : World) :
  ProcessUnlinkQueue fuel w = (Val n, w') →
  ∃ oldest completed evs pushed,
    let q := completed ++ txns_to_unlink_ (gc_ w) in
    trace_ w' = trace_ w ++
      EvOldestTransactionStartTime oldest :: EvCompletedTransactionsForGC completed :: evs ∧
    deleted_txns evs = filter (λ t, fate oldest t = Deleted) q ∧
    txns_to_unlink_ (gc_ w') = reverse (filter (λ t, fate oldest t = Requeued) q) ∧
    txns_to_deallocate_ (gc_ w') = pushed ++ txns_to_deallocate_ (gc_ w) ∧
    Forall2 unlinked_as (reverse (filter (λ t, fate oldest t = Unlinked) q)) pushed ∧
    NoDup (truncated_slots evs) ∧
    (∀ s, s ∈ truncated_slots evs ↔
          ∃ t u, t ∈ q ∧ fate oldest t = Unlinked ∧ u ∈ undo_buffer_ t ∧
                 is_Some (Table u) ∧ Slot u = s) ∧
    deallocated_slots evs =
      (filter (λ t, fate oldest t = Unlinked ∧ Aborted t = false) q ≫=
         (λ t, Slot <$> filter (λ u, Type_ u = DELETE) (undo_buffer_ t))) ∧
    n = Nat.iter (length (filter (λ t, fate oldest t ≠ Requeued) q)) uint32_incr 0.
Proof.
  intros Hrun.
  apply ProcessUnlinkQueue_sim in Hrun
    as (oldest & completed & pushed & evs & Ht & _ & _ & Hg & Hh & Hn & Hpushed).
  exists oldest, completed, evs, pushed. cbv zeta.
  destruct (truncated_slots_unlink_trace oldest ∅
              (completed ++ txns_to_unlink_ (gc_ w))) as [Hnd Hin].
  rewrite <- (deleted_txns_high_level evs), <- (truncated_slots_high_level evs),
    <- (deallocated_slots_high_level evs), Hh, Hg.
  split_and!; [done| |done|done|done|done| | |done].
  - apply deleted_txns_unlink_trace.
  - intros s. rewrite Hin. split; [by intros [_ ?]|]. intros ?. split; [|done].
    apply not_elem_of_empty.
  - apply deallocated_slots_unlink_trace.
Qed.

Lemma C2_unlink_three_cases_witness :
  ∃ w' evs,
    ProcessUnlinkQueue 10 Examples.three_completed = (Val 2, w') ∧
    trace_ w' =
      EvOldestTransactionStartTime 15 ::
      EvCompletedTransactionsForGC [Examples.reader; Examples.writer; Examples.late_writer] ::
      evs ∧
    deleted_txns evs = [Examples.reader] ∧
    truncated_slots evs = [100] ∧
    txns_to_unlink_ (gc_ w') = [Examples.late_writer] ∧
    txns_to_deallocate_ (gc_ w') = [Examples.writer].
Proof.
  set (w := Examples.three_completed).
  assert (Hrun : ProcessUnlinkQueue 10 w = (Val 2, (ProcessUnlinkQueue 10 w).2))
    by (vm_compute; reflexivity).
  destruct (C2_unlink_three_cases 10 w 2 _ Hrun)
    as (oldest & completed & evs & pushed & Ht & Hdel & Hreq & Hdeal & Hpushed & Hnd & _).
  exists (ProcessUnlinkQueue 10 w).2, (drop 2 (trace_ (ProcessUnlinkQueue 10 w).2)).
  split; [exact Hrun|]. vm_compute. repeat split.
Defined.

(** C10: an undo record whose table pointer is null is never handed to
    [TruncateVersionChain]: processing it makes no call at all.  In an aborted
    transaction the record is skipped, leaving the visited slots, the
    transaction and the world as they were; only in a transaction that did
    not abort would the reclamation dereference the null pointer.  So when
    every record with a null table belongs to an aborted transaction, the
    unlink phase never dereferences a null table pointer. *)
Theorem C10_null_table_skipped (fuel : nat) :
  (∀ oldest u visited txn w,
     Table u = None →
     unlink_record fuel oldest u visited txn w =
       if Aborted txn then (Val (visited, txn), w) else (Fault NullTable, w))
  ∧
  (∀ w o w',
     ProcessUnlinkQueue fuel w = (o, w') →
     ∃ oldest completed evs,
       trace_ w' = trace_ w ++
         EvOldestTransactionStartTime oldest :: EvCompletedTransactionsForGC completed :: evs ∧
       ((∀ t u, t ∈ completed ++ txns_to_unlink_ (gc_ w) → u ∈ undo_buffer_ t →
                Table u = None → Aborted t = true) →
        o ≠ Fault NullTable)).
Proof.
  split.
  - intros oldest u visited txn w Htable. unfold unlink_record. rewrite Htable.
    rewrite run_bind, run_ret. cbv beta iota. rewrite run_bind.
    destruct (Aborted txn); cbn [negb]; [done|].
    rewrite run_bind. unfold ReclaimSlotIfDeleted. rewrite Htable.
    destruct (Type_ u); rewrite ?run_ret; cbv beta iota;
      by rewrite ?(ReclaimBufferIfVarlen_null _ _ _ Htable).
  - intros w o w' Hrun.
    apply ProcessUnlinkQueue_sim in Hrun
      as (oldest & completed & pushed & evs & Ht & _ & _ & Ho).
    exists oldest, completed, evs. split; [done|]. intros Hnull ->.
    destruct Ho as (_ & t & u & Ht' & _ & Hab & Hu & Htable).
    specialize (Hnull t u Ht' Hu Htable). congruence.
Qed.

Lemma C10_null_table_skipped_witness :
  Table Examples.conflicting_record = None ∧
  (∀ t u, t ∈ [Examples.aborted_txn] ++ txns_to_unlink_ (gc_ Examples.one_aborted) →
          u ∈ undo_buffer_ t → Table u = None → Aborted t = true) ∧
  unlink_record 10 15 Examples.conflicting_record {[100]} Examples.aborted_txn
      Examples.one_aborted
    = (Val ({[100]}, Examples.aborted_txn), Examples.one_aborted) ∧
  (ProcessUnlinkQueue 10 Examples.one_aborted).1 ≠ Fault NullTable.
Proof.
  assert (Hnull : ∀ t u,
            t ∈ [Examples.aborted_txn] ++ txns_to_unlink_ (gc_ Examples.one_aborted) →
            u ∈ undo_buffer_ t → Table u = None → Aborted t = true).
  { intros t u Ht _ _. cbn in Ht. apply list_elem_of_singleton in Ht. by subst t. }
  split; [reflexivity|]. split; [exact Hnull|]. split.
  - exact (proj1 (C10_null_table_skipped 10) 15 Examples.conflicting_record {[100]}
             Examples.aborted_txn Examples.one_aborted eq_refl).
  - destruct (proj2 (C10_null_table_skipped 10) Examples.one_aborted _ _
                (surjective_pairing _)) as (oldest & completed & evs & Ht & Hsafe).
    apply Hsafe.
    assert (Htr : trace_ (ProcessUnlinkQueue 10 Examples.one_aborted).2 =
                  [] ++ EvOldestTransactionStartTime oldest ::
                        EvCompletedTransactionsForGC completed :: evs) by exact Ht.
    vm_compute in Htr. injection Htr as _ <- _. exact Hnull.
Defined.

(** ** A whole collection period *)

Lemma run_ProcessIndexes w :
  ProcessIndexes w = (Val (), add_events (EvIndexGC <$> indexes_ (gc_ w)) w).
Proof.
  unfold ProcessIndexes. rewrite run_bind. unfold get_gc at 1. cbv beta iota.
  generalize (indexes_ (gc_ w)). intros l. revert w.
  induction l as [|i l IH]; intros w; cbn [foldr].
  - by rewrite run_ret, add_events_nil.
  - rewrite run_bind, run_log. cbv beta iota. by rewrite IH, add_events_app.
Qed.

Lemma PerformGarbageCollection_sim fuel w o w' :
  PerformGarbageCollection fuel w = (o, w') →
  ∃ new_actions oldest1 ready rest oldest2 oldest3 completed pushed evs tail,
    let g := gc_ w in
    let safe := NewerThan oldest2 (last_unlinked_ g) in
    let gone :=
      if safe then filter (λ t, log_processed_ t = true) (txns_to_deallocate_ g) else [] in
    let kept :=
      if safe then rev (filter (λ t, log_processed_ t = false) (txns_to_deallocate_ g))
      else txns_to_deallocate_ g in
    let q := completed ++ txns_to_unlink_ g in
    trace_ w' = trace_ w ++
      (EvDeferredActionsForGC new_actions :: EvOldestTransactionStartTime oldest1 ::
       (EvInvoke ∘ snd <$> ready)) ++
      (EvOldestTransactionStartTime oldest2 :: (EvDelete <$> gone)) ++
      (EvOldestTransactionStartTime oldest3 :: EvCompletedTransactionsForGC completed :: evs) ++
      tail ∧
    deferred_actions_ g ++ new_actions = ready ++ rest ∧
    high_level evs `prefix_of` unlink_trace oldest3 ∅ q ∧
    txns_to_deallocate_ (gc_ w') = pushed ++ kept ∧
    match o with
    | Val (txns_deallocated, txns_unlinked) =>
        high_level evs = unlink_trace oldest3 ∅ q ∧
        txns_deallocated = Nat.iter (length gone) uint32_incr 0 ∧
        txns_unlinked =
          Nat.iter (length (filter (λ t, fate oldest3 t ≠ Requeued) q)) uint32_incr 0 ∧
        Forall2 unlinked_as (reverse (filter (λ t, fate oldest3 t = Unlinked) q)) pushed ∧
        txns_to_unlink_ (gc_ w') = reverse (filter (λ t, fate oldest3 t = Requeued) q) ∧
        deferred_actions_ (gc_ w') = rest ∧
        ∃ now,
          tail = (if 0 <? txns_unlinked then [EvGetTimestamp now] else []) ++
                 (EvIndexGC <$> indexes_ g) ∧
          last_unlinked_ (gc_ w') = if 0 <? txns_unlinked then now else last_unlinked_ g
    | _ => tail = []
    end.
Proof.
  unfold PerformGarbageCollection. intros Hrun.
  destruct (ProcessDeferredActions_spec w)
    as (w1 & new_actions & oldest1 & ready & rest & Hrun1 & Ht1 & Hg1 & Hsplit & _ & _).
  rewrite run_bind, Hrun1 in Hrun. cbv beta iota in Hrun.
  rewrite run_bind, ProcessDeallocateQueue_run in Hrun. cbv zeta in Hrun.
  set (oldest2 := oldest_answer w1) in *.
  assert (Hq1 : txns_to_deallocate_ (gc_ w1) = txns_to_deallocate_ (gc_ w)) by (by rewrite Hg1).
  assert (Hl1 : last_unlinked_ (gc_ w1) = last_unlinked_ (gc_ w)) by (by rewrite Hg1).
  rewrite Hq1, Hl1 in Hrun.
  set (safe := NewerThan oldest2 (last_unlinked_ (gc_ w))) in *.
  set (gone := if safe then filter (λ t, log_processed_ t = true) (txns_to_deallocate_ (gc_ w))
               else @nil TransactionContext).
  set (kept := if safe then rev (filter (λ t, log_processed_ t = false) (txns_to_deallocate_ (gc_ w)))
               else txns_to_deallocate_ (gc_ w)).
  assert (∃ w2 d, gc_ w2 = set_txns_to_deallocate kept (gc_ w1) ∧
            trace_ w2 = trace_ w1 ++ EvOldestTransactionStartTime oldest2 :: (EvDelete <$> gone) ∧
            d = Nat.iter (length gone) uint32_incr 0 ∧
            (txns_unlinked ← ProcessUnlinkQueue fuel;
             (if 0 <? txns_unlinked
              then now ← GetTimestamp; g ← get_gc; put_gc (set_last_unlinked now g)
              else mret ());;
             ProcessIndexes;; mret (d, txns_unlinked)) w2 = (o, w'))
    as (w2 & d & Hg2 & Ht2 & Hd & Hrun2).
  { subst gone kept. destruct safe; cbv beta iota in Hrun; eexists _, _;
      (split_and!; [..|exact Hrun]); try done; cbn.
    - by rewrite after_interference_gc, <- Hq1, set_txns_to_deallocate_id.
    - by rewrite after_interference_trace. }
  clear Hrun.
  rewrite run_bind in Hrun2.
  destruct (ProcessUnlinkQueue fuel w2) as [o3 w3] eqn:Hrun3.
  apply ProcessUnlinkQueue_sim in Hrun3
    as (oldest3 & completed & pushed & evs & Ht3 & _ & Hpre & Ho3).
  cbv zeta in Ht3, Hpre, Ho3.
  assert (Hu2 : txns_to_unlink_ (gc_ w2) = txns_to_unlink_ (gc_ w)) by (by rewrite Hg2, Hg1).
  assert (Hd2 : txns_to_deallocate_ (gc_ w2) = kept) by (by rewrite Hg2).
  rewrite Hu2, Hd2 in *.
  exists new_actions, oldest1, ready, rest, oldest2, oldest3, completed, pushed, evs.
  assert (Htr3 : trace_ w3 = trace_ w ++
            (EvDeferredActionsForGC new_actions :: EvOldestTransactionStartTime oldest1 ::
             (EvInvoke ∘ snd <$> ready)) ++
            (EvOldestTransactionStartTime oldest2 :: (EvDelete <$> gone)) ++
            (EvOldestTransactionStartTime oldest3 ::
             EvCompletedTransactionsForGC completed :: evs)).
  { rewrite Ht3, Ht2, Ht1. by rewrite <- !app_assoc. }
  assert (Hdq3 : txns_to_deallocate_ (gc_ w3) = pushed ++ kept).
  { destruct o3 as [n|[|p]|]; [destruct Ho3 as [-> _]|destruct Ho3 as [-> _]|rewrite Ho3..];
      done. }
  destruct o3 as [n|f|].
  2,3: cbv beta iota in Hrun2; injection Hrun2 as <- <-; exists []; cbv zeta;
       rewrite app_nil_r; by split_and!.
  destruct Ho3 as (Hg3 & Hh & -> & Hpushed).
  cbv beta iota in Hrun2. rewrite run_bind in Hrun2.
  set (u := Nat.iter (length (filter (λ t, fate oldest3 t ≠ Requeued)
                                (completed ++ txns_to_unlink_ (gc_ w)))) uint32_incr 0) in *.
  assert (∃ w4 now,
            gc_ w4 = set_last_unlinked (if 0 <? u then now else last_unlinked_ (gc_ w)) (gc_ w3) ∧
            trace_ w4 = trace_ w3 ++ (if 0 <? u then [EvGetTimestamp now] else []) ∧
            (ProcessIndexes;; mret (d, u)) w4 = (o, w')) as (w4 & now & Hg4 & Ht4 & Hrun4).
  { destruct (0 <? u).
    - rewrite run_bind, run_GetTimestamp in Hrun2. cbv beta iota zeta in Hrun2.
      rewrite run_bind in Hrun2. unfold get_gc at 1, put_gc at 1 in Hrun2.
      cbv beta iota in Hrun2. eexists _, _. split_and!; [| |exact Hrun2].
      + cbn. by rewrite after_interference_gc.
      + cbn. by rewrite after_interference_trace.
    - rewrite run_ret in Hrun2. cbv beta iota in Hrun2. exists w3, 0.
      split_and!; [|by rewrite app_nil_r|done].
      rewrite Hg3, Hg2, Hg1. by destruct (gc_ w). }
  clear Hrun2. rewrite run_bind, run_ProcessIndexes in Hrun4. mstep_in Hrun4.
  injection Hrun4 as <- <-.
  exists ((if 0 <? u then [EvGetTimestamp now] else []) ++ (EvIndexGC <$> indexes_ (gc_ w))).
  cbv zeta. cbn [gc_ trace_ add_events].
  rewrite Hg4, Hg3, Hg2, Hg1, Ht4, Htr3. cbn.
  split_and!; try done.
  - repeat first [rewrite <- app_assoc | rewrite <- app_comm_cons]. reflexivity.
  - by exists now.
Qed.

Lemma omap_prefix {A B} (f : A → option B) (l1 l2 : list A) x :
  l1 `prefix_of` l2 → x ∈ omap f l1 → x ∈ omap f l2.
Proof. intros [k ->] Hx. rewrite omap_app. apply elem_of_app. by left. Qed.

Lemma deleted_txns_fmap_delete l : deleted_txns (EvDelete <$> l) = l.
Proof. induction l as [|t l IH]; [done|]. cbn. by f_equal. Qed.

Lemma deleted_txns_invoke (l : list (Z * nat)) : deleted_txns (EvInvoke ∘ snd <$> l) = [].
Proof. by induction l. Qed.

Lemma deleted_txns_indexes (l : list nat) : deleted_txns (EvIndexGC <$> l) = [].
Proof. by induction l. Qed.

Lemma oldest_answers_invoke (l : list (Z * nat)) : oldest_answers (EvInvoke ∘ snd <$> l) = [].
Proof. by induction l. Qed.

Lemma oldest_answers_fmap_delete l : oldest_answers (EvDelete <$> l) = [].
Proof. by induction l. Qed.

(** C1 (as stated) fails: a transaction with an empty undo buffer is deleted
    by the unlink phase at once.  Here a reader is deleted in a period in
    which the oldest running transaction (15) is not newer than
    [last_unlinked_] (40). *)
Lemma C1_counterexample :
  let w := Examples.reader_under_old_txn in
  let res := PerformGarbageCollection 10 w in
  res.1 = Val (0, 1) ∧
  deleted_txns (trace_ res.2) = [Examples.late_reader] ∧
  oldest_answers (trace_ res.2) = [15; 15; 15] ∧
  last_unlinked_ (gc_ w) = 40 ∧
  NewerThan 15 40 = false ∧
  txns_to_deallocate_ (gc_ res.2) = [].
Proof. vm_compute. done. Qed.

Lemma omap_fmap_none {A B C} (f : B → option C) (g : A → B) (l : list A) :
  (∀ x, f (g x) = None) → omap f (g <$> l) = [].
Proof. intros H. induction l as [|x l IH]; [done|]. cbn. by rewrite H. Qed.

Lemma omap_nil_prefix {A B} (f : A → option B) (l1 l2 : list A) :
  l1 `prefix_of` l2 → omap f l2 = [] → omap f l1 = [].
Proof. intros [k ->]. rewrite omap_app. by intros [? _]%app_eq_nil. Qed.

Lemma completed_answers_unlink_trace oldest visited q :
  completed_answers (unlink_trace oldest visited q) = [].
Proof.
  revert visited. induction q as [|t q IH]; intros visited; [done|].
  cbn [unlink_trace]. destruct (fate oldest t); [apply IH| |apply IH].
  unfold completed_answers in *. rewrite omap_app, IH, app_nil_r. generalize visited.
  induction (undo_buffer_ t) as [|r rs IHr]; intros visited'; [done|].
  cbn [records_trace]. rewrite omap_app, IHr, app_nil_r. unfold record_trace.
  rewrite omap_app.
  destruct (Table r), (Aborted t), (Type_ r); try case_bool_decide; done.
Qed.

(** The projections of the events of a period: what precedes the unlink
    loop, the loop itself, and what follows. *)
Lemma period_projection {B} (f : Event → option B)
    new_actions oldest1 (ready : list (Z * nat)) oldest2 gone oldest3 completed evs tail :
  f (EvDeferredActionsForGC new_actions) = None →
  (∀ a, f (EvInvoke a) = None) →
  omap f ((EvDeferredActionsForGC new_actions :: EvOldestTransactionStartTime oldest1 ::
           (EvInvoke ∘ snd <$> ready)) ++
          (EvOldestTransactionStartTime oldest2 :: (EvDelete <$> gone)) ++
          (EvOldestTransactionStartTime oldest3 :: EvCompletedTransactionsForGC completed :: evs) ++
          tail) =
    option_list (f (EvOldestTransactionStartTime oldest1)) ++
    option_list (f (EvOldestTransactionStartTime oldest2)) ++
    omap f (EvDelete <$> gone) ++
    option_list (f (EvOldestTransactionStartTime oldest3)) ++
    option_list (f (EvCompletedTransactionsForGC completed)) ++
    omap f evs ++ omap f tail.
Proof.
  intros Hd Hi. rewrite !omap_app. cbn. rewrite Hd.
  rewrite (omap_fmap_none f (EvInvoke ∘ snd)) by (intros x; apply Hi).
  destruct (f (EvOldestTransactionStartTime oldest1)),
    (f (EvOldestTransactionStartTime oldest2)),
    (f (EvOldestTransactionStartTime oldest3)),
    (f (EvCompletedTransactionsForGC completed)); cbn; by rewrite ?app_nil_r.
Qed.

Lemma tail_projection {B} (f : Event → option B) (b : bool) now (l : list nat) :
  f (EvGetTimestamp now) = None → (∀ i, f (EvIndexGC i) = None) →
  omap f ((if b then [EvGetTimestamp now] else []) ++ (EvIndexGC <$> l)) = [].
Proof.
  intros Hn Hi. rewrite omap_app, (omap_fmap_none f EvIndexGC) by done.
  destruct b; cbn; by rewrite ?Hn.
Qed.

Lemma elem_of_rev {A} (l : list A) x : x ∈ rev l ↔ x ∈ l.
Proof. rewrite !list_elem_of_In. symmetry. apply in_rev. Qed.

(** Who is deleted in a period, whatever its outcome. *)
Lemma deletions_in_period (fuel : nat) (w : World) :
  let res := PerformGarbageCollection fuel w in
  ∃ evs oldest completed,
    trace_ res.2 = trace_ w ++ evs ∧
    oldest_answers evs !! 1%nat = Some oldest ∧
    completed_answers evs = [completed] ∧
    let safe := NewerThan oldest (last_unlinked_ (gc_ w)) in
    (∀ txn, txn ∈ deleted_txns evs →
       (txn ∈ txns_to_deallocate_ (gc_ w) ∧ log_processed_ txn = true ∧ safe = true) ∨
       (undo_buffer_ txn = [] ∧ txn ∈ completed ++ txns_to_unlink_ (gc_ w))) ∧
    (∀ txn, txn ∈ txns_to_deallocate_ (gc_ w) →
       (log_processed_ txn = true ∧ safe = true → txn ∈ deleted_txns evs) ∧
       (log_processed_ txn = false ∨ safe = false →
        txn ∈ txns_to_deallocate_ (gc_ res.2) ∧
        (undo_buffer_ txn ≠ [] → txn ∉ deleted_txns evs))).
Proof.
  intros res.
  destruct (PerformGarbageCollection_sim fuel w res.1 res.2 (surjective_pairing _))
    as (new_actions & oldest1 & ready & rest & oldest2 & oldest3 & completed & pushed & evs &
        tail & Ht & _ & Hpre & Hdq & Ho).
  cbv zeta in Ht, Hpre, Hdq, Ho.
  set (safe := NewerThan oldest2 (last_unlinked_ (gc_ w))) in *.
  set (qd := txns_to_deallocate_ (gc_ w)) in *.
  set (q := completed ++ txns_to_unlink_ (gc_ w)) in *.
  set (gone := if safe then filter (λ t, log_processed_ t = true) qd else []) in *.
  assert (Htail : ∀ {B} (f : Event → option B),
            (∀ now, f (EvGetTimestamp now) = None) → (∀ i, f (EvIndexGC i) = None) →
            omap f tail = []).
  { intros B f Hn Hi. revert Ho. destruct res.1 as [[d u]|k|]; intros Ho; [|subst tail; reflexivity..].
    destruct Ho as (_ & _ & _ & _ & _ & _ & now & -> & _). by apply tail_projection. }
  assert (Hevs : ∀ t, t ∈ deleted_txns evs → undo_buffer_ t = [] ∧ t ∈ q).
  { intros t Ht'. rewrite <- deleted_txns_high_level in Ht'.
    eapply omap_prefix in Ht'; [|exact Hpre].
    fold (deleted_txns (unlink_trace oldest3 ∅ q)) in Ht'.
    rewrite deleted_txns_unlink_trace in Ht'.
    apply list_elem_of_filter in Ht' as [Hf Hin]. split; [|done].
    unfold fate in Hf. case_bool_decide; [done|]. by destruct (NewerThan oldest3 (TxnId t)). }
  eexists _, oldest2, completed. split; [exact Ht|].
  assert (Hdel : ∀ t, t ∈ deleted_txns
            ((EvDeferredActionsForGC new_actions :: EvOldestTransactionStartTime oldest1 ::
              (EvInvoke ∘ snd <$> ready)) ++
             (EvOldestTransactionStartTime oldest2 :: (EvDelete <$> gone)) ++
             (EvOldestTransactionStartTime oldest3 ::
              EvCompletedTransactionsForGC completed :: evs) ++ tail)
            ↔ t ∈ gone ∨ t ∈ deleted_txns evs).
  { intros t. unfold deleted_txns at 1. rewrite period_projection by done.
    rewrite Htail by done. cbn. rewrite app_nil_r.
    fold (deleted_txns (EvDelete <$> gone)) (deleted_txns evs).
    by rewrite deleted_txns_fmap_delete, elem_of_app. }
  split; [|split].
  - unfold oldest_answers. rewrite period_projection by done. done.
  - unfold completed_answers. rewrite period_projection by done.
    rewrite Htail by done. rewrite (omap_fmap_none _ EvDelete) by done. cbn.
    rewrite <- (omap_high_level _ evs) by (by intros []).
    by rewrite (omap_nil_prefix _ _ _ Hpre (completed_answers_unlink_trace oldest3 ∅ q)).
  - cbv zeta. fold safe. split; [intros txn [Hgone|Hu]%Hdel|intros txn Htxn; split].
    + left. subst gone. destruct safe; [|by apply elem_of_nil in Hgone].
      apply list_elem_of_filter in Hgone as [? ?]. done.
    + right. by apply Hevs.
    + intros [Hlp Hsafe]. apply Hdel. left. subst gone. rewrite Hsafe.
      apply list_elem_of_filter. done.
    + intros Hfail. split.
      * rewrite Hdq. apply elem_of_app. right. destruct safe eqn:Hsafe; [|done].
        destruct Hfail as [Hlp|?]; [|done].
        apply elem_of_rev. apply list_elem_of_filter. done.
      * intros Hne [Hgone|Hu]%Hdel.
        -- subst gone. destruct safe eqn:Hsafe; [|by apply elem_of_nil in Hgone].
           apply list_elem_of_filter in Hgone as [Hlp _]. destruct Hfail; congruence.
        -- by apply Hevs in Hu as [? _].
Qed.


(** The answers and deletions of a period that returned. *)
Lemma period_trace fuel w d u w' :
  PerformGarbageCollection fuel w = (Val (d, u), w') →
  ∃ evs oldest1 oldest2 oldest3 completed pushed now,
    let g := gc_ w in
    let safe := NewerThan oldest2 (last_unlinked_ g) in
    let gone :=
      if safe then filter (λ t, log_processed_ t = true) (txns_to_deallocate_ g) else [] in
    let kept :=
      if safe then rev (filter (λ t, log_processed_ t = false) (txns_to_deallocate_ g))
      else txns_to_deallocate_ g in
    let q := completed ++ txns_to_unlink_ g in
    trace_ w' = trace_ w ++ evs ∧
    oldest_answers evs = [oldest1; oldest2; oldest3] ∧
    completed_answers evs = [completed] ∧
    timestamp_answers evs = (if 0 <? u then [now] else []) ∧
    deleted_txns evs = gone ++ filter (λ t, fate oldest3 t = Deleted) q ∧
    d = Nat.iter (length gone) uint32_incr 0 ∧
    u = Nat.iter (length (filter (λ t, fate oldest3 t ≠ Requeued) q)) uint32_incr 0 ∧
    last_unlinked_ (gc_ w') = (if 0 <? u then now else last_unlinked_ g) ∧
    txns_to_deallocate_ (gc_ w') = pushed ++ kept ∧
    Forall2 unlinked_as (reverse (filter (λ t, fate oldest3 t = Unlinked) q)) pushed ∧
    txns_to_unlink_ (gc_ w') = reverse (filter (λ t, fate oldest3 t = Requeued) q).
Proof.
  intros Hrun.
  apply PerformGarbageCollection_sim in Hrun
    as (new_actions & oldest1 & ready & rest & oldest2 & oldest3 & completed & pushed & evs &
        tail & Ht & _ & _ & Hdq & Hh & Hd & Hu & Hpushed & Hreq & _ & now & -> & Hlast).
  cbv zeta in *.
  set (q := completed ++ txns_to_unlink_ (gc_ w)) in *.
  destruct (answers_unlink_trace oldest3 ∅ q) as [Hoa Hta].
  pose proof (completed_answers_unlink_trace oldest3 ∅ q) as Hca.
  pose proof (deleted_txns_unlink_trace oldest3 ∅ q) as Hda.
  rewrite <- Hh in Hoa, Hta, Hca, Hda.
  rewrite oldest_answers_high_level in Hoa. rewrite timestamp_answers_high_level in Hta.
  rewrite deleted_txns_high_level in Hda.
  unfold completed_answers in Hca. rewrite omap_high_level in Hca by (by intros []).
  eexists _, oldest1, oldest2, oldest3, completed, pushed, now.
  split; [exact Ht|]. split_and!; try done.
  - unfold oldest_answers in *. rewrite period_projection by done.
    rewrite Hoa, (omap_fmap_none _ EvDelete), tail_projection by done. done.
  - unfold completed_answers in *. rewrite period_projection by done.
    rewrite Hca, (omap_fmap_none _ EvDelete), tail_projection by done. done.
  - unfold timestamp_answers in *. rewrite period_projection by done.
    rewrite Hta, (omap_fmap_none _ EvDelete) by done. cbn.
    rewrite omap_app, (omap_fmap_none _ EvIndexGC), app_nil_r by done.
    by destruct (0 <? u).
  - unfold deleted_txns in *. rewrite period_projection by done.
    rewrite Hda, tail_projection by done. cbn. rewrite app_nil_r. f_equal.
    apply deleted_txns_fmap_delete.
Qed.

(** When the unlink phase reports a count above zero, the timestamp that
    becomes [last_unlinked_] is read after everything else that the period
    does, the collection of the indexes aside. *)
Lemma period_timestamp_is_last fuel w d u w' :
  PerformGarbageCollection fuel w = (Val (d, u), w') →
  (0 <? u) = true →
  ∃ pre now,
    trace_ w' = trace_ w ++ pre ++ EvGetTimestamp now :: (EvIndexGC <$> indexes_ (gc_ w)) ∧
    last_unlinked_ (gc_ w') = now.
Proof.
  intros Hrun Hpos.
  apply PerformGarbageCollection_sim in Hrun
    as (new_actions & oldest1 & ready & rest & oldest2 & oldest3 & completed & pushed & evs &
        tail & Ht & _ & _ & _ & _ & _ & Hu & _ & _ & _ & now & -> & Hlast).
  cbv zeta in *. rewrite Hpos in Hlast. rewrite Hpos in Ht.
  match type of Ht with
  | _ = _ ++ ?A ++ ?B ++ ?C ++ _ => exists (A ++ B ++ C), now
  end.
  split; [|exact Hlast]. rewrite Ht. by rewrite <- !app_assoc.
Qed.

(** C1 (amended): a transaction with a non-empty undo buffer is deleted only
    by the deallocation phase, and only when it was in the deallocation queue
    with [log_processed_] set while the oldest running begin-timestamp read
    by that phase is newer than [last_unlinked_]; a transaction of the
    deallocation queue for which either condition fails stays in the queue
    and, having a non-empty undo buffer, is not deleted in that period.  In
    a period that returns, every transaction with an empty undo buffer that
    is taken from the unlink queue is deleted by the unlink phase, without
    either check.  And [last_unlinked_] is taken after the unlinking: when a
    period that processes fewer than [2 ^ 32] transactions unlinks a
    transaction, the transaction is put on the deallocation queue and
    [last_unlinked_] becomes the timestamp that the manager gives after
    everything else of the period, the collection of the indexes aside;
    this timestamp is newer than the finish timestamp of the transaction
    whenever the oldest running begin-timestamp that the unlink phase read
    is not newer than this timestamp. *)
Theorem C1_deallocation_conditions (fuel : nat) (w : World) :
  let res := PerformGarbageCollection fuel w in
  ∃ evs oldest completed,
    trace_ res.2 = trace_ w ++ evs ∧
    oldest_answers evs !! 1%nat = Some oldest ∧
    completed_answers evs = [completed] ∧
    let safe := NewerThan oldest (last_unlinked_ (gc_ w)) in
    let q := completed ++ txns_to_unlink_ (gc_ w) in
    (∀ txn, txn ∈ deleted_txns evs →
       (txn ∈ txns_to_deallocate_ (gc_ w) ∧ log_processed_ txn = true ∧ safe = true) ∨
       (undo_buffer_ txn = [] ∧ txn ∈ q)) ∧
    (∀ txn, txn ∈ txns_to_deallocate_ (gc_ w) →
       (log_processed_ txn = true ∧ safe = true → txn ∈ deleted_txns evs) ∧
       (log_processed_ txn = false ∨ safe = false →
        txn ∈ txns_to_deallocate_ (gc_ res.2) ∧
        (undo_buffer_ txn ≠ [] → txn ∉ deleted_txns evs))) ∧
    (∀ d u, res.1 = Val (d, u) →
       (∀ txn, txn ∈ q → undo_buffer_ txn = [] → txn ∈ deleted_txns evs) ∧
       ∃ oldest3,
         oldest_answers evs !! 2%nat = Some oldest3 ∧
         (Z.of_nat (length (filter (λ t, fate oldest3 t ≠ Requeued) q)) < 2 ^ 32 →
          ∀ txn, txn ∈ q → fate oldest3 txn = Unlinked →
            ∃ pre now txn',
              evs = pre ++ EvGetTimestamp now :: (EvIndexGC <$> indexes_ (gc_ w)) ∧
              last_unlinked_ (gc_ res.2) = now ∧
              txn' ∈ txns_to_deallocate_ (gc_ res.2) ∧ unlinked_as txn txn' ∧
              (NewerThan oldest3 now = false → NewerThan now (TxnId txn) = true))).
Proof.
  intros res.
  destruct (deletions_in_period fuel w) as (evs & oldest & completed & Ht & Ho & Hc & Hdel & Hq).
  fold res in Ht, Hq. cbv zeta in Hdel, Hq.
  exists evs, oldest, completed.
  split; [done|]. split; [done|]. split; [done|]. cbv zeta.
  split; [exact Hdel|]. split; [exact Hq|].
  intros d u Hval.
  assert (Hrun : PerformGarbageCollection fuel w = (Val (d, u), res.2)).
  { rewrite <- Hval. apply surjective_pairing. }
  pose proof Hrun as Hrun'.
  apply period_trace in Hrun
    as (evs' & oldest1 & oldest2 & oldest3 & completed' & pushed & now & Ht' & Hoa & Hca &
        Hta & Hdeleted & _ & Hu & Hlast & Hdq & Hpushed & _).
  cbv zeta in *.
  rewrite Ht in Ht'. apply app_inv_head in Ht'. subst evs'.
  rewrite Hc in Hca. injection Hca as <-.
  set (q := completed ++ txns_to_unlink_ (gc_ w)) in *.
  split.
  { intros txn Hin Hempty. rewrite Hdeleted. apply elem_of_app. right.
    apply list_elem_of_filter. split; [|done]. unfold fate. by rewrite bool_decide_true. }
  exists oldest3. split; [by rewrite Hoa|].
  intros Hcount txn Hin Hfate.
  assert (Hpos : (0 <? u) = true).
  { rewrite Hu, uint32_count_pos by done. apply bool_decide_eq_true.
    intros Hlen. apply length_zero_iff_nil in Hlen.
    assert (Hf : txn ∈ filter (λ t, fate oldest3 t ≠ Requeued) q).
    { apply list_elem_of_filter. split; [by rewrite Hfate|done]. }
    rewrite Hlen in Hf. by apply elem_of_nil in Hf. }
  destruct (period_timestamp_is_last fuel w d u res.2 Hrun' Hpos) as (pre & now' & Ht'' & Hlast').
  rewrite Ht in Ht''. apply app_inv_head in Ht''.
  assert (Hrev : txn ∈ reverse (filter (λ t, fate oldest3 t = Unlinked) q)).
  { apply elem_of_reverse, list_elem_of_filter. done. }
  apply list_elem_of_lookup in Hrev as [i Hi].
  destruct (Forall2_lookup_l _ _ _ _ _ Hpushed Hi) as (txn' & Hi' & Hun).
  exists pre, now', txn'. split_and!; [done|done| |done|].
  - rewrite Hdq. apply elem_of_app. left. by eapply list_elem_of_lookup_2.
  - intros Hnow. apply (NewerThan_below oldest3); [|done].
    unfold fate in Hfate. case_bool_decide; [done|].
    by destruct (NewerThan oldest3 (TxnId txn)).
Qed.

Lemma C1_deallocation_conditions_witness :
  let res1 := PerformGarbageCollection 10 Examples.waiting_writer in
  let res2 := PerformGarbageCollection 10 Examples.three_completed in
  (log_processed_ Examples.writer = false ∧
   Examples.writer ∈ txns_to_deallocate_ (gc_ res1.2) ∧
   Examples.writer ∉ deleted_txns (trace_ res1.2)) ∧
  (res2.1 = Val (0, 2) ∧
   Examples.reader ∈ deleted_txns (trace_ res2.2) ∧
   NewerThan (last_unlinked_ (gc_ res2.2)) (TxnId Examples.writer) = true).
Proof.
  intros res1 res2. split.
  - split; [reflexivity|].
    destruct (C1_deallocation_conditions 10 Examples.waiting_writer)
      as (evs & oldest & completed & Ht & _ & _ & _ & Hkeep & _).
    fold res1 in Ht, Hkeep.
    assert (Hin : Examples.writer ∈ txns_to_deallocate_ (gc_ Examples.waiting_writer)).
    { cbn. left. }
    destruct (Hkeep Examples.writer Hin) as [_ Hstay].
    destruct Hstay as [Hq Hnot]; [by left|].
    split; [exact Hq|].
    change (trace_ res1.2 = [] ++ evs) in Ht. cbn [app] in Ht. rewrite Ht.
    by apply Hnot.
  - assert (Hval : res2.1 = Val (0, 2)) by (vm_compute; reflexivity).
    split; [exact Hval|].
    destruct (C1_deallocation_conditions 10 Examples.three_completed)
      as (evs & oldest & completed & Ht & _ & Hc & _ & _ & Hreturns).
    fold res2 in Ht, Hreturns.
    change (trace_ res2.2 = [] ++ evs) in Ht. cbn [app] in Ht.
    assert (Hcompleted : completed_answers (trace_ res2.2)
                         = [[Examples.reader; Examples.writer; Examples.late_writer]])
      by (vm_compute; reflexivity).
    assert (Holdest : oldest_answers (trace_ res2.2) = [15; 15; 15])
      by (vm_compute; reflexivity).
    rewrite Ht in Hcompleted, Holdest. rewrite Hc in Hcompleted. injection Hcompleted as ->.
    destruct (Hreturns 0 2 Hval) as (Hreaders & oldest3 & Ho3 & Hunlinked).
    rewrite Holdest in Ho3. injection Ho3 as <-.
    split.
    + rewrite Ht. apply Hreaders; [|reflexivity]. apply elem_of_cons. by left.
    + destruct (Hunlinked ltac:(vm_compute; reflexivity) Examples.writer)
        as (pre & now & txn' & _ & Hlast & _ & _ & Hnewer).
      * apply elem_of_cons. right. apply elem_of_cons. by left.
      * vm_compute. reflexivity.
      * rewrite Hlast. apply Hnewer.
        assert (Hnow : last_unlinked_ (gc_ res2.2) = 30) by (vm_compute; reflexivity).
        rewrite Hlast in Hnow. rewrite Hnow. vm_compute. reflexivity.
Defined.

(** [last_unlinked_] follows the 32-bit count that the unlink phase returns:
    a period that returns sets it to the timestamp that the manager gives
    after the unlink phase when the count is not zero, and leaves it alone,
    asking for no timestamp, when the count is zero.  The count is the number
    of transactions processed (deleted on the spot or unlinked) modulo
    [2 ^ 32]; below [2 ^ 32] processed transactions it is zero only when
    none was processed. *)
Lemma last_unlinked_update (fuel : nat) (w : World) (d u : Z) (w' : World) :
  PerformGarbageCollection fuel w = (Val (d, u), w') →
  ∃ evs oldest completed,
    trace_ w' = trace_ w ++ evs ∧
    oldest_answers evs !! 2%nat = Some oldest ∧
    completed_answers evs = [completed] ∧
    let processed :=
      filter (λ t, fate oldest t ≠ Requeued) (completed ++ txns_to_unlink_ (gc_ w)) in
    u = Z.of_nat (length processed) mod 2 ^ 32 ∧
    (u ≠ 0 → ∃ now, timestamp_answers evs = [now] ∧ last_unlinked_ (gc_ w') = now) ∧
    (u = 0 →
     timestamp_answers evs = [] ∧ last_unlinked_ (gc_ w') = last_unlinked_ (gc_ w)) ∧
    (Z.of_nat (length processed) < 2 ^ 32 → (u = 0 ↔ processed = [])).
Proof.
  intros Hrun.
  apply period_trace in Hrun
    as (evs & oldest1 & oldest2 & oldest3 & completed & pushed & now & Ht & Ho & Hc & Hts &
        _ & _ & Hu & Hlast & _).
  cbv zeta in *. exists evs, oldest3, completed.
  split; [done|]. split; [by rewrite Ho|]. split; [done|].
  set (processed := filter _ _) in *.
  assert (Hmod : u = Z.of_nat (length processed) mod 2 ^ 32).
  { rewrite Hu, uint32_incr_iter. destruct (decide _) as [->|_]; [done|].
    by rewrite Z.add_0_l. }
  assert (Hrange : 0 <= u) by (rewrite Hmod; apply Z.mod_pos_bound; lia).
  split; [done|]. split_and!.
  - intros Hne. assert ((0 <? u) = true) as Hpos by (apply Z.ltb_lt; lia).
    rewrite Hpos in Hlast, Hts. by exists now.
  - intros ->. done.
  - intros Hsmall. rewrite Hmod, Z.mod_small by lia. split.
    + intros Hz. apply length_zero_iff_nil. lia.
    + by intros ->.
Qed.

Lemma unlink_loop_read_only fuel oldest l n rq visited w :
  Forall (λ t, undo_buffer_ t = []) l →
  unlink_loop fuel oldest l n rq visited w =
    (Val (Nat.iter (length l) uint32_incr n, rq), add_events (EvDelete <$> l) w).
Proof.
  intros Hl. revert n w. induction Hl as [|t l Ht _ IH]; intros n w.
  { cbn. by rewrite add_events_nil. }
  cbn [unlink_loop]. rewrite bool_decide_true by done.
  rewrite run_bind, run_log. cbv beta iota. rewrite IH, add_events_app.
  cbn [length fmap list_fmap]. by rewrite Nat.iter_succ_r.
Qed.

Lemma ProcessUnlinkQueue_read_only fuel g tm s tr :
  Forall (λ t, undo_buffer_ t = []) (completed_txns_ tm) →
  txns_to_unlink_ g = [] →
  ProcessUnlinkQueue fuel (mkWorld g (mkShared tm s) [] tr) =
    (Val (Nat.iter (length (completed_txns_ tm)) uint32_incr 0),
     mkWorld (set_txns_to_unlink [] g)
       (mkShared (mkTransactionManager (oldest_start_time_ tm) (time_ tm) []
                    (tm_deferred_actions_ tm)) s)
       []
       (((tr ++ [EvOldestTransactionStartTime (oldest_start_time_ tm)]) ++
         [EvCompletedTransactionsForGC (completed_txns_ tm)]) ++
        (EvDelete <$> completed_txns_ tm))).
Proof.
  intros Hl Hu. unfold ProcessUnlinkQueue.
  rewrite run_bind, run_OldestTransactionStartTime.
  unfold after_interference, interfere, add_events. cbn.
  rewrite run_bind. unfold CompletedTransactionsForGC.
  rewrite run_bind, run_interfere. unfold after_interference, interfere. cbn.
  mred. rewrite Hu, app_nil_r, (unlink_loop_read_only _ _ _ _ _ _ _ Hl). reflexivity.
Qed.

Lemma read_only_period l :
  Forall (λ t, undo_buffer_ t = []) l →
  let u := Nat.iter (length l) uint32_incr 0 in
  ∃ w',
    PerformGarbageCollection 1 (read_only_completed l) = (Val (0, u), w') ∧
    deleted_txns (trace_ w') = l ∧
    timestamp_answers (trace_ w') = (if 0 <? u then [2 ^ 34] else []) ∧
    last_unlinked_ (gc_ w') = (if 0 <? u then 2 ^ 34 else 0).
Proof.
  intros Hl u. unfold PerformGarbageCollection.
  assert (H1 : ProcessDeferredActions (read_only_completed l) =
            (Val (), mkWorld Examples.fresh_collector
                       (mkShared (mkTransactionManager (2 ^ 34) (2 ^ 34) l [])
                          Examples.empty_store) []
                       [EvDeferredActionsForGC []; EvOldestTransactionStartTime (2 ^ 34)]))
    by (vm_compute; reflexivity).
  rewrite run_bind, H1. cbv beta iota.
  assert (H2 : ProcessDeallocateQueue
                 (mkWorld Examples.fresh_collector
                    (mkShared (mkTransactionManager (2 ^ 34) (2 ^ 34) l [])
                       Examples.empty_store) []
                    [EvDeferredActionsForGC []; EvOldestTransactionStartTime (2 ^ 34)]) =
            (Val 0, mkWorld Examples.fresh_collector
                       (mkShared (mkTransactionManager (2 ^ 34) (2 ^ 34) l [])
                          Examples.empty_store) []
                       [EvDeferredActionsForGC []; EvOldestTransactionStartTime (2 ^ 34);
                        EvOldestTransactionStartTime (2 ^ 34)]))
    by (vm_compute; reflexivity).
  rewrite run_bind, H2. cbv beta iota.
  rewrite run_bind,
    (ProcessUnlinkQueue_read_only 1 Examples.fresh_collector
       (mkTransactionManager (2 ^ 34) (2 ^ 34) l []) _ _ Hl eq_refl).
  cbv beta iota. cbn [completed_txns_ oldest_start_time_ time_ tm_deferred_actions_].
  fold u. rewrite run_bind.
  destruct (0 <? u).
  - rewrite run_bind, run_GetTimestamp. unfold after_interference, interfere, add_events.
    cbn [sched_ shared_ txn_manager_ time_ gc_ trace_ fst snd].
    rewrite run_bind. unfold get_gc at 1, put_gc at 1. cbv beta iota.
    rewrite run_bind, run_ProcessIndexes. cbv beta iota. rewrite run_ret.
    eexists. split; [reflexivity|]. cbn.
    split_and!; [| |done].
    + rewrite !omap_app. cbn. rewrite !app_nil_r. apply deleted_txns_fmap_delete.
    + rewrite !omap_app. cbn. by rewrite (omap_fmap_none _ EvDelete l).
  - rewrite run_ret. cbv beta iota.
    rewrite run_bind, run_ProcessIndexes. cbv beta iota. rewrite run_ret.
    eexists. split; [reflexivity|]. cbn.
    split_and!; [| |done].
    + rewrite !omap_app. cbn. rewrite !app_nil_r. apply deleted_txns_fmap_delete.
    + rewrite !omap_app. cbn. by rewrite (omap_fmap_none _ EvDelete l).
Qed.

Lemma readers_read_only n : Forall (λ t, undo_buffer_ t = []) (readers n).
Proof. unfold readers. apply Forall_fmap, Forall_forall. by intros i _. Qed.

Lemma readers_length n : length (readers n) = n.
Proof. unfold readers. by rewrite length_fmap, length_seq. Qed.

(** At a multiple of [2 ^ 32] the 32-bit counter is back at zero. *)
Lemma uint32_count_wraps (k : nat) : Z.of_nat k = 2 ^ 32 → Nat.iter k uint32_incr 0 = 0.
Proof.
  intros Hk. rewrite uint32_incr_iter. case_decide; [done|].
  by rewrite Z.add_0_l, Hk, Z.mod_same.
Qed.

(** C4 (defect of the code): the claim fails when the unlink phase
    processes [2 ^ 32] transactions.  The count that the phase returns is a [uint32_t] and is
    then back at zero, so [PerformGarbageCollection] does not ask for the
    current timestamp and leaves [last_unlinked_] as it was, although the
    phase has processed transactions.  Here the manager hands over [2 ^ 32]
    completed read-only transactions, all of which the unlink phase deletes;
    the current timestamp is [2 ^ 34] and [last_unlinked_] stays 0. *)
Theorem C4_counter_wraps :
  let w := readers_completed in
  ∃ w',
    PerformGarbageCollection 1 w = (Val (0, 0), w') ∧
    deleted_txns (trace_ w') = readers (Z.to_nat (2 ^ 32)) ∧
    reader_at 0 ∈ deleted_txns (trace_ w') ∧
    timestamp_answers (trace_ w') = [] ∧
    last_unlinked_ (gc_ w') = 0 ∧
    last_unlinked_ (gc_ w) = 0 ∧
    time_ (txn_manager_ (shared_ w)) = 2 ^ 34.
Proof.
  intros w. subst w. unfold readers_completed.
  assert (Hwrap : Nat.iter (length (readers (Z.to_nat (2 ^ 32)))) uint32_incr 0 = 0).
  { apply uint32_count_wraps. rewrite readers_length. apply Z2Nat.id. lia. }
  destruct (read_only_period (readers (Z.to_nat (2 ^ 32))) (readers_read_only _))
    as (w' & Hrun & Hdel & Hts & Hlast).
  rewrite Hwrap in Hrun, Hts, Hlast.
  exists w'. split; [exact Hrun|]. split; [exact Hdel|]. split.
  { rewrite Hdel. unfold readers. apply (list_elem_of_fmap_2 reader_at).
    apply elem_of_seq. lia. }
  split; [exact Hts|]. split; [exact Hlast|]. split; reflexivity.
Qed.



(** ** The write-ahead log *)

Lemma wal_run_snoc workload st : WAL.run (workload ++ [st]) = WAL.step (WAL.run workload) st.
Proof. unfold WAL.run. by rewrite foldl_app. Qed.

Lemma wal_redo_buffer_Some s t buf :
  WAL.redo_buffers_ s !! t = Some buf → WAL.redo_buffer s t = buf.
Proof. unfold WAL.redo_buffer. by intros ->. Qed.

Lemma wal_redo_buffer_cons s t r buf :
  WAL.redo_buffer s t = r :: buf → WAL.redo_buffers_ s !! t = Some (r :: buf).
Proof. unfold WAL.redo_buffer. destruct (_ !! t) as [b|]; cbn; [by intros ->|done]. Qed.

(** A workload without writes leaves every redo buffer, the flush queue and
    the log file empty. *)
Lemma wal_readers_leave_nothing workload :
  Forall (λ st, WAL.is_write_step st = false) workload →
  (∀ t buf, WAL.redo_buffers_ (WAL.run workload) !! t = Some buf → buf = []) ∧
  WAL.flush_queue_ (WAL.run workload) = [] ∧
  WAL.log_file_ (WAL.run workload) = [].
Proof.
  induction workload as [|st workload IH] using rev_ind; intros Hall.
  { split_and!; [|done..]. intros t buf. unfold WAL.run. cbn. by rewrite lookup_empty. }
  apply Forall_app in Hall as [Hall Hst]. apply Forall_inv in Hst.
  destruct (IH Hall) as (Hbuf & Hq & Hlog). clear IH. rewrite wal_run_snoc.
  set (s := WAL.run workload) in *.
  destruct st as [txn|txn slot|txn slot|txn slot|txn|txn|]; cbn [WAL.step].
  - split_and!; [|done..]. intros t buf. cbn. rewrite lookup_insert.
    case_decide; [by intros [= <-]|apply Hbuf].
  - by split_and!.
  - cbn in Hst. discriminate Hst.
  - cbn in Hst. discriminate Hst.
  - assert (Hempty : WAL.redo_buffer s txn = []).
    { unfold WAL.redo_buffer. destruct (_ !! txn) as [b|] eqn:Hb; [|done]. by apply Hbuf in Hb. }
    unfold WAL.Commit. rewrite Hempty. cbn. split_and!; [|done..].
    intros t buf. rewrite lookup_delete. case_decide; [done|apply Hbuf].
  - cbn. split_and!; [|done..].
    intros t buf. rewrite lookup_delete. case_decide; [done|apply Hbuf].
  - cbn. rewrite Hq, Hlog. done.
Qed.

(** Every COMMIT record on its way to the log was written by the commit of a
    transaction that wrote. *)
Lemma wal_commit_records workload :
  (∀ t buf, WAL.redo_buffers_ (WAL.run workload) !! t = Some buf →
     Forall (λ r, WAL.RecordType r ≠ WAL.COMMIT) buf ∧
     (buf ≠ [] → ∃ st, st ∈ workload ∧ WAL.writes_of t st = true)) ∧
  (∀ r, r ∈ concat (WAL.flush_queue_ (WAL.run workload)) ++ WAL.log_file_ (WAL.run workload) →
     WAL.RecordType r = WAL.COMMIT →
     (∃ st, st ∈ workload ∧ WAL.commit_of (WAL.TxnBegin r) st = true) ∧
     (∃ st, st ∈ workload ∧ WAL.writes_of (WAL.TxnBegin r) st = true)).
Proof.
  induction workload as [|st workload IH] using rev_ind.
  { split; [intros t buf; unfold WAL.run; cbn; by rewrite lookup_empty|].
    intros r Hr. by apply elem_of_nil in Hr. }
  destruct IH as [Hbuf Hrec]. rewrite wal_run_snoc.
  set (s := WAL.run workload) in *.
  assert (Hmono : ∀ (P : WAL.Step → Prop),
            (∃ st', st' ∈ workload ∧ P st') → ∃ st', st' ∈ workload ++ [st] ∧ P st').
  { intros P (st' & Hin & HP). exists st'. split; [|done]. apply elem_of_app. by left. }
  assert (Hbuf' : ∀ t buf, WAL.redo_buffers_ s !! t = Some buf →
            Forall (λ r, WAL.RecordType r ≠ WAL.COMMIT) buf ∧
            (buf ≠ [] → ∃ st', st' ∈ workload ++ [st] ∧ WAL.writes_of t st' = true)).
  { intros t buf Hb. destruct (Hbuf t buf Hb) as [Hf Hw]. split; [done|].
    intros Hne. by apply (Hmono (λ st', WAL.writes_of t st' = true)), Hw. }
  assert (Hrec' : ∀ r, r ∈ concat (WAL.flush_queue_ s) ++ WAL.log_file_ s →
            WAL.RecordType r = WAL.COMMIT →
            (∃ st', st' ∈ workload ++ [st] ∧ WAL.commit_of (WAL.TxnBegin r) st' = true) ∧
            (∃ st', st' ∈ workload ++ [st] ∧ WAL.writes_of (WAL.TxnBegin r) st' = true)).
  { intros r Hr Hc. destruct (Hrec r Hr Hc) as [H1 H2]. split.
    - by apply (Hmono (λ st', WAL.commit_of (WAL.TxnBegin r) st' = true)).
    - by apply (Hmono (λ st', WAL.writes_of (WAL.TxnBegin r) st' = true)). }
  assert (Hhere : st ∈ workload ++ [st]) by (apply elem_of_app; right; left).
  assert (Hwrite : ∀ txn r, WAL.RecordType r ≠ WAL.COMMIT → WAL.writes_of txn st = true →
            ∀ t buf,
              <[txn := WAL.redo_buffer s txn ++ [r]]> (WAL.redo_buffers_ s) !! t = Some buf →
              Forall (λ r, WAL.RecordType r ≠ WAL.COMMIT) buf ∧
              (buf ≠ [] → ∃ st', st' ∈ workload ++ [st] ∧ WAL.writes_of t st' = true)).
  { intros txn r Hr Hw t buf. rewrite lookup_insert. case_decide as Ht; [|apply Hbuf'].
    intros [= <-]. subst t. split; [|by intros _; exists st].
    apply Forall_app. split; [|by constructor].
    unfold WAL.redo_buffer. destruct (_ !! txn) as [b|] eqn:Hb; [|constructor].
    by apply Hbuf in Hb as [? _]. }
  destruct st as [txn|txn slot|txn slot|txn slot|txn|txn|]; cbn [WAL.step].
  - split; [|exact Hrec']. intros t buf. cbn. rewrite lookup_insert.
    case_decide; [by intros [= <-]|apply Hbuf'].
  - by split.
  - split; [|exact Hrec']. apply Hwrite; [done|]. cbn. by rewrite bool_decide_true.
  - split; [|exact Hrec']. apply Hwrite; [done|]. cbn. by rewrite bool_decide_true.
  - unfold WAL.Commit. destruct (WAL.redo_buffer s txn) as [|r0 buf0] eqn:Hb0.
    + cbn. split; [|exact Hrec']. intros t buf. rewrite lookup_delete.
      case_decide; [done|apply Hbuf'].
    + cbn. split.
      { intros t buf. rewrite lookup_delete. case_decide; [done|apply Hbuf']. }
      apply wal_redo_buffer_cons in Hb0. destruct (Hbuf' _ _ Hb0) as [Hnc Hw].
      intros r Hr Hc. rewrite concat_app in Hr. cbn in Hr. rewrite app_nil_r in Hr.
      rewrite <- app_assoc in Hr.
      apply elem_of_app in Hr as [Hr|Hr]; [apply Hrec'; [|done]; apply elem_of_app; by left|].
      apply elem_of_app in Hr as [Hr|Hr]; [|apply Hrec'; [|done]; apply elem_of_app; by right].
      change (r0 :: buf0 ++ [WAL.mkLogRecord WAL.COMMIT txn (WAL.next_time_ s) 0])
        with ((r0 :: buf0) ++ [WAL.mkLogRecord WAL.COMMIT txn (WAL.next_time_ s) 0]) in Hr.
      apply elem_of_app in Hr as [Hr|Hr].
      * rewrite Forall_forall in Hnc. by destruct (Hnc r Hr).
      * apply list_elem_of_singleton in Hr as ->. cbn. split.
        -- exists (WAL.StCommit txn). split; [done|]. cbn. by rewrite bool_decide_true.
        -- by apply Hw.
  - cbn. split; [|exact Hrec']. intros t buf. rewrite lookup_delete.
    case_decide; [done|apply Hbuf'].
  - cbn. split; [exact Hbuf'|]. intros r Hr. apply Hrec'.
    apply elem_of_app in Hr as [Hr|Hr]; apply elem_of_app; [by right|by left].
Qed.

(** C7: in the model of the log pipeline that follows the specification, a
    workload in which no transaction writes leaves the log file empty after
    [PersistAndStop], so the loop of the test counts no record; and in any
    workload, a COMMIT record in the log file belongs to a transaction that
    wrote and committed, so a read-only or aborted transaction has none. *)
Theorem C7_read_only_log_empty (workload : list WAL.Step) :
  (Forall (λ st, WAL.is_write_step st = false) workload →
   WAL.log_file_ (WAL.PersistAndStop (WAL.run workload)) = [] ∧
   WAL.log_records_count (WAL.log_file_ (WAL.PersistAndStop (WAL.run workload))) 0 = 0)
  ∧
  (∀ r, r ∈ WAL.log_file_ (WAL.PersistAndStop (WAL.run workload)) →
        WAL.RecordType r = WAL.COMMIT →
        (∃ st, st ∈ workload ∧ WAL.commit_of (WAL.TxnBegin r) st = true) ∧
        (∃ st, st ∈ workload ∧ WAL.writes_of (WAL.TxnBegin r) st = true)).
Proof.
  split.
  - intros Hall. destruct (wal_readers_leave_nothing workload Hall) as (_ & Hq & Hlog).
    unfold WAL.PersistAndStop, WAL.Process. cbn. by rewrite Hq, Hlog.
  - intros r Hr. destruct (wal_commit_records workload) as [_ Hrec]. apply Hrec.
    unfold WAL.PersistAndStop, WAL.Process in Hr. cbn in Hr.
    apply elem_of_app in Hr as [Hr|Hr]; apply elem_of_app; [by right|by left].
Qed.

Lemma C7_read_only_log_empty_witness :
  Forall (λ st, WAL.is_write_step st = false) WAL.readers_only ∧
  WAL.log_file_ (WAL.PersistAndStop (WAL.run WAL.readers_only)) = [] ∧
  WAL.log_records_count (WAL.log_file_ (WAL.PersistAndStop (WAL.run WAL.readers_only))) 0 = 0.
Proof.
  assert (Hall : Forall (λ st, WAL.is_write_step st = false) WAL.readers_only)
    by (repeat constructor).
  split; [exact Hall|]. exact (proj1 (C7_read_only_log_empty WAL.readers_only) Hall).
Defined.

(** ** Version chains without interference *)

Lemma version_chain_inj s h l l' : version_chain s h l → version_chain s h l' → l = l'.
Proof.
  intros Hl. revert l'. induction Hl as [|p r l Hr _ IH]; intros l' Hl'.
  - by inversion Hl'.
  - inversion Hl' as [|p' r' l'' Hr' Hl'']; subst. rewrite Hr in Hr'. injection Hr' as <-.
    f_equal. by apply IH.
Qed.

Lemma version_chain_suffix s h l1 p l2 :
  version_chain s h (l1 ++ p :: l2) → version_chain s (Some p) (p :: l2).
Proof.
  revert h. induction l1 as [|q l1 IH]; intros h Hl; cbn in Hl.
  - by inversion Hl; subst; econstructor.
  - inversion Hl; subst. by eapply IH.
Qed.

Lemma version_chain_NoDup s h l : version_chain s h l → NoDup l.
Proof.
  induction 1 as [|p r l Hr Hl IH]; constructor; [|done].
  intros Hin. apply list_elem_of_split in Hin as (l1 & l2 & ->).
  pose proof (version_chain_suffix _ _ _ _ _ Hl) as Hp.
  pose proof (version_chain_cons _ _ _ _ Hr Hl) as Hfull.
  pose proof (version_chain_inj _ _ _ _ Hp Hfull) as Heq.
  apply (f_equal length) in Heq. rewrite !length_cons, length_app, length_cons in Heq. lia.
Qed.

Lemma version_chain_lookup s h l p : version_chain s h l → p ∈ l → is_Some (undo_ s !! p).
Proof.
  induction 1 as [|q r l Hr Hl IH]; intros Hin.
  - by apply elem_of_nil in Hin.
  - apply elem_of_cons in Hin as [->|Hin]; [by exists r|by apply IH].
Qed.

Lemma version_chain_same_undo s s' h l :
  undo_ s' = undo_ s → version_chain s h l → version_chain s' h l.
Proof.
  intros Hu. induction 1 as [|p r l Hr Hl IH]; econstructor; [by rewrite Hu|done].
Qed.

Lemma version_chain_cut s h l1 c l2 :
  version_chain s h (l1 ++ c :: l2) → c ∉ l1 → version_chain (cut_after c s) h (l1 ++ [c]).
Proof.
  intros Hl Hc.
  destruct (version_chain_lookup _ _ _ c Hl) as [rc Hrc].
  { apply elem_of_app. right. apply elem_of_cons. by left. }
  unfold cut_after. rewrite Hrc.
  revert h Hl Hc. induction l1 as [|p l1 IH]; intros h Hl Hc; cbn in *.
  - inversion Hl; subst. econstructor; [cbn; apply lookup_insert_eq|]. cbn. constructor.
  - inversion Hl as [|? r ? Hr Hl']; subst.
    apply not_elem_of_cons in Hc as [Hne Hc].
    econstructor; [cbn; by rewrite lookup_insert_ne|]. by apply IH.
Qed.

Lemma version_chain_cut_any s c h l :
  version_chain s h l →
  ∃ l', version_chain (cut_after c s) h l' ∧ (length l' <= length l)%nat.
Proof.
  unfold cut_after. destruct (undo_ s !! c) as [rc|] eqn:Hrc; [|by exists l].
  induction 1 as [|p r l Hr Hl (l' & Hl' & Hlen)].
  - exists []. split; [constructor|done].
  - destruct (decide (p = c)) as [->|Hne].
    + exists [c]. split; [|cbn; lia].
      econstructor; [cbn; apply lookup_insert_eq|]. cbn. constructor.
    + exists (p :: l'). split; [|cbn; lia].
      econstructor; [cbn; by rewrite lookup_insert_ne|done].
Qed.

Lemma take_while_prefix {A} (f : A → bool) l : ∃ rest, l = take_while f l ++ rest.
Proof.
  induction l as [|x l [rest IH]]; [by exists []|]. cbn.
  destruct (f x); [|by exists (x :: l)]. exists rest. cbn. by f_equal.
Qed.

Lemma take_while_all {A} (f : A → bool) l :
  Forall (λ x, f x = true) l → take_while f l = l.
Proof. induction 1 as [|x l Hx _ IH]; [done|]. cbn. by rewrite Hx, IH. Qed.

Lemma take_while_stop {A} (f : A → bool) pre x post :
  Forall (λ x, f x = true) pre → f x = false → take_while f (pre ++ x :: post) = pre.
Proof.
  induction 1 as [|y pre Hy _ IH]; intros Hx; cbn.
  - by rewrite Hx.
  - by rewrite Hy, IH.
Qed.

Lemma visible_at_lookup s oldest p r :
  undo_ s !! p = Some r → visible_at s oldest p = negb (NewerThan oldest (Timestamp r)).
Proof. intros Hr. unfold visible_at, timestamp_at. by rewrite Hr. Qed.

(** Without interference the traversal of a well-formed chain ends: either
    every later record is kept, or it stops at the last record kept. *)
Lemma traverse_quiet_run fuel oldest g tm s tr curr l :
  version_chain s (Some curr) (curr :: l) →
  (length l < fuel)%nat →
  ∃ res evs,
    traverse fuel oldest curr (mkWorld g (mkShared tm s) [] tr) =
      (Val res, mkWorld g (mkShared tm s) [] (tr ++ evs)) ∧
    Forall (λ e, is_load e = true) evs ∧
    match res with
    | None => take_while (visible_at s oldest) l = l
    | Some c => ∃ n post, l = take_while (visible_at s oldest) l ++ n :: post ∧
                last (curr :: take_while (visible_at s oldest) l) = Some c
    end.
Proof.
  revert curr l tr. induction fuel as [|fuel IH]; intros curr l tr Hl Hlen; [lia|].
  inversion Hl as [|? r ? Hr Hl']; subst.
  cbn [traverse]. rewrite run_bind, run_load_Next.
  unfold after_interference, interfere. cbn. rewrite Hr. unfold add_events. cbn.
  inversion Hl' as [Hn|n rn l' Hrn Hl'' Hn]; subst.
  - exists None, [EvLoadNext curr None]. rewrite run_ret.
    split_and!; [done|by repeat constructor|done].
  - rewrite run_bind, run_load_Timestamp.
    unfold after_interference, interfere. cbn. rewrite Hrn. unfold add_events. cbn.
    rewrite (visible_at_lookup _ _ _ _ Hrn).
    destruct (NewerThan oldest (Timestamp rn)); cbn [negb].
    + exists (Some curr), [EvLoadNext curr (Some n); EvLoadTimestamp n (Timestamp rn)].
      rewrite run_ret, <- app_assoc.
      split_and!; [done|by repeat constructor|]. by exists n, l'.
    + cbn in Hlen.
      destruct (IH n l' ((tr ++ [EvLoadNext curr (Some n)]) ++ [EvLoadTimestamp n (Timestamp rn)]))
        as (res & evs & Hrun & Hloads & Hres); [by econstructor|lia|].
      exists res, (EvLoadNext curr (Some n) :: EvLoadTimestamp n (Timestamp rn) :: evs).
      rewrite Hrun. split_and!.
      * by rewrite <- !app_assoc.
      * by repeat constructor.
      * destruct res as [c|].
        -- destruct Hres as (n' & post & Heq & Hlast). exists n', post.
           split; [cbn; by f_equal|done].
        -- by f_equal.
Qed.

Lemma last_elem_of {A} (l : list A) x : last l = Some x → x ∈ l.
Proof.
  intros Hlast. apply last_Some in Hlast as [l' ->].
  apply elem_of_app. right. apply list_elem_of_singleton. done.
Qed.

(** Without interference, [TruncateVersionChain] on a well-formed chain
    returns after one execution of its body, and the store it leaves is the
    one in which the chain is cut down to its longest prefix of records that
    are not older than [oldest]. *)
Lemma truncate_quiet_run fuel table slot oldest g tm s tr l :
  version_chain s (version_ptr_ s !! slot) l →
  (length l < fuel)%nat →
  ∃ evs,
    TruncateVersionChain fuel table slot oldest (mkWorld g (mkShared tm s) [] tr) =
      (Val (),
       mkWorld g
         (mkShared tm (truncated_store s slot l (take_while (visible_at s oldest) l)))
         [] (tr ++ evs)) ∧
    Forall (λ e, is_chain_event e = true) evs.
Proof.
  intros Hl Hlen. destruct fuel as [|fuel]; [lia|].
  cbn [TruncateVersionChain]. rewrite run_bind, run_AtomicallyReadVersionPtr.
  unfold after_interference, interfere, add_events. cbn.
  destruct (version_ptr_ s !! slot) as [vp|] eqn:Hvp; inversion Hl as [|? r l' Hr Hl']; subst.
  2:{ exists [EvReadVersionPtr slot None]. rewrite run_ret. cbn.
      unfold truncated_store. rewrite bool_decide_true by done.
      split; [done|by repeat constructor]. }
  rewrite run_bind, run_load_Timestamp.
  unfold after_interference, interfere, add_events. cbn. rewrite Hr. cbn.
  rewrite (visible_at_lookup _ _ _ _ Hr).
  destruct (NewerThan oldest (Timestamp r)) eqn:Hnew; cbn [negb].
  { rewrite run_bind, run_CompareAndSwapVersionPtr.
    unfold after_interference, interfere, add_events. cbn.
    rewrite bool_decide_true by done. cbn. rewrite run_ret.
    exists [EvReadVersionPtr slot (Some vp); EvLoadTimestamp vp (Timestamp r);
            EvCompareAndSwapVersionPtr slot (Some vp) None true].
    unfold truncated_store. rewrite bool_decide_false by done. cbn.
    rewrite <- !app_assoc. split; [done|by repeat constructor]. }
  cbn in Hlen.
  destruct (traverse_quiet_run fuel oldest g tm s
              ((tr ++ [EvReadVersionPtr slot (Some vp)]) ++ [EvLoadTimestamp vp (Timestamp r)])
              vp l' Hl ltac:(lia)) as (res & evs & Hrun & Hloads & Hres).
  rewrite run_bind, Hrun. cbv beta iota.
  assert (Hchain : Forall (λ e, is_chain_event e = true) evs).
  { eapply Forall_impl; [exact Hloads|]. by intros []. }
  destruct res as [c|].
  2:{ rewrite run_ret, Hres. unfold truncated_store. rewrite bool_decide_true by done.
      exists (EvReadVersionPtr slot (Some vp) :: EvLoadTimestamp vp (Timestamp r) :: evs).
      rewrite <- !app_assoc. split; [done|by repeat constructor]. }
  destruct Hres as (n & post & Hsplit & Hlast).
  set (kept := take_while (visible_at s oldest) l') in *.
  assert (Hc : is_Some (undo_ s !! c)).
  { eapply version_chain_lookup; [exact Hl|].
    apply last_elem_of in Hlast. apply elem_of_cons in Hlast as [->|Hin].
    - apply elem_of_cons. by left.
    - apply elem_of_cons. right. rewrite Hsplit. apply elem_of_app. by left. }
  destruct Hc as [rc Hrc].
  assert (Hstore : truncated_store s slot (vp :: l') (vp :: kept) =
            mkStore (version_ptr_ s) (<[c := set_Next rc None]> (undo_ s)) (attrs_ s)).
  { unfold truncated_store. rewrite bool_decide_false.
    - rewrite Hlast. unfold cut_after. by rewrite Hrc.
    - intros [= Heq]. apply (f_equal length) in Hsplit.
      rewrite <- Heq, length_app, length_cons in Hsplit. lia. }
  rewrite Hstore.
  rewrite run_bind, run_store_Next. cbn. rewrite Hrc. cbv beta iota.
  case_bool_decide as Hcv.
  2:{ rewrite run_ret.
      exists (EvReadVersionPtr slot (Some vp) :: EvLoadTimestamp vp (Timestamp r) ::
              evs ++ [EvStoreNext c None]).
      split; [by rewrite <- !app_assoc|].
      repeat constructor. apply Forall_app. split; [done|by repeat constructor]. }
  subst c. rewrite Hr in Hrc. injection Hrc as <-.
  rewrite run_bind, run_load_Timestamp.
  unfold after_interference, interfere, add_events. cbn.
  rewrite lookup_insert_eq. cbn.
  destruct (Committed (Timestamp r)); cbn [negb].
  { rewrite run_ret.
    exists (EvReadVersionPtr slot (Some vp) :: EvLoadTimestamp vp (Timestamp r) ::
            evs ++ [EvStoreNext vp None; EvLoadTimestamp vp (Timestamp r)]).
    split; [by rewrite <- !app_assoc|].
    repeat constructor. apply Forall_app. split; [done|by repeat constructor]. }
  rewrite run_bind, run_AtomicallyReadVersionPtr.
  unfold after_interference, interfere, add_events. cbn. rewrite Hvp.
  rewrite bool_decide_false by (by intros []). rewrite run_ret.
  exists (EvReadVersionPtr slot (Some vp) :: EvLoadTimestamp vp (Timestamp r) ::
          evs ++ [EvStoreNext vp None; EvLoadTimestamp vp (Timestamp r);
                  EvReadVersionPtr slot (Some vp)]).
  split; [by rewrite <- !app_assoc|].
  repeat constructor. apply Forall_app. split; [done|by repeat constructor].
Qed.

Lemma cut_after_version_ptr c s : version_ptr_ (cut_after c s) = version_ptr_ s.
Proof. unfold cut_after. by destruct (undo_ s !! c). Qed.

Lemma cut_after_attrs c s : attrs_ (cut_after c s) = attrs_ s.
Proof. unfold cut_after. by destruct (undo_ s !! c). Qed.

Lemma cut_after_timestamp c s p : timestamp_at (cut_after c s) p = timestamp_at s p.
Proof.
  unfold cut_after, timestamp_at. destruct (undo_ s !! c) as [rc|] eqn:Hrc; [|done]. cbn.
  destruct (decide (p = c)) as [->|Hne].
  - by rewrite lookup_insert_eq, Hrc.
  - by rewrite lookup_insert_ne.
Qed.

Lemma truncated_store_cases s slot l kept :
  truncated_store s slot l kept = s ∨
  truncated_store s slot l kept = write_version_ptr slot None s ∨
  ∃ c, truncated_store s slot l kept = cut_after c s.
Proof.
  unfold truncated_store. case_bool_decide; [by left|].
  destruct (last kept) as [c|]; [right; right; by exists c|right; by left].
Qed.

Lemma truncated_store_chain {f : undo_ptr → bool} s slot l :
  version_chain s (version_ptr_ s !! slot) l →
  let s' := truncated_store s slot l (take_while f l) in
  version_chain s' (version_ptr_ s' !! slot) (take_while f l).
Proof.
  intros Hl. cbv zeta. unfold truncated_store. case_bool_decide as Hall.
  { by rewrite Hall. }
  destruct (last (take_while f l)) as [c|] eqn:Hlast.
  - apply last_Some in Hlast as [l1 Hkept].
    destruct (take_while_prefix f l) as [rest Hsplit].
    destruct rest as [|n post].
    { rewrite app_nil_r in Hsplit. by destruct Hall. }
    rewrite Hkept in Hsplit |- *. rewrite <- app_assoc in Hsplit. cbn in Hsplit.
    rewrite cut_after_version_ptr. rewrite Hsplit in Hl.
    eapply version_chain_cut; [exact Hl|].
    apply version_chain_NoDup in Hl. apply NoDup_app in Hl as (_ & Hdisj & _).
    intros Hin. apply (Hdisj c Hin). apply elem_of_cons. by left.
  - apply last_None in Hlast. rewrite Hlast. cbn. rewrite lookup_delete_eq. constructor.
Qed.

Lemma truncated_store_bounded {f : undo_ptr → bool} s slot l k :
  chains_bounded s k → chains_bounded (truncated_store s slot l (take_while f l)) k.
Proof.
  intros Hb slot'. destruct (Hb slot') as (l2 & Hl2 & Hlen).
  destruct (truncated_store_cases s slot l (take_while f l)) as [->|[->|[c ->]]].
  - by exists l2.
  - cbn. destruct (decide (slot' = slot)) as [->|Hne].
    + rewrite lookup_delete_eq. exists []. split; [constructor|cbn; lia].
    + rewrite lookup_delete_ne by done. exists l2. split; [|done].
      by eapply version_chain_same_undo; [|exact Hl2].
  - rewrite cut_after_version_ptr.
    destruct (version_chain_cut_any s c _ _ Hl2) as (l2' & Hl2' & Hlen').
    exists l2'. split; [done|lia].
Qed.

Lemma truncated_store_frame s slot l kept :
  let s' := truncated_store s slot l kept in
  attrs_ s' = attrs_ s ∧
  (∀ slot', slot' ≠ slot → version_ptr_ s' !! slot' = version_ptr_ s !! slot') ∧
  (∀ p, timestamp_at s' p = timestamp_at s p).
Proof.
  cbv zeta. destruct (truncated_store_cases s slot l kept) as [->|[->|[c ->]]].
  - done.
  - split_and!; [done| |done]. intros slot' Hne. cbn. by rewrite lookup_delete_ne.
  - rewrite cut_after_version_ptr, cut_after_attrs. split_and!; [done|done|].
    apply cut_after_timestamp.
Qed.

(** ** Sorted chains *)

Lemma filter_none {A} (P : A → Prop) `{∀ x, Decision (P x)} (l : list A) :
  Forall (λ x, ¬ P x) l → filter P l = [].
Proof.
  induction 1 as [|x l Hx _ IH]; [done|]. rewrite filter_cons. by rewrite decide_False.
Qed.

Lemma take_while_newest_first s oldest l :
  newest_first s l →
  take_while (visible_at s oldest) l = filter (λ p, visible_at s oldest p = true) l.
Proof.
  unfold newest_first. induction 1 as [|p l Hsorted IH Hall]; [done|].
  cbn [take_while]. rewrite filter_cons.
  destruct (visible_at s oldest p) eqn:Hp.
  - rewrite decide_True by done. by rewrite IH.
  - rewrite decide_False by done. symmetry. apply filter_none.
    eapply Forall_impl; [exact Hall|]. intros q Hq Hvis. cbv beta in Hq.
    unfold visible_at in Hp, Hvis.
    apply negb_false_iff in Hp. apply negb_true_iff in Hvis.
    by rewrite (NewerThan_order _ _ _ Hp Hq) in Hvis.
Qed.

(** X1: with no other thread running, [TruncateVersionChain] on a chain that
    ends after fewer than [fuel] records returns without calling itself
    again, and leaves as the chain of the slot the longest prefix of records
    that are not older than [oldest].  The version pointer becomes null when
    the head itself is older, the next pointer of the last record kept
    becomes null when a later record is older, and nothing is written when no
    record is older.  The tuples, the timestamps, the version pointers of
    the other slots, the collector and the transaction manager are left as
    they were. *)
Theorem TruncateVersionChain_cuts_at_first_old_version (fuel : nat) (table : DataTable)
    (slot : TupleSlot) (oldest : timestamp_t) (w : World) (l : list undo_ptr) :
  sched_ w = [] →
  version_chain (store_ (shared_ w)) (version_ptr_ (store_ (shared_ w)) !! slot) l →
  (length l < fuel)%nat →
  ∃ w',
    TruncateVersionChain fuel table slot oldest w = (Val (), w') ∧
    let s := store_ (shared_ w) in
    let s' := store_ (shared_ w') in
    let kept := take_while (visible_at s oldest) l in
    s' = truncated_store s slot l kept ∧
    version_chain s' (version_ptr_ s' !! slot) kept ∧
    attrs_ s' = attrs_ s ∧
    (∀ slot', slot' ≠ slot → version_ptr_ s' !! slot' = version_ptr_ s !! slot') ∧
    (∀ p, timestamp_at s' p = timestamp_at s p) ∧
    gc_ w' = gc_ w ∧ sched_ w' = [] ∧ txn_manager_ (shared_ w') = txn_manager_ (shared_ w).
Proof.
  destruct w as [g [tm s] sc tr]. cbn. intros -> Hl Hlen.
  destruct (truncate_quiet_run fuel table slot oldest g tm s tr l Hl Hlen) as (evs & Hrun & _).
  eexists. split; [exact Hrun|]. cbn.
  destruct (truncated_store_frame s slot l (take_while (visible_at s oldest) l))
    as (Hattrs & Hother & Hts).
  split_and!; [done| |done|done|done|done|done|done].
  by apply truncated_store_chain.
Qed.

Lemma TruncateVersionChain_cuts_at_first_old_version_witness :
  let w := Examples.quiet_chain in
  let s := store_ (shared_ w) in
  (sched_ w = [] ∧
   version_chain s (version_ptr_ s !! 100) [1; 2; 3]%positive ∧
   (length [1; 2; 3]%positive < 4)%nat) ∧
  ∃ w',
    TruncateVersionChain 4 Examples.a_table 100 15 w = (Val (), w') ∧
    version_chain (store_ (shared_ w')) (version_ptr_ (store_ (shared_ w')) !! 100)
      [1; 2]%positive.
Proof.
  intros w s.
  assert (Hq : sched_ w = []) by reflexivity.
  assert (Hl : version_chain s (version_ptr_ s !! 100) [1; 2; 3]%positive).
  { change (version_ptr_ s !! 100) with (Some 1%positive).
    apply (version_chain_cons s 1%positive
             (mkUndoRecord UPDATE Examples.running_ts (Some 2%positive)
                (Some Examples.a_table) 100 Examples.no_delta)); [reflexivity|].
    apply (version_chain_cons s 2%positive
             (mkUndoRecord UPDATE 20 (Some 3%positive) (Some Examples.a_table) 100
                Examples.no_delta)); [reflexivity|].
    apply (version_chain_cons s 3%positive
             (mkUndoRecord UPDATE 10 None (Some Examples.a_table) 100 Examples.no_delta));
      [reflexivity|].
    apply version_chain_nil. }
  assert (Hlen : (length [1; 2; 3]%positive < 4)%nat) by (cbn; lia).
  split; [done|].
  destruct (TruncateVersionChain_cuts_at_first_old_version 4 Examples.a_table 100 15 w _
              Hq Hl Hlen) as (w' & Hrun & _ & Hkept & _).
  exists w'. split; [exact Hrun|exact Hkept].
Defined.

(** X2: with no other thread running, on a chain that ends after fewer
    than [fuel] records and is sorted from the newest version to the oldest,
    the records that [TruncateVersionChain] leaves in the chain are exactly
    the records that are not older than [oldest], in their order: no version
    that a running transaction may still read is cut off, and every older
    version is. *)
Theorem TruncateVersionChain_keeps_visible_versions (fuel : nat) (table : DataTable)
    (slot : TupleSlot) (oldest : timestamp_t) (w : World) (l : list undo_ptr) :
  sched_ w = [] →
  version_chain (store_ (shared_ w)) (version_ptr_ (store_ (shared_ w)) !! slot) l →
  newest_first (store_ (shared_ w)) l →
  (length l < fuel)%nat →
  ∃ w',
    TruncateVersionChain fuel table slot oldest w = (Val (), w') ∧
    let s := store_ (shared_ w) in
    let s' := store_ (shared_ w') in
    version_chain s' (version_ptr_ s' !! slot)
      (filter (λ p, NewerThan oldest (timestamp_at s p) = false) l).
Proof.
  destruct w as [g [tm s] sc tr]. cbn. intros -> Hl Hsorted Hlen.
  destruct (truncate_quiet_run fuel table slot oldest g tm s tr l Hl Hlen) as (evs & Hrun & _).
  eexists. split; [exact Hrun|]. cbn.
  pose proof (truncated_store_chain (f := visible_at s oldest) s slot l Hl) as Hkept.
  cbv zeta in Hkept.
  erewrite (list_filter_iff _ (λ p, visible_at s oldest p = true)).
  - rewrite <- (take_while_newest_first _ _ _ Hsorted). exact Hkept.
  - intros p. unfold visible_at. by rewrite negb_true_iff.
Qed.

Lemma TruncateVersionChain_keeps_visible_versions_witness :
  let w := Examples.quiet_chain in
  let s := store_ (shared_ w) in
  (sched_ w = [] ∧
   version_chain s (version_ptr_ s !! 100) [1; 2; 3]%positive ∧
   newest_first s [1; 2; 3]%positive ∧
   (length [1; 2; 3]%positive < 4)%nat) ∧
  ∃ w',
    TruncateVersionChain 4 Examples.a_table 100 15 w = (Val (), w') ∧
    version_chain (store_ (shared_ w')) (version_ptr_ (store_ (shared_ w')) !! 100)
      [1; 2]%positive.
Proof.
  intros w s.
  assert (Hq : sched_ w = []) by reflexivity.
  assert (Hl : version_chain s (version_ptr_ s !! 100) [1; 2; 3]%positive).
  { change (version_ptr_ s !! 100) with (Some 1%positive).
    apply (version_chain_cons s 1%positive
             (mkUndoRecord UPDATE Examples.running_ts (Some 2%positive)
                (Some Examples.a_table) 100 Examples.no_delta)); [reflexivity|].
    apply (version_chain_cons s 2%positive
             (mkUndoRecord UPDATE 20 (Some 3%positive) (Some Examples.a_table) 100
                Examples.no_delta)); [reflexivity|].
    apply (version_chain_cons s 3%positive
             (mkUndoRecord UPDATE 10 None (Some Examples.a_table) 100 Examples.no_delta));
      [reflexivity|].
    apply version_chain_nil. }
  assert (Hsorted : newest_first s [1; 2; 3]%positive).
  { unfold newest_first. repeat constructor; vm_compute; reflexivity. }
  assert (Hlen : (length [1; 2; 3]%positive < 4)%nat) by (cbn; lia).
  split; [done|].
  destruct (TruncateVersionChain_keeps_visible_versions 4 Examples.a_table 100 15 w _
              Hq Hl Hsorted Hlen) as (w' & Hrun & Hkept).
  exists w'. split; [exact Hrun|exact Hkept].
Defined.

(** ** What [TruncateVersionChain] writes, whatever the other threads do *)

Lemma emits_ret {A} P (a : A) : emits P (mret a : M A).
Proof. intros w o w' [= <- <-]. exists []. by rewrite app_nil_r. Qed.

Lemma emits_out_of_fuel {A} P : emits P (out_of_fuel : M A).
Proof. intros w o w' [= <- <-]. exists []. by rewrite app_nil_r. Qed.

Lemma emits_bind {A B} P (m : M A) (f : A → M B) :
  emits P m → (∀ a, emits P (f a)) → emits P (m ≫= f).
Proof.
  intros Hm Hf w o w' Hrun.
  apply bind_inv in Hrun as [(a & w1 & Hrun1 & Hrun2)|[(k & Hrun1 & _)|[Hrun1 _]]].
  - destruct (Hm _ _ _ Hrun1) as (evs1 & Ht1 & HP1).
    destruct (Hf a _ _ _ Hrun2) as (evs2 & Ht2 & HP2).
    exists (evs1 ++ evs2). rewrite Ht2, Ht1, <- app_assoc. split; [done|].
    apply Forall_app. done.
  - by apply Hm in Hrun1.
  - by apply Hm in Hrun1.
Qed.

Lemma emits_AtomicallyReadVersionPtr (P : Event → Prop) slot :
  (∀ r, P (EvReadVersionPtr slot r)) → emits P (AtomicallyReadVersionPtr slot).
Proof.
  intros HP w o w' Hrun. rewrite run_AtomicallyReadVersionPtr in Hrun.
  injection Hrun as <- <-. eexists [_]. cbn. rewrite after_interference_trace.
  split; [done|]. repeat constructor. apply HP.
Qed.

Lemma emits_CompareAndSwapVersionPtr (P : Event → Prop) slot expected desired :
  (∀ ok, P (EvCompareAndSwapVersionPtr slot expected desired ok)) →
  emits P (CompareAndSwapVersionPtr slot expected desired).
Proof.
  intros HP w o w' Hrun. rewrite run_CompareAndSwapVersionPtr in Hrun. cbv zeta in Hrun.
  case_bool_decide; injection Hrun as <- <-; eexists [_]; cbn;
    rewrite after_interference_trace; (split; [done|]); repeat constructor; apply HP.
Qed.

Lemma emits_load_Timestamp (P : Event → Prop) p :
  (∀ t, P (EvLoadTimestamp p t)) → emits P (load_Timestamp p).
Proof.
  intros HP w o w' Hrun. rewrite run_load_Timestamp in Hrun. cbv zeta in Hrun.
  destruct (undo_ _ !! p); injection Hrun as <- <-.
  - eexists [_]. cbn. rewrite after_interference_trace.
    split; [done|]. repeat constructor. apply HP.
  - exists []. by rewrite app_nil_r, after_interference_trace.
Qed.

Lemma emits_load_Next (P : Event → Prop) p :
  (∀ v, P (EvLoadNext p v)) → emits P (load_Next p).
Proof.
  intros HP w o w' Hrun. rewrite run_load_Next in Hrun. cbv zeta in Hrun.
  destruct (undo_ _ !! p); injection Hrun as <- <-.
  - eexists [_]. cbn. rewrite after_interference_trace.
    split; [done|]. repeat constructor. apply HP.
  - exists []. by rewrite app_nil_r, after_interference_trace.
Qed.

Lemma emits_store_Next (P : Event → Prop) p v :
  P (EvStoreNext p v) → emits P (store_Next p v).
Proof.
  intros HP w o w' Hrun. rewrite run_store_Next in Hrun. cbv zeta in Hrun.
  destruct (undo_ _ !! p); injection Hrun as <- <-.
  - eexists [_]. cbn. split; [done|]. by repeat constructor.
  - exists []. by rewrite app_nil_r.
Qed.

Lemma emits_traverse (P : Event → Prop) fuel oldest curr :
  (∀ p v, P (EvLoadNext p v)) → (∀ p t, P (EvLoadTimestamp p t)) →
  emits P (traverse fuel oldest curr).
Proof.
  intros HN HT. revert curr. induction fuel as [|fuel IH]; intros curr; cbn [traverse].
  { apply emits_out_of_fuel. }
  apply emits_bind; [by apply emits_load_Next|]. intros [n|]; [|apply emits_ret].
  apply emits_bind; [by apply emits_load_Timestamp|]. intros ts.
  destruct (NewerThan oldest ts); [apply emits_ret|apply IH].
Qed.

(** X3: whatever the other threads do and however often it restarts,
    [TruncateVersionChain] only shortens the chain of its slot.  It reads
    the version pointer of that slot and no other; the only compare-and-swap
    it attempts replaces a record at the head of that slot by null; the only
    store it makes puts null into a next pointer; it never links a record,
    deallocates a slot or deletes a transaction. *)
Theorem TruncateVersionChain_only_shortens (fuel : nat) (table : DataTable) (slot : TupleSlot)
    (oldest : timestamp_t) (w : World) :
  ∃ evs,
    trace_ (TruncateVersionChain fuel table slot oldest w).2 = trace_ w ++ evs ∧
    Forall (λ e, shortens_chain slot e = true) evs.
Proof.
  cut (emits (λ e, shortens_chain slot e = true)
         (TruncateVersionChain fuel table slot oldest)).
  { intros Hemits. exact (Hemits w _ _ (surjective_pairing _)). }
  clear w.
  assert (Hread : ∀ r, shortens_chain slot (EvReadVersionPtr slot r) = true).
  { intros r. cbn. by rewrite bool_decide_true. }
  induction fuel as [|fuel IH]; cbn [TruncateVersionChain].
  { apply emits_out_of_fuel. }
  apply emits_bind; [by apply emits_AtomicallyReadVersionPtr|].
  intros [vp|]; [|apply emits_ret].
  apply emits_bind; [by apply emits_load_Timestamp|]. intros ts.
  destruct (NewerThan oldest ts).
  { apply emits_bind.
    - apply emits_CompareAndSwapVersionPtr. intros ok. cbn. by rewrite bool_decide_true.
    - intros []; cbn [negb]; [apply emits_ret|apply IH]. }
  apply emits_bind; [by apply emits_traverse|]. intros [curr|]; [|apply emits_ret].
  apply emits_bind; [by apply emits_store_Next|]. intros _.
  case_bool_decide; [|apply emits_ret].
  apply emits_bind; [by apply emits_load_Timestamp|]. intros ts'.
  destruct (negb (Committed ts')); [|apply emits_ret].
  apply emits_bind; [by apply emits_AtomicallyReadVersionPtr|]. intros head.
  case_bool_decide; [apply IH|apply emits_ret].
Qed.

(** ** A collection period without interference *)

Lemma reclaim_quiet u txn w :
  (Aborted txn = false → is_Some (Table u)) →
  ∃ txn' evs,
    (if negb (Aborted txn) then ReclaimSlotIfDeleted u;; ReclaimBufferIfVarlen txn u
     else mret txn) w = (Val txn', add_events evs w) ∧
    Aborted txn' = Aborted txn.
Proof.
  intros Hnull. destruct (Aborted txn) eqn:Hab; cbn [negb].
  { exists txn, []. by rewrite run_ret, add_events_nil. }
  destruct (Hnull eq_refl) as [table Htable].
  rewrite run_bind. unfold ReclaimSlotIfDeleted. rewrite Htable.
  destruct (Type_ u).
  - rewrite run_ret. cbv beta iota. rewrite (ReclaimBufferIfVarlen_run _ _ _ _ Htable).
    eexists _, []. by rewrite add_events_nil.
  - rewrite run_ret. cbv beta iota. rewrite (ReclaimBufferIfVarlen_run _ _ _ _ Htable).
    eexists _, []. by rewrite add_events_nil.
  - rewrite run_log. cbv beta iota. rewrite (ReclaimBufferIfVarlen_run _ _ _ _ Htable).
    eexists _, [_]. done.
Qed.

(** The unlink phase keeps every property [J] of the visited slots and the
    store that implies that chains are shorter than [fuel] and that
    truncating the chain of a slot not yet visited keeps. *)
Section quiet_unlink.

Context (fuel : nat) (oldest : timestamp_t) (J : gset Z → Store → Prop).
Hypothesis J_bounded : ∀ visited s, J visited s → chains_bounded s fuel.
Hypothesis J_truncate : ∀ visited s slot l,
  J visited s → slot ∉ visited → version_chain s (version_ptr_ s !! slot) l →
  J ({[slot]} ∪ visited) (truncated_store s slot l (take_while (visible_at s oldest) l)).

Lemma unlink_record_quiet u visited txn w :
  sched_ w = [] → J visited (store_ (shared_ w)) →
  (Aborted txn = false → is_Some (Table u)) →
  ∃ txn' w',
    unlink_record fuel oldest u visited txn w = (Val (visit visited u, txn'), w') ∧
    sched_ w' = [] ∧ J (visit visited u) (store_ (shared_ w')) ∧
    gc_ w' = gc_ w ∧ txn_manager_ (shared_ w') = txn_manager_ (shared_ w) ∧
    Aborted txn' = Aborted txn.
Proof.
  intros Hq HJ Hnull. unfold unlink_record. rewrite run_bind.
  assert (Hfirst : ∃ w1,
    (match Table u with
     | Some table =>
         if bool_decide (Slot u ∈ visited) then mret visited
         else
           log (EvTruncate (Slot u) oldest);;
           TruncateVersionChain fuel table (Slot u) oldest;;
           mret ({[Slot u]} ∪ visited)
     | None => mret visited
     end) w = (Val (visit visited u), w1) ∧
    sched_ w1 = [] ∧ J (visit visited u) (store_ (shared_ w1)) ∧ gc_ w1 = gc_ w ∧
    txn_manager_ (shared_ w1) = txn_manager_ (shared_ w)).
  { unfold visit. destruct (Table u) as [table|]; [|by exists w].
    case_bool_decide as Hin.
    { assert ({[Slot u]} ∪ visited = visited) as ->.
      { apply subseteq_union_1_L. by apply singleton_subseteq_l. }
      by exists w. }
    destruct w as [g [tm s] sc tr]. cbn in Hq, HJ. subst sc.
    rewrite run_bind, run_log. unfold add_events. cbn.
    destruct (J_bounded _ _ HJ (Slot u)) as (l & Hl & Hlen).
    destruct (truncate_quiet_run fuel table (Slot u) oldest g tm s
                (tr ++ [EvTruncate (Slot u) oldest]) l Hl Hlen) as (evs & Hrun & _).
    rewrite run_bind, Hrun. cbv beta iota. rewrite run_ret.
    eexists. split; [reflexivity|]. cbn. split_and!; [done| |done|done].
    by apply J_truncate. }
  destruct Hfirst as (w1 & -> & Hq1 & HJ1 & Hg1 & Htm1). cbv beta iota.
  destruct (reclaim_quiet u txn w1 Hnull) as (txn' & evs & Hrun & Hab).
  rewrite run_bind, Hrun. cbv beta iota. rewrite run_ret.
  exists txn', (add_events evs w1). done.
Qed.

Lemma unlink_records_quiet us visited txn w :
  sched_ w = [] → J visited (store_ (shared_ w)) →
  (Aborted txn = false → Forall (λ u, is_Some (Table u)) us) →
  ∃ txn' w',
    unlink_records fuel oldest us visited txn w = (Val (foldl visit visited us, txn'), w') ∧
    sched_ w' = [] ∧ J (foldl visit visited us) (store_ (shared_ w')) ∧
    txn_manager_ (shared_ w') = txn_manager_ (shared_ w).
Proof.
  revert visited txn w. induction us as [|u us IH]; intros visited txn w Hq HJ Hnull.
  { by exists txn, w. }
  cbn [unlink_records foldl].
  destruct (unlink_record_quiet u visited txn w Hq HJ)
    as (txn1 & w1 & Hrun1 & Hq1 & HJ1 & Hg1 & Htm1 & Hab1).
  { intros Hab. by apply Forall_inv in Hnull. }
  rewrite run_bind, Hrun1. cbv beta iota.
  destruct (IH (visit visited u) txn1 w1 Hq1 HJ1) as (txn2 & w2 & Hrun2 & Hq2 & HJ2 & Htm2).
  { rewrite Hab1. intros Hab. by apply Forall_inv_tail in Hnull. }
  exists txn2, w2. rewrite Hrun2. split_and!; [done..|]. by rewrite Htm2.
Qed.

Lemma unlink_loop_quiet q n rq visited w :
  sched_ w = [] → J visited (store_ (shared_ w)) →
  Forall (λ t, Aborted t = false → Forall (λ u, is_Some (Table u)) (undo_buffer_ t)) q →
  ∃ res w',
    unlink_loop fuel oldest q n rq visited w = (Val res, w') ∧
    sched_ w' = [] ∧ J (visited_after oldest visited q) (store_ (shared_ w')) ∧
    txn_manager_ (shared_ w') = txn_manager_ (shared_ w).
Proof.
  revert n rq visited w. induction q as [|txn q IH]; intros n rq visited w Hq HJ Hnull.
  { by exists (n, rq), w. }
  apply Forall_cons in Hnull as [Hnull Hrest]. cbn [unlink_loop visited_after].
  unfold fate. case_bool_decide.
  { rewrite run_bind, run_log. cbv beta iota.
    destruct (IH (uint32_incr n) rq visited (add_events [EvDelete txn] w))
      as (res & w2 & Hrun2 & Hq2 & HJ2 & Htm2); [done..|].
    by exists res, w2. }
  destruct (NewerThan oldest (TxnId txn)); [|by apply IH].
  destruct (unlink_records_quiet (undo_buffer_ txn) visited txn w Hq HJ Hnull)
    as (txn1 & w1 & Hrun1 & Hq1 & HJ1 & Htm1).
  rewrite run_bind, Hrun1. cbv beta iota.
  rewrite run_bind. unfold push_front_txns_to_deallocate at 1.
  rewrite run_bind. unfold get_gc at 1, put_gc at 1. cbv beta iota.
  destruct (IH (uint32_incr n) rq (foldl visit visited (undo_buffer_ txn))
              (mkWorld (set_txns_to_deallocate (txn1 :: txns_to_deallocate_ (gc_ w1)) (gc_ w1))
                 (shared_ w1) (sched_ w1) (trace_ w1)))
    as (res & w2 & Hrun2 & Hq2 & HJ2 & Htm2); [done..|].
  exists res, w2. rewrite Hrun2. split_and!; [done..|]. by rewrite Htm2.
Qed.

End quiet_unlink.

Lemma ProcessUnlinkQueue_quiet fuel (J : gset Z → Store → Prop) w :
  let oldest := oldest_start_time_ (txn_manager_ (shared_ w)) in
  let q := completed_txns_ (txn_manager_ (shared_ w)) ++ txns_to_unlink_ (gc_ w) in
  (∀ visited s, J visited s → chains_bounded s fuel) →
  (∀ visited s slot l,
     J visited s → slot ∉ visited → version_chain s (version_ptr_ s !! slot) l →
     J ({[slot]} ∪ visited) (truncated_store s slot l (take_while (visible_at s oldest) l))) →
  sched_ w = [] → J ∅ (store_ (shared_ w)) →
  Forall (λ t, Aborted t = false → Forall (λ u, is_Some (Table u)) (undo_buffer_ t)) q →
  ∃ n w',
    ProcessUnlinkQueue fuel w = (Val n, w') ∧
    sched_ w' = [] ∧ J (visited_after oldest ∅ q) (store_ (shared_ w')).
Proof.
  destruct w as [g [tm s] sc tr]. cbn. intros Hb Hstep -> HJ Hnull.
  unfold ProcessUnlinkQueue.
  rewrite run_bind, run_OldestTransactionStartTime.
  unfold after_interference, interfere, add_events. cbn.
  rewrite run_bind. unfold CompletedTransactionsForGC.
  rewrite run_bind, run_interfere. unfold after_interference, interfere. cbn.
  mred.
  match goal with
  | |- context [unlink_loop fuel ?o ?q ?n ?rq ?v ?w] =>
      destruct (unlink_loop_quiet fuel o J Hb Hstep q n rq v w)
        as ([n' rq'] & w' & Hrun & Hq' & HJ' & _); [done|done|done|]
  end.
  rewrite Hrun. cbn. eexists _, _. split; [reflexivity|]. done.
Qed.

Lemma ProcessDeferredActions_quiet w :
  sched_ w = [] →
  ∃ w',
    ProcessDeferredActions w = (Val (), w') ∧
    sched_ w' = [] ∧ store_ (shared_ w') = store_ (shared_ w) ∧
    completed_txns_ (txn_manager_ (shared_ w')) = completed_txns_ (txn_manager_ (shared_ w)) ∧
    oldest_start_time_ (txn_manager_ (shared_ w')) =
      oldest_start_time_ (txn_manager_ (shared_ w)) ∧
    txns_to_unlink_ (gc_ w') = txns_to_unlink_ (gc_ w).
Proof.
  destruct w as [g [tm s] sc tr]. cbn. intros ->.
  unfold ProcessDeferredActions, DeferredActionsForGC, OldestTransactionStartTime.
  rewrite !run_bind, run_interfere. unfold after_interference, interfere. cbn. mred.
  match goal with
  | |- context [run_deferred_actions ?o ?q ?w] =>
      destruct (run_deferred_actions_run o q w) as (ready & rest & _ & _ & _ & Hrun)
  end.
  rewrite Hrun. cbn. eexists. split; [reflexivity|]. done.
Qed.

Lemma ProcessDeallocateQueue_quiet w :
  sched_ w = [] →
  ∃ n w',
    ProcessDeallocateQueue w = (Val n, w') ∧
    sched_ w' = [] ∧ shared_ w' = shared_ w ∧
    txns_to_unlink_ (gc_ w') = txns_to_unlink_ (gc_ w).
Proof.
  intros Hq. rewrite ProcessDeallocateQueue_run. cbv zeta.
  rewrite (after_interference_quiet w Hq).
  destruct (NewerThan _ _); eexists _, _; (split; [reflexivity|]); done.
Qed.

Lemma PerformGarbageCollection_quiet fuel (J : gset Z → Store → Prop) w :
  let oldest := oldest_start_time_ (txn_manager_ (shared_ w)) in
  let q := completed_txns_ (txn_manager_ (shared_ w)) ++ txns_to_unlink_ (gc_ w) in
  (∀ visited s, J visited s → chains_bounded s fuel) →
  (∀ visited s slot l,
     J visited s → slot ∉ visited → version_chain s (version_ptr_ s !! slot) l →
     J ({[slot]} ∪ visited) (truncated_store s slot l (take_while (visible_at s oldest) l))) →
  sched_ w = [] → J ∅ (store_ (shared_ w)) →
  (∀ t u, t ∈ q → u ∈ undo_buffer_ t → Table u = None → Aborted t = true) →
  ∃ d u w',
    PerformGarbageCollection fuel w = (Val (d, u), w') ∧
    sched_ w' = [] ∧ J (visited_after oldest ∅ q) (store_ (shared_ w')).
Proof.
  cbv zeta. intros Hb Hstep Hq HJ Hnull. unfold PerformGarbageCollection.
  destruct (ProcessDeferredActions_quiet w Hq) as (w1 & Hrun1 & Hq1 & Hs1 & Hc1 & Ho1 & Hu1).
  rewrite run_bind, Hrun1. cbv beta iota.
  destruct (ProcessDeallocateQueue_quiet w1 Hq1) as (d & w2 & Hrun2 & Hq2 & Hs2 & Hu2).
  rewrite run_bind, Hrun2. cbv beta iota.
  destruct (ProcessUnlinkQueue_quiet fuel J w2) as (u & w3 & Hrun3 & Hq3 & HJ3).
  { done. }
  { by rewrite Hs2, Ho1. }
  { done. }
  { by rewrite Hs2, Hs1. }
  { rewrite Hs2, Hu2, Hc1, Hu1. apply Forall_forall. intros t Ht Hab.
    apply Forall_forall. intros r Hr.
    destruct (Table r) eqn:Htable; [done|].
    specialize (Hnull t r Ht Hr Htable). congruence. }
  rewrite Hs2, Hu2, Hc1, Ho1, Hu1 in HJ3.
  rewrite run_bind, Hrun3. cbv beta iota.
  exists d, u. rewrite run_bind.
  destruct (0 <? u).
  - rewrite run_bind, run_GetTimestamp. cbv zeta.
    rewrite (after_interference_quiet w3 Hq3).
    rewrite run_bind. unfold get_gc at 1, put_gc at 1. cbv beta iota.
    rewrite run_bind, run_ProcessIndexes. cbv beta iota. rewrite run_ret.
    eexists. split; [reflexivity|]. done.
  - rewrite run_ret. cbv beta iota.
    rewrite run_bind, run_ProcessIndexes. cbv beta iota. rewrite run_ret.
    eexists. split; [reflexivity|]. done.
Qed.

(** The hypotheses of the theorems on undisturbed periods hold of
    [Examples.three_completed]. *)
Lemma three_completed_chains_bounded :
  chains_bounded (store_ (shared_ Examples.three_completed)) 4.
Proof.
  intros slot. destruct (decide (slot = 100)) as [->|Hne].
  - exists [1; 2; 3]%positive. split; [|cbn; lia].
    change (version_ptr_ (store_ (shared_ Examples.three_completed)) !! 100)
      with (Some 1%positive).
    apply (version_chain_cons _ 1%positive
             (mkUndoRecord UPDATE Examples.running_ts (Some 2%positive)
                (Some Examples.a_table) 100 Examples.no_delta)); [reflexivity|].
    apply (version_chain_cons _ 2%positive
             (mkUndoRecord UPDATE 20 (Some 3%positive) (Some Examples.a_table) 100
                Examples.no_delta)); [reflexivity|].
    apply (version_chain_cons _ 3%positive
             (mkUndoRecord UPDATE 10 None (Some Examples.a_table) 100 Examples.no_delta));
      [reflexivity|].
    apply version_chain_nil.
  - exists []. split; [|cbn; lia].
    change (version_ptr_ (store_ (shared_ Examples.three_completed)))
      with ({[ 100 := 1%positive ]} : gmap Z positive).
    rewrite lookup_singleton_ne by done. apply version_chain_nil.
Defined.

Lemma three_completed_tables :
  let w := Examples.three_completed in
  ∀ t u, t ∈ completed_txns_ (txn_manager_ (shared_ w)) ++ txns_to_unlink_ (gc_ w) →
         u ∈ undo_buffer_ t → Table u = None → Aborted t = true.
Proof.
  intros w t u Ht Hu Htable. cbn in Ht.
  repeat (apply elem_of_cons in Ht as [->|Ht]); [| | |by apply elem_of_nil in Ht];
    cbn in Hu; repeat (apply elem_of_cons in Hu as [->|Hu]);
    try (by apply elem_of_nil in Hu); discriminate Htable.
Defined.

Lemma three_completed_chain :
  let s := store_ (shared_ Examples.three_completed) in
  version_chain s (version_ptr_ s !! 100) [1; 2; 3]%positive.
Proof.
  intros s. change (version_ptr_ s !! 100) with (Some 1%positive).
  apply (version_chain_cons _ 1%positive
           (mkUndoRecord UPDATE Examples.running_ts (Some 2%positive)
              (Some Examples.a_table) 100 Examples.no_delta)); [reflexivity|].
  apply (version_chain_cons _ 2%positive
           (mkUndoRecord UPDATE 20 (Some 3%positive) (Some Examples.a_table) 100
              Examples.no_delta)); [reflexivity|].
  apply (version_chain_cons _ 3%positive
           (mkUndoRecord UPDATE 10 None (Some Examples.a_table) 100 Examples.no_delta));
    [reflexivity|].
  apply version_chain_nil.
Defined.

(** X4: a collection period that no other thread disturbs returns its pair
    of counts: it reports no fault and does not run out of fuel, provided
    that every version chain ends after fewer than [fuel] records and that a
    record without a table only occurs in an aborted transaction.  The
    chains it leaves still end after fewer than [fuel] records, so the next
    period can rely on the same. *)
Theorem PerformGarbageCollection_returns (fuel : nat) (w : World) :
  sched_ w = [] →
  chains_bounded (store_ (shared_ w)) fuel →
  (∀ t u, t ∈ completed_txns_ (txn_manager_ (shared_ w)) ++ txns_to_unlink_ (gc_ w) →
          u ∈ undo_buffer_ t → Table u = None → Aborted t = true) →
  ∃ d u w',
    PerformGarbageCollection fuel w = (Val (d, u), w') ∧
    sched_ w' = [] ∧ chains_bounded (store_ (shared_ w')) fuel.
Proof.
  intros Hq Hb Hnull.
  apply (PerformGarbageCollection_quiet fuel (λ _ s, chains_bounded s fuel) w);
    [done| |done|done|done].
  intros _ s slot l Hs _ _. by apply truncated_store_bounded.
Qed.

Lemma PerformGarbageCollection_returns_witness :
  let w := Examples.three_completed in
  (sched_ w = [] ∧
   chains_bounded (store_ (shared_ w)) 4 ∧
   (∀ t u, t ∈ completed_txns_ (txn_manager_ (shared_ w)) ++ txns_to_unlink_ (gc_ w) →
           u ∈ undo_buffer_ t → Table u = None → Aborted t = true)) ∧
  ∃ d u w', PerformGarbageCollection 4 w = (Val (d, u), w') ∧ sched_ w' = [].
Proof.
  intros w.
  assert (Hq : sched_ w = []) by reflexivity.
  split; [split; [exact Hq|split; [exact three_completed_chains_bounded|
                                   exact three_completed_tables]]|].
  destruct (PerformGarbageCollection_returns 4 w Hq three_completed_chains_bounded
              three_completed_tables) as (d & u & w' & Hrun & Hq' & _).
  exists d, u, w'. split; [exact Hrun|exact Hq'].
Defined.


(** ** What a period leaves of the version chains *)

Lemma take_while_ext {A} (f g : A → bool) l :
  (∀ x, f x = g x) → take_while f l = take_while g l.
Proof. intros Hfg. induction l as [|x l IH]; [done|]. cbn. by rewrite Hfg, IH. Qed.

Lemma take_while_Forall {A} (f : A → bool) l : Forall (λ x, f x = true) (take_while f l).
Proof.
  induction l as [|x l IH]; [constructor|]. cbn.
  destruct (f x) eqn:Hx; by constructor.
Qed.

Lemma take_while_next {A} (f : A → bool) l n post :
  l = take_while f l ++ n :: post → f n = false.
Proof.
  induction l as [|x l IH]; cbn; [by destruct (take_while f [])|].
  destruct (f x) eqn:Hx; cbn.
  - intros [= Heq]. by apply IH.
  - by intros [= -> _].
Qed.

Lemma take_while_between {A} (f : A → bool) l l0 :
  l `prefix_of` l0 → take_while f l0 `prefix_of` l → take_while f l = take_while f l0.
Proof.
  revert l. induction l0 as [|x l0 IH]; intros l Hl Htw.
  { by apply prefix_nil_inv in Hl as ->. }
  destruct l as [|y l]; cbn in *.
  { destruct (f x); [|done]. by apply prefix_nil_not in Htw. }
  pose proof (prefix_cons_inv_1 _ _ _ _ Hl) as ->.
  apply prefix_cons_inv_2 in Hl.
  destruct (f x); [|done]. apply prefix_cons_inv_2 in Htw. f_equal. by apply IH.
Qed.

Lemma take_while_invisible {A} (f : A → bool) pre n post :
  f n = false → take_while f (pre ++ n :: post) `prefix_of` pre.
Proof.
  intros Hn. induction pre as [|x pre IH]; cbn.
  - by rewrite Hn.
  - destruct (f x); [by apply prefix_cons|apply prefix_nil].
Qed.

Lemma version_chain_cut_not_in s c h l :
  c ∉ l → version_chain s h l → version_chain (cut_after c s) h l.
Proof.
  unfold cut_after. destruct (undo_ s !! c) as [rc|]; [|done].
  intros Hc. induction 1 as [|p r l Hr Hl IH]; [constructor|].
  apply not_elem_of_cons in Hc as [Hne Hc].
  econstructor; [cbn; by rewrite lookup_insert_ne|by apply IH].
Qed.

Lemma split_unique {A} (l1 l2 r1 r2 : list A) c :
  l1 ++ c :: r1 = l2 ++ c :: r2 → c ∉ l1 → c ∉ l2 → l1 = l2 ∧ r1 = r2.
Proof.
  revert l2. induction l1 as [|x l1 IH]; intros [|y l2]; cbn.
  - by intros [= ->].
  - intros [= <- _] _ Hc. destruct Hc. apply elem_of_cons. by left.
  - intros [= -> _] Hc. destruct Hc. apply elem_of_cons. by left.
  - intros [= -> Heq] Hc1 Hc2.
    apply not_elem_of_cons in Hc1 as [_ Hc1]. apply not_elem_of_cons in Hc2 as [_ Hc2].
    destruct (IH _ Heq Hc1 Hc2) as [-> ->]. done.
Qed.

Lemma chains_cut_to_visible_init s0 oldest : chains_cut_to_visible s0 oldest ∅ s0.
Proof.
  split; [done|]. intros slot l0 Hl0. exists l0. split_and!; [done| |done|].
  - destruct (take_while_prefix (visible_at s0 oldest) l0) as [rest Hrest].
    exists rest. done.
  - intros Hin. by apply not_elem_of_empty in Hin.
Qed.

(** Truncating the chain of one slot removes, from every chain, only
    records behind a record that is older than [oldest]. *)
Lemma chains_cut_to_visible_step s0 oldest visited s slot l :
  chains_cut_to_visible s0 oldest visited s →
  version_chain s (version_ptr_ s !! slot) l →
  chains_cut_to_visible s0 oldest ({[slot]} ∪ visited)
    (truncated_store s slot l (take_while (visible_at s oldest) l)).
Proof.
  unfold chains_cut_to_visible. intros [Hts Hchains] Hl.
  set (vis := visible_at s0 oldest) in *.
  assert (Hvis : take_while (visible_at s oldest) l = take_while vis l).
  { apply take_while_ext. intros p. unfold vis, visible_at. by rewrite Hts. }
  rewrite Hvis. clear Hvis.
  split.
  { intros p. rewrite <- Hts. apply truncated_store_frame. }
  intros A l0 Hl0.
  destruct (Hchains A l0 Hl0) as (lA & HlA & Hpre & Hsub & Hvisited).
  pose proof (take_while_between vis lA l0 Hsub Hpre) as HtwA.
  assert (Hsame : A = slot → lA = l).
  { intros ->. by eapply version_chain_inj. }
  unfold truncated_store. case_bool_decide as Hall.
  { (* nothing is cut *)
    exists lA. split_and!; [done..|].
    intros [->%elem_of_singleton|Hin]%elem_of_union; [|by apply Hvisited].
    rewrite (Hsame eq_refl) in HtwA |- *. by rewrite <- HtwA. }
  destruct (last (take_while vis l)) as [c|] eqn:Hlast.
  2:{ (* the head is older: the version pointer of the slot becomes null *)
      apply last_None in Hlast.
      destruct (decide (A = slot)) as [->|Hne].
      - exists []. cbn. rewrite lookup_delete_eq.
        rewrite (Hsame eq_refl) in HtwA. rewrite <- HtwA, Hlast.
        split_and!; [constructor|done|apply prefix_nil|done].
      - exists lA. cbn. rewrite lookup_delete_ne by done.
        split_and!; [by eapply version_chain_same_undo; [|exact HlA]|done|done|].
        intros [?%elem_of_singleton|Hin]%elem_of_union; [done|by apply Hvisited]. }
  (* the chain is cut behind [c] *)
  apply last_Some in Hlast as [k1 Hk].
  destruct (take_while_prefix vis l) as [rest Hsplit].
  destruct rest as [|n post]; [by rewrite app_nil_r in Hsplit|].
  pose proof (take_while_next vis l n post Hsplit) as Hn.
  rewrite Hk, <- app_assoc in Hsplit. cbn in Hsplit.
  pose proof (version_chain_NoDup _ _ _ Hl) as Hnd. rewrite Hsplit in Hnd.
  apply NoDup_app in Hnd as (_ & Hck1 & _).
  assert (Hck : c ∉ k1).
  { intros Hin. apply (Hck1 c Hin). apply elem_of_cons. by left. }
  rewrite cut_after_version_ptr.
  destruct (decide (c ∈ lA)) as [Hin|Hnin].
  2:{ exists lA. split_and!; [by apply version_chain_cut_not_in|done|done|].
      intros [->%elem_of_singleton|Hv]%elem_of_union; [|by apply Hvisited].
      destruct Hnin. rewrite (Hsame eq_refl), Hsplit.
      apply elem_of_app. right. apply elem_of_cons. by left. }
  apply list_elem_of_split in Hin as (l1 & rest & HlA1).
  pose proof (version_chain_NoDup _ _ _ HlA) as HndA. rewrite HlA1 in HndA.
  apply NoDup_app in HndA as (_ & Hcl1' & _).
  assert (Hcl1 : c ∉ l1).
  { intros Hin. apply (Hcl1' c Hin). apply elem_of_cons. by left. }
  assert (Hrest : rest = n :: post).
  { rewrite HlA1 in HlA. apply version_chain_suffix in HlA.
    rewrite Hsplit in Hl. apply version_chain_suffix in Hl.
    pose proof (version_chain_inj _ _ _ _ HlA Hl) as Heq. by injection Heq. }
  subst rest.
  exists (l1 ++ [c]). split_and!.
  - rewrite HlA1 in HlA. by eapply version_chain_cut.
  - rewrite <- HtwA, HlA1.
    change (l1 ++ c :: n :: post) with (l1 ++ [c] ++ n :: post). rewrite app_assoc.
    by apply take_while_invisible.
  - etrans; [|exact Hsub]. rewrite HlA1. apply prefix_app, prefix_cons, prefix_nil.
  - intros [->%elem_of_singleton|Hv]%elem_of_union.
    + rewrite <- HtwA. rewrite (Hsame eq_refl) in HlA1 |- *. rewrite Hk.
      rewrite Hsplit in HlA1. by destruct (split_unique _ _ _ _ _ HlA1 Hck Hcl1) as [-> _].
    + specialize (Hvisited Hv).
      pose proof (take_while_Forall vis l0) as Hall0. rewrite <- Hvisited, HlA1 in Hall0.
      apply Forall_app in Hall0 as [_ Hall0].
      apply Forall_inv_tail, Forall_inv in Hall0. congruence.
Qed.

Lemma elem_of_visited_after oldest visited q s :
  (∃ t u, t ∈ q ∧ fate oldest t = Unlinked ∧ u ∈ undo_buffer_ t ∧
          is_Some (Table u) ∧ Slot u = s) →
  s ∈ visited_after oldest visited q.
Proof.
  assert (Hmono : ∀ q visited, s ∈ visited → s ∈ visited_after oldest visited q).
  { clear. intros q. induction q as [|t q IH]; intros visited Hs; [done|]. cbn.
    destruct (fate oldest t); try by apply IH.
    apply IH, elem_of_visit_all. by left. }
  revert visited. induction q as [|t q IH]; intros visited (t' & u & Ht & Hfate & Hu & Htable & Hs).
  { by apply elem_of_nil in Ht. }
  cbn. apply elem_of_cons in Ht as [->|Ht].
  - rewrite Hfate. apply Hmono, elem_of_visit_all. right. by exists u.
  - destruct (fate oldest t); apply IH; by exists t', u.
Qed.

Lemma quiet_period_chains (fuel : nat) (w : World) :
  sched_ w = [] →
  chains_bounded (store_ (shared_ w)) fuel →
  (∀ t u, t ∈ completed_txns_ (txn_manager_ (shared_ w)) ++ txns_to_unlink_ (gc_ w) →
          u ∈ undo_buffer_ t → Table u = None → Aborted t = true) →
  ∃ d u w',
    PerformGarbageCollection fuel w = (Val (d, u), w') ∧
    let s := store_ (shared_ w) in
    let s' := store_ (shared_ w') in
    let oldest := oldest_start_time_ (txn_manager_ (shared_ w)) in
    let q := completed_txns_ (txn_manager_ (shared_ w)) ++ txns_to_unlink_ (gc_ w) in
    ∀ slot l0,
      version_chain s (version_ptr_ s !! slot) l0 →
      ∃ l, version_chain s' (version_ptr_ s' !! slot) l ∧
           take_while (visible_at s oldest) l0 `prefix_of` l ∧ l `prefix_of` l0 ∧
           ((∃ t r, t ∈ q ∧ fate oldest t = Unlinked ∧ r ∈ undo_buffer_ t ∧
                    is_Some (Table r) ∧ Slot r = slot) →
            l = take_while (visible_at s oldest) l0).
Proof.
  intros Hq Hb Hnull.
  set (s0 := store_ (shared_ w)). set (oldest := oldest_start_time_ (txn_manager_ (shared_ w))).
  destruct (PerformGarbageCollection_quiet fuel
              (λ visited s, chains_bounded s fuel ∧ chains_cut_to_visible s0 oldest visited s) w)
    as (d & u & w' & Hrun & _ & _ & _ & Hchains).
  - by intros visited s [? _].
  - intros visited s slot l [Hbs Hcs] _ Hl. split.
    + by apply truncated_store_bounded.
    + by apply chains_cut_to_visible_step.
  - done.
  - split; [done|]. apply chains_cut_to_visible_init.
  - done.
  - exists d, u, w'. split; [done|]. cbv zeta. intros slot l0 Hl0.
    destruct (Hchains slot l0 Hl0) as (l & Hl & Hpre & Hsub & Hvisited).
    exists l. split_and!; [done..|]. intros Hex. by apply Hvisited, elem_of_visited_after.
Qed.

(** X5: what a collection period that no other thread disturbs leaves of
    the version chains.  With [oldest] the oldest running start time, the
    chain of every slot afterwards is a prefix of the chain before and still
    holds every record up to the first one that is older than [oldest]; and
    for every slot of an undo record, with a table, of a transaction that
    the period unlinks, the chain holds exactly these records.  So chains
    are only ever cut behind a record older than [oldest], and each chain
    that is truncated is cut as far as that. *)
Theorem PerformGarbageCollection_cuts_chains_to_visible (fuel : nat) (w : World) :
  sched_ w = [] →
  chains_bounded (store_ (shared_ w)) fuel →
  (∀ t u, t ∈ completed_txns_ (txn_manager_ (shared_ w)) ++ txns_to_unlink_ (gc_ w) →
          u ∈ undo_buffer_ t → Table u = None → Aborted t = true) →
  ∃ d u w',
    PerformGarbageCollection fuel w = (Val (d, u), w') ∧
    let s := store_ (shared_ w) in
    let s' := store_ (shared_ w') in
    let oldest := oldest_start_time_ (txn_manager_ (shared_ w)) in
    let q := completed_txns_ (txn_manager_ (shared_ w)) ++ txns_to_unlink_ (gc_ w) in
    ∀ slot l0,
      version_chain s (version_ptr_ s !! slot) l0 →
      ∃ l, version_chain s' (version_ptr_ s' !! slot) l ∧
           take_while (visible_at s oldest) l0 `prefix_of` l ∧ l `prefix_of` l0 ∧
           ((∃ t r, t ∈ q ∧ fate oldest t = Unlinked ∧ r ∈ undo_buffer_ t ∧
                    is_Some (Table r) ∧ Slot r = slot) →
            l = take_while (visible_at s oldest) l0).
Proof. apply quiet_period_chains. Qed.

Lemma PerformGarbageCollection_cuts_chains_to_visible_witness :
  let w := Examples.three_completed in
  (sched_ w = [] ∧
   chains_bounded (store_ (shared_ w)) 4 ∧
   (∀ t u, t ∈ completed_txns_ (txn_manager_ (shared_ w)) ++ txns_to_unlink_ (gc_ w) →
           u ∈ undo_buffer_ t → Table u = None → Aborted t = true)) ∧
  ∃ d u w',
    PerformGarbageCollection 4 w = (Val (d, u), w') ∧
    version_chain (store_ (shared_ w')) (version_ptr_ (store_ (shared_ w')) !! 100)
      [1; 2]%positive.
Proof.
  intros w.
  assert (Hq : sched_ w = []) by reflexivity.
  split; [split; [exact Hq|split; [exact three_completed_chains_bounded|
                                   exact three_completed_tables]]|].
  destruct (PerformGarbageCollection_cuts_chains_to_visible 4 w Hq
              three_completed_chains_bounded three_completed_tables)
    as (d & u & w' & Hrun & Hchains).
  exists d, u, w'. split; [exact Hrun|].
  destruct (Hchains 100 [1; 2; 3]%positive three_completed_chain)
    as (l & Hl & _ & _ & Hexact).
  assert (Heq : l = [1; 2]%positive).
  { apply Hexact. exists Examples.writer, Examples.update_100.
    split; [apply elem_of_cons; right; apply elem_of_cons; by left|].
    split; [vm_compute; reflexivity|].
    split; [apply elem_of_cons; by left|].
    split; [by eexists|reflexivity]. }
  rewrite <- Heq. exact Hl.
Defined.

(** X6: on chains sorted from the newest version to the oldest, a
    collection period that no other thread disturbs never cuts off a version
    that is not older than the oldest running transaction: every such
    record of a chain is still in the chain afterwards. *)
Theorem PerformGarbageCollection_keeps_visible_versions (fuel : nat) (w : World) :
  sched_ w = [] →
  chains_bounded (store_ (shared_ w)) fuel →
  (∀ t u, t ∈ completed_txns_ (txn_manager_ (shared_ w)) ++ txns_to_unlink_ (gc_ w) →
          u ∈ undo_buffer_ t → Table u = None → Aborted t = true) →
  ∃ d u w',
    PerformGarbageCollection fuel w = (Val (d, u), w') ∧
    let s := store_ (shared_ w) in
    let s' := store_ (shared_ w') in
    let oldest := oldest_start_time_ (txn_manager_ (shared_ w)) in
    ∀ slot l0,
      version_chain s (version_ptr_ s !! slot) l0 →
      newest_first s l0 →
      ∃ l, version_chain s' (version_ptr_ s' !! slot) l ∧
           ∀ p, p ∈ l0 → NewerThan oldest (timestamp_at s p) = false → p ∈ l.
Proof.
  intros Hq Hb Hnull.
  destruct (quiet_period_chains fuel w Hq Hb Hnull) as (d & u & w' & Hrun & Hchains).
  exists d, u, w'. split; [done|]. cbv zeta in *. intros slot l0 Hl0 Hsorted.
  destruct (Hchains slot l0 Hl0) as (l & Hl & [rest Hpre] & _).
  exists l. split; [done|]. intros p Hp Hvis.
  rewrite Hpre. apply elem_of_app. left.
  rewrite (take_while_newest_first _ _ _ Hsorted).
  apply list_elem_of_filter. split; [|done]. unfold visible_at. by rewrite Hvis.
Qed.

Lemma PerformGarbageCollection_keeps_visible_versions_witness :
  let w := Examples.three_completed in
  (sched_ w = [] ∧
   chains_bounded (store_ (shared_ w)) 4 ∧
   (∀ t u, t ∈ completed_txns_ (txn_manager_ (shared_ w)) ++ txns_to_unlink_ (gc_ w) →
           u ∈ undo_buffer_ t → Table u = None → Aborted t = true) ∧
   newest_first (store_ (shared_ w)) [1; 2; 3]%positive) ∧
  ∃ d u w' l,
    PerformGarbageCollection 4 w = (Val (d, u), w') ∧
    version_chain (store_ (shared_ w')) (version_ptr_ (store_ (shared_ w')) !! 100) l ∧
    2%positive ∈ l.
Proof.
  intros w.
  assert (Hq : sched_ w = []) by reflexivity.
  assert (Hsorted : newest_first (store_ (shared_ w)) [1; 2; 3]%positive).
  { unfold newest_first. repeat constructor; vm_compute; reflexivity. }
  split; [split; [exact Hq|split; [exact three_completed_chains_bounded|
                                   split; [exact three_completed_tables|exact Hsorted]]]|].
  destruct (PerformGarbageCollection_keeps_visible_versions 4 w Hq
              three_completed_chains_bounded three_completed_tables)
    as (d & u & w' & Hrun & Hchains).
  destruct (Hchains 100 [1; 2; 3]%positive three_completed_chain Hsorted) as (l & Hl & Hkeeps).
  exists d, u, w', l. split; [exact Hrun|]. split; [exact Hl|].
  apply Hkeeps.
  - apply elem_of_cons. right. apply elem_of_cons. by left.
  - vm_compute. reflexivity.
Defined.
(** ** The deallocation queue *)

Lemma rev_reverse_eq {A} (l : list A) : rev l = reverse l.
Proof. unfold reverse. apply rev_alt. Qed.

Lemma partition_by_bool {A} (b : A → bool) (l : list A) :
  filter (λ t, b t = true) l ++ filter (λ t, b t = false) l ≡ₚ l.
Proof.
  induction l as [|x l IH]; [done|]. rewrite !filter_cons.
  destruct (b x); repeat case_decide; try done.
  - cbn. by rewrite IH.
  - rewrite <- Permutation_middle. by rewrite IH.
Qed.

(** X7: [ProcessDeallocateQueue] always returns; the transactions it
    deletes and the transactions it leaves in the queue are together the
    queue as it was, none lost and none twice.  It deletes only
    transactions that the log has processed, and none at all unless the
    oldest running transaction is newer than [last_unlinked_]; then it keeps
    exactly the unprocessed ones, in reverse order.  The count it returns is
    the number of deletions modulo [2 ^ 32]. *)
Theorem ProcessDeallocateQueue_partitions_queue (w : World) :
  ∃ n w' oldest gone,
    ProcessDeallocateQueue w = (Val n, w') ∧
    trace_ w' = trace_ w ++ EvOldestTransactionStartTime oldest :: (EvDelete <$> gone) ∧
    gone ++ txns_to_deallocate_ (gc_ w') ≡ₚ txns_to_deallocate_ (gc_ w) ∧
    Forall (λ t, log_processed_ t = true) gone ∧
    n = Z.of_nat (length gone) mod 2 ^ 32 ∧
    if NewerThan oldest (last_unlinked_ (gc_ w)) then
      txns_to_deallocate_ (gc_ w') =
        reverse (filter (λ t, log_processed_ t = false) (txns_to_deallocate_ (gc_ w)))
    else gone = [] ∧ gc_ w' = gc_ w.
Proof.
  rewrite ProcessDeallocateQueue_run. cbv zeta.
  set (q := txns_to_deallocate_ (gc_ w)).
  destruct (NewerThan (oldest_answer w) (last_unlinked_ (gc_ w))) eqn:Hsafe.
  - eexists _, _, (oldest_answer w), (filter (λ t, log_processed_ t = true) q).
    split; [reflexivity|]. rewrite Hsafe.
    cbn [gc_ trace_ txns_to_deallocate_ set_txns_to_deallocate].
    rewrite rev_reverse_eq. split_and!.
    + done.
    + rewrite reverse_Permutation. apply partition_by_bool.
    + apply Forall_forall. intros t Ht. by apply list_elem_of_filter in Ht as [? _].
    + rewrite uint32_incr_iter. case_decide as Hz; [by rewrite Hz|]. by rewrite Z.add_0_l.
    + done.
  - eexists _, _, (oldest_answer w), []. split; [reflexivity|]. rewrite Hsafe.
    cbn. rewrite after_interference_gc, after_interference_trace.
    split_and!; done || constructor.
Qed.

(** ** Conservation of transactions *)

Lemma partition_by_fate oldest (q : list TransactionContext) :
  filter (λ t, fate oldest t = Deleted) q ++ filter (λ t, fate oldest t = Unlinked) q ++
  filter (λ t, fate oldest t = Requeued) q ≡ₚ q.
Proof.
  induction q as [|t q IH]; [done|]. rewrite !filter_cons.
  destruct (fate oldest t); repeat case_decide; try done.
  - cbn. by rewrite IH.
  - rewrite <- app_comm_cons, <- Permutation_middle. by rewrite IH.
  - rewrite app_assoc, <- Permutation_middle, <- app_assoc. by rewrite IH.
Qed.

Lemma unlinked_as_fmap {B} (f : TransactionContext → B) l pushed :
  (∀ t ps, f (add_loose_ptrs t ps) = f t) →
  Forall2 unlinked_as l pushed → f <$> pushed = f <$> l.
Proof.
  intros Hf. induction 1 as [|t t' l pushed Hun _ IH]; [done|].
  cbn. rewrite IH. f_equal. unfold unlinked_as in Hun.
  destruct (Aborted t); [by subst|]. destruct Hun as (ps & _ & ->). apply Hf.
Qed.

(** X8: a collection period neither loses a transaction nor keeps one
    twice.  The transactions it deletes, together with those it leaves in
    its two queues, are the transactions it started with in its two queues
    together with those the transaction manager handed over, up to their
    order and to the loose pointers that unlinking adds: they agree under
    every observation that does not depend on the loose pointers. *)
Theorem PerformGarbageCollection_conserves_transactions {B} (f : TransactionContext → B)
    (fuel : nat) (w : World) (d u : Z) (w' : World) :
  (∀ t ps, f (add_loose_ptrs t ps) = f t) →
  PerformGarbageCollection fuel w = (Val (d, u), w') →
  ∃ evs completed,
    trace_ w' = trace_ w ++ evs ∧
    completed_answers evs = [completed] ∧
    f <$> (deleted_txns evs ++ txns_to_deallocate_ (gc_ w') ++ txns_to_unlink_ (gc_ w')) ≡ₚ
    f <$> (txns_to_deallocate_ (gc_ w) ++ completed ++ txns_to_unlink_ (gc_ w)).
Proof.
  intros Hf Hrun.
  apply period_trace in Hrun
    as (evs & oldest1 & oldest2 & oldest3 & completed & pushed & now & Ht & _ & Hc & _ &
        Hdel & _ & _ & _ & Hdq & Hpushed & Huq).
  cbv zeta in *. exists evs, completed. split; [done|]. split; [done|].
  set (qd := txns_to_deallocate_ (gc_ w)) in *.
  set (q := completed ++ txns_to_unlink_ (gc_ w)) in *.
  rewrite Hdel, Hdq, Huq. rewrite !fmap_app.
  rewrite (unlinked_as_fmap f _ _ Hf Hpushed). rewrite <- !fmap_app.
  apply fmap_Permutation. rewrite !reverse_Permutation.
  set (fD := filter (λ t, fate oldest3 t = Deleted) q).
  set (fU := filter (λ t, fate oldest3 t = Unlinked) q).
  set (fR := filter (λ t, fate oldest3 t = Requeued) q).
  set (gone := if NewerThan oldest2 (last_unlinked_ (gc_ w))
               then filter (λ t, log_processed_ t = true) qd else []).
  set (kept := if NewerThan oldest2 (last_unlinked_ (gc_ w))
               then rev (filter (λ t, log_processed_ t = false) qd) else qd).
  assert (Hqd : gone ++ kept ≡ₚ qd).
  { subst gone kept. destruct (NewerThan _ _); [|done].
    rewrite rev_reverse_eq, reverse_Permutation. apply partition_by_bool. }
  etrans; [|apply Permutation_app; [exact Hqd|exact (partition_by_fate oldest3 q)]].
  fold fD fU fR.
  rewrite <- !app_assoc. apply Permutation_app_head.
  rewrite (Permutation_app_swap_app kept fD). apply Permutation_app_head.
  rewrite (Permutation_app_swap_app kept fU). done.
Qed.

Lemma PerformGarbageCollection_conserves_transactions_witness :
  let w := Examples.three_completed in
  (∀ t ps, StartTime (add_loose_ptrs t ps) = StartTime t) ∧
  ∃ w' evs,
    PerformGarbageCollection 10 w = (Val (0, 2), w') ∧
    trace_ w' = trace_ w ++ evs ∧
    StartTime <$> (deleted_txns evs ++ txns_to_deallocate_ (gc_ w') ++ txns_to_unlink_ (gc_ w'))
      ≡ₚ [1; 3; 20].
Proof.
  intros w.
  assert (Hf : ∀ t ps, StartTime (add_loose_ptrs t ps) = StartTime t) by reflexivity.
  assert (Hrun : PerformGarbageCollection 10 w = (Val (0, 2), (PerformGarbageCollection 10 w).2))
    by (vm_compute; reflexivity).
  split; [exact Hf|].
  destruct (PerformGarbageCollection_conserves_transactions StartTime 10 w 0 2 _ Hf Hrun)
    as (evs & completed & Ht & Hc & Hperm).
  exists (PerformGarbageCollection 10 w).2, evs. split; [exact Hrun|]. split; [exact Ht|].
  rewrite Hperm. clear Hperm.
  assert (Hcompleted : completed_answers (trace_ (PerformGarbageCollection 10 w).2)
                       = [[Examples.reader; Examples.writer; Examples.late_writer]])
    by (vm_compute; reflexivity).
  rewrite Ht in Hcompleted. change (trace_ w) with (@nil Event) in Hcompleted.
  cbn [app] in Hcompleted. rewrite Hc in Hcompleted. injection Hcompleted as ->.
  reflexivity.
Defined.

(** ** The registry of indexes *)

Lemma indexes_count_0 i g : indexes_count i g = 0%nat ↔ i ∉ indexes_ g.
Proof.
  unfold indexes_count. induction (indexes_ g) as [|j l IH]; [by split; [intros _ ?%elem_of_nil|]|].
  rewrite filter_cons, not_elem_of_cons. case_decide as Hj; cbn [length].
  - split; [done|]. intros [Hne _]. by subst.
  - rewrite IH. split; [by intros ?; split|by intros [_ ?]].
Qed.

Lemma indexes_count_1 i g : NoDup (indexes_ g) → i ∈ indexes_ g → indexes_count i g = 1%nat.
Proof.
  unfold indexes_count. induction 1 as [|j l Hj _ IH]; intros Hin.
  { by apply elem_of_nil in Hin. }
  rewrite filter_cons. case_decide as Hji; cbn [length].
  - subst j. f_equal. by apply (indexes_count_0 i (set_indexes l g)).
  - apply elem_of_cons in Hin as [->|Hin]; [done|]. by apply IH.
Qed.

Lemma collected_indexes_fmap l : collected_indexes (EvIndexGC <$> l) = l.
Proof. induction l as [|i l IH]; [done|]. cbn. by f_equal. Qed.

Lemma filter_ne_not_elem_of (i : nat) (l : list nat) : i ∉ l → filter (λ j, j ≠ i) l = l.
Proof.
  induction l as [|j l IH]; [done|]. rewrite not_elem_of_cons. intros [Hne Hl].
  rewrite filter_cons, decide_True by done. by rewrite IH.
Qed.

(** X9: on a registry without duplicates, registering an index that is not
    yet registered succeeds and adds exactly this index; [ProcessIndexes]
    then runs the collection of every registered index, the new one
    included, exactly once; registering it again fails the assertion.
    Unregistering it succeeds and gives back the registry as it was, up to
    the order of iteration; unregistering it again, or when it was never
    registered, fails the assertion, and so does a null pointer.  The
    queues and [last_unlinked_] are not touched. *)
Theorem index_registry_round_trip (g : GarbageCollector) (i : index_ptr) :
  NoDup (indexes_ g) →
  i ∉ indexes_ g →
  UnregisterIndexForGC (Some i) g = AssertionFailed ∧
  RegisterIndexForGC None g = AssertionFailed ∧
  UnregisterIndexForGC None g = AssertionFailed ∧
  ∃ g1 g2,
    RegisterIndexForGC (Some i) g = Passed g1 ∧
    NoDup (indexes_ g1) ∧
    (∀ j, j ∈ indexes_ g1 ↔ j = i ∨ j ∈ indexes_ g) ∧
    (∀ w, gc_ w = g1 →
       ∃ evs, ProcessIndexes w = (Val (), add_events evs w) ∧
              collected_indexes evs ≡ₚ i :: indexes_ g) ∧
    RegisterIndexForGC (Some i) g1 = AssertionFailed ∧
    UnregisterIndexForGC (Some i) g1 = Passed g2 ∧
    indexes_ g2 ≡ₚ indexes_ g ∧
    UnregisterIndexForGC (Some i) g2 = AssertionFailed ∧
    set_indexes (indexes_ g) g1 = g ∧ set_indexes (indexes_ g) g2 = g.
Proof.
  intros Hnd Hi.
  pose proof (proj2 (indexes_count_0 i g) Hi) as Hc0.
  assert (Hnd1 : NoDup (indexes_ (set_indexes (i :: indexes_ g) g))) by (by constructor).
  assert (Hc1 : indexes_count i (set_indexes (i :: indexes_ g) g) = 1%nat).
  { apply indexes_count_1; [done|]. cbn. apply elem_of_cons. by left. }
  assert (Hf : filter (λ j, j ≠ i) (i :: indexes_ g) = indexes_ g).
  { rewrite filter_cons, decide_False by (by intros []). by apply filter_ne_not_elem_of. }
  split_and!; [|done|done|].
  { unfold UnregisterIndexForGC. rewrite bool_decide_false; [done|]. rewrite Hc0. lia. }
  exists (set_indexes (i :: indexes_ g) g), (set_indexes (indexes_ g) g).
  split_and!.
  - unfold RegisterIndexForGC. by rewrite bool_decide_true.
  - done.
  - intros j. cbn. apply elem_of_cons.
  - intros w Hw. exists (EvIndexGC <$> i :: indexes_ g).
    rewrite run_ProcessIndexes, Hw. split; [done|]. by rewrite collected_indexes_fmap.
  - unfold RegisterIndexForGC. rewrite bool_decide_false; [done|]. rewrite Hc1. lia.
  - unfold UnregisterIndexForGC. rewrite bool_decide_true by done. cbn [indexes_ set_indexes].
    rewrite Hf. by destruct g.
  - done.
  - unfold UnregisterIndexForGC. rewrite bool_decide_false; [done|].
    change (indexes_count i (set_indexes (indexes_ g) g)) with (indexes_count i g).
    rewrite Hc0. lia.
  - by destruct g.
  - by destruct g.
Qed.

Lemma index_registry_round_trip_witness :
  let g := mkGarbageCollector 0 [] [] [] [1; 2]%nat in
  (NoDup (indexes_ g) ∧ 5%nat ∉ indexes_ g) ∧
  ∃ g1 g2,
    RegisterIndexForGC (Some 5%nat) g = Passed g1 ∧
    UnregisterIndexForGC (Some 5%nat) g1 = Passed g2 ∧
    indexes_ g2 ≡ₚ indexes_ g.
Proof.
  intros g.
  assert (Hnd : NoDup (indexes_ g)).
  { cbn. repeat constructor; rewrite ?elem_of_cons, ?elem_of_nil; lia || (intros [|[]]; lia). }
  assert (Hi : 5%nat ∉ indexes_ g).
  { cbn. rewrite !not_elem_of_cons. split_and!; [lia|lia|apply not_elem_of_nil]. }
  split; [split; [exact Hnd|exact Hi]|].
  destruct (index_registry_round_trip g 5%nat Hnd Hi)
    as (_ & _ & _ & g1 & g2 & Hreg & _ & _ & _ & _ & Hunreg & Hperm & _).
  exists g1, g2. split; [exact Hreg|]. split; [exact Hunreg|exact Hperm].
Defined.

(** ** What the test of the log establishes *)

Section large_log_test.

Import LargeLogTest.
Variable equal_deep : positive → WAL.LogRecord → bool.

Lemma expectations_updates_logged log m :
  expectations_hold equal_deep log m = true →
  ∀ t txn slot row,
    m !! t = Some txn → Updates txn !! slot = Some row →
    ∃ r, r ∈ log ∧ logs_update equal_deep t slot row r.
Proof.
  revert m. induction log as [|r0 log IH]; intros m Hok t txn slot row Ht Hrow; cbn in Hok.
  { apply bool_decide_eq_true in Hok. specialize (Hok t txn Ht). cbv beta in Hok.
    by rewrite Hok, lookup_empty in Hrow. }
  assert (Hlater : ∀ m', expectations_hold equal_deep log m' = true →
            m' !! t = Some txn → ∃ r, r ∈ r0 :: log ∧ logs_update equal_deep t slot row r).
  { intros m' Hok' Ht'. destruct (IH m' Hok' t txn slot row Ht' Hrow) as (r & Hr & Hupd).
    exists r. split; [by apply elem_of_cons; right|done]. }
  case_bool_decide as Hzero; [by apply (Hlater m)|].
  destruct (m !! WAL.TxnBegin r0) as [txn0|] eqn:Htxn0.
  2:{ apply andb_true_iff in Hok as [_ Hok]. by apply (Hlater m). }
  case_bool_decide as Hcommit.
  { apply andb_true_iff in Hok as [Hexp Hok]. apply andb_true_iff in Hexp as [_ Hempty].
    apply bool_decide_eq_true in Hempty.
    apply (Hlater _ Hok). rewrite lookup_delete_ne; [done|].
    intros <-. rewrite Htxn0 in Ht. injection Ht as <-.
    by rewrite Hempty, lookup_empty in Hrow. }
  destruct (Updates txn0 !! WAL.GetTupleSlot r0) as [row0|] eqn:Hrow0; [|done].
  apply andb_true_iff in Hok as [Heq Hok].
  destruct (decide (t = WAL.TxnBegin r0)) as [->|Hne].
  - rewrite Htxn0 in Ht. injection Ht as <-.
    destruct (decide (slot = WAL.GetTupleSlot r0)) as [->|Hslot].
    + rewrite Hrow0 in Hrow. injection Hrow as <-.
      exists r0. split; [by apply elem_of_cons; left|]. done.
    + destruct (IH _ Hok (WAL.TxnBegin r0) _ slot row (lookup_insert_eq _ _ _))
        as (r & Hr & Hupd).
      { cbn. by rewrite lookup_delete_ne. }
      exists r. split; [by apply elem_of_cons; right|done].
  - apply (Hlater _ Hok). by rewrite lookup_insert_ne.
Qed.

Lemma expectations_commit_records log m l1 r l2 :
  expectations_hold equal_deep log m = true →
  log = l1 ++ r :: l2 →
  WAL.RecordType r = WAL.COMMIT → WAL.TxnBegin r ≠ 0 →
  ∃ txn,
    m !! WAL.TxnBegin r = Some txn ∧
    WAL.CommitTime r = CommitTimestamp txn ∧
    Forall (λ r', ¬ commits (WAL.TxnBegin r) r') l1 ∧
    ∀ slot row, Updates txn !! slot = Some row →
      ∃ r', r' ∈ l1 ∧ logs_update equal_deep (WAL.TxnBegin r) slot row r'.
Proof.
  intros Hok Hlog Hcommit Hbegin. revert m log Hok Hlog.
  induction l1 as [|r0 l1 IH]; intros m log Hok ->; cbn in Hok.
  { rewrite bool_decide_false in Hok by done.
    destruct (m !! WAL.TxnBegin r) as [txn|]; cycle 1.
    { by rewrite bool_decide_false in Hok by (by intros []). }
    rewrite bool_decide_true in Hok by done.
    apply andb_true_iff in Hok as [Hexp _]. apply andb_true_iff in Hexp as [Htime Hempty].
    apply bool_decide_eq_true in Htime, Hempty.
    exists txn. split_and!; [done|done|constructor|].
    intros slot row Hrow. by rewrite Hempty, lookup_empty in Hrow. }
  assert (Hlater : ∀ m',
            expectations_hold equal_deep (l1 ++ r :: l2) m' = true →
            ¬ commits (WAL.TxnBegin r) r0 →
            (∀ txn', m' !! WAL.TxnBegin r = Some txn' →
               ∃ txn, m !! WAL.TxnBegin r = Some txn ∧
                      CommitTimestamp txn = CommitTimestamp txn' ∧
                      ∀ slot row, Updates txn !! slot = Some row →
                        Updates txn' !! slot = Some row ∨
                        logs_update equal_deep (WAL.TxnBegin r) slot row r0) →
            ∃ txn,
              m !! WAL.TxnBegin r = Some txn ∧
              WAL.CommitTime r = CommitTimestamp txn ∧
              Forall (λ r', ¬ commits (WAL.TxnBegin r) r') (r0 :: l1) ∧
              ∀ slot row, Updates txn !! slot = Some row →
                ∃ r', r' ∈ r0 :: l1 ∧ logs_update equal_deep (WAL.TxnBegin r) slot row r').
  { intros m' Hok' Hr0 Hm'.
    destruct (IH m' _ Hok' eq_refl) as (txn' & Htxn' & Htime & Hnone & Hupd).
    destruct (Hm' txn' Htxn') as (txn & Htxn & Hsame & Hrows).
    exists txn. split_and!; [done|congruence|by constructor|].
    intros slot row Hrow. destruct (Hrows slot row Hrow) as [Hrow'|Hr0'].
    - destruct (Hupd slot row Hrow') as (r' & Hr' & Hlogs).
      exists r'. split; [by apply elem_of_cons; right|done].
    - exists r0. split; [by apply elem_of_cons; left|done]. }
  case_bool_decide as Hzero.
  { apply (Hlater m Hok).
    - intros [_ Heq]. congruence.
    - intros txn' Htxn'. exists txn'. split_and!; [done|done|]. by left. }
  destruct (m !! WAL.TxnBegin r0) as [txn0|] eqn:Htxn0.
  2:{ apply andb_true_iff in Hok as [Hnc Hok]. apply bool_decide_eq_true in Hnc.
      apply (Hlater m Hok).
      - by intros [? _].
      - intros txn' Htxn'. exists txn'. split_and!; [done|done|]. by left. }
  case_bool_decide as Hcommit0.
  { apply andb_true_iff in Hok as [_ Hok].
    assert (Hne : WAL.TxnBegin r0 ≠ WAL.TxnBegin r).
    { intros Heq.
      destruct (IH _ _ Hok eq_refl) as (txn' & Htxn' & _).
      by rewrite <- Heq, lookup_delete_eq in Htxn'. }
    apply (Hlater _ Hok).
    - by intros [_ ?].
    - intros txn' Htxn'. rewrite lookup_delete_ne in Htxn' by done.
      exists txn'. split_and!; [done|done|]. by left. }
  destruct (Updates txn0 !! WAL.GetTupleSlot r0) as [row0|] eqn:Hrow0; [|done].
  apply andb_true_iff in Hok as [Heq Hok].
  apply (Hlater _ Hok).
  - by intros [? _].
  - intros txn' Htxn'.
    destruct (decide (WAL.TxnBegin r0 = WAL.TxnBegin r)) as [Hsame|Hne].
    + rewrite <- Hsame, lookup_insert_eq in Htxn'. injection Htxn' as <-.
      exists txn0. rewrite <- Hsame. split_and!; [done|done|].
      intros slot row Hrow. cbn.
      destruct (decide (slot = WAL.GetTupleSlot r0)) as [->|Hslot].
      * right. rewrite Hrow0 in Hrow. injection Hrow as <-. done.
      * left. by rewrite lookup_delete_ne.
    + rewrite lookup_insert_ne in Htxn' by done.
      exists txn'. split_and!; [done|done|]. by left.
Qed.

Lemma expectations_only_commits cs m :
  Forall (λ r, WAL.RecordType r = WAL.COMMIT) cs →
  expectations_hold equal_deep cs m = true →
  map_Forall (λ _ txn, Updates txn = ∅) m.
Proof.
  intros Hcs. revert m. induction Hcs as [|r cs Hr _ IH]; intros m Hok; cbn in Hok.
  { by apply bool_decide_eq_true in Hok. }
  case_bool_decide as Hzero; [by apply IH|].
  destruct (m !! WAL.TxnBegin r) as [txn|] eqn:Htxn.
  2:{ by rewrite bool_decide_false in Hok by (by intros []). }
  rewrite bool_decide_true in Hok by done.
  apply andb_true_iff in Hok as [Hexp Hok]. apply andb_true_iff in Hexp as [_ Hempty].
  apply bool_decide_eq_true in Hempty.
  intros t txn' Ht. destruct (decide (t = WAL.TxnBegin r)) as [->|Hne].
  - rewrite Htxn in Ht. by injection Ht as <-.
  - apply (IH _ Hok t). by rewrite lookup_delete_ne.
Qed.

(** X10: what [LargeLogTest] establishes when all its expectations hold.
    Every update in the bookkeeping of a committed transaction is in the
    log, as a record of that transaction for that slot with an equal delta.
    Every commit record in the log, the initial transaction aside, is of a
    transaction in the bookkeeping, carries its commit timestamp, is the
    first commit record of that transaction, and comes after a record for
    each of its updates. *)
Theorem LargeLogTest_expectations (log : list WAL.LogRecord)
    (txns_map : gmap Z RandomWorkloadTransaction) :
  expectations_hold equal_deep log txns_map = true →
  (∀ t txn slot row,
     txns_map !! t = Some txn → Updates txn !! slot = Some row →
     ∃ r, r ∈ log ∧ logs_update equal_deep t slot row r) ∧
  (∀ l1 r l2,
     log = l1 ++ r :: l2 → WAL.RecordType r = WAL.COMMIT → WAL.TxnBegin r ≠ 0 →
     ∃ txn,
       txns_map !! WAL.TxnBegin r = Some txn ∧
       WAL.CommitTime r = CommitTimestamp txn ∧
       Forall (λ r', ¬ commits (WAL.TxnBegin r) r') l1 ∧
       ∀ slot row, Updates txn !! slot = Some row →
         ∃ r', r' ∈ l1 ∧ logs_update equal_deep (WAL.TxnBegin r) slot row r').
Proof.
  intros Hok. split.
  - by apply expectations_updates_logged.
  - intros l1 r l2. by apply expectations_commit_records.
Qed.

(** X11: [LargeLogTest] does not notice commit records that are missing at
    the end of the log: when all expectations hold of a log that ends in
    commit records, they hold as well of the log without them. *)
Theorem LargeLogTest_passes_without_trailing_commits (log cs : list WAL.LogRecord)
    (txns_map : gmap Z RandomWorkloadTransaction) :
  Forall (λ r, WAL.RecordType r = WAL.COMMIT) cs →
  expectations_hold equal_deep (log ++ cs) txns_map = true →
  expectations_hold equal_deep log txns_map = true.
Proof.
  intros Hcs. revert txns_map.
  induction log as [|r log IH]; intros m Hok.
  { cbn. apply bool_decide_eq_true. by eapply expectations_only_commits. }
  cbn in Hok |- *.
  case_bool_decide as Hzero; [by apply IH|].
  destruct (m !! WAL.TxnBegin r) as [txn|].
  2:{ apply andb_true_iff in Hok as [-> Hok]. by apply IH. }
  case_bool_decide as Hcommit.
  { apply andb_true_iff in Hok as [-> Hok]. by apply IH. }
  destruct (Updates txn !! WAL.GetTupleSlot r) as [row|]; [|done].
  apply andb_true_iff in Hok as [-> Hok]. by apply IH.
Qed.

End large_log_test.

Lemma LargeLogTest_expectations_witness :
  let equal_deep := λ (row : positive) (r : WAL.LogRecord), bool_decide (row = 7%positive) in
  let log := [WAL.mkLogRecord WAL.REDO 3 0 100; WAL.mkLogRecord WAL.COMMIT 3 5 0] in
  let txns_map : gmap Z LargeLogTest.RandomWorkloadTransaction :=
    {[ 3 := LargeLogTest.mkRandomWorkloadTransaction 5 {[ 100 := 7%positive ]} ]} in
  LargeLogTest.expectations_hold equal_deep log txns_map = true ∧
  ∃ r, r ∈ log ∧ LargeLogTest.logs_update equal_deep 3 100 7%positive r.
Proof.
  intros equal_deep log txns_map.
  assert (Hok : LargeLogTest.expectations_hold equal_deep log txns_map = true)
    by (vm_compute; reflexivity).
  split; [exact Hok|].
  apply (proj1 (LargeLogTest_expectations equal_deep log txns_map Hok) 3
           (LargeLogTest.mkRandomWorkloadTransaction 5 {[ 100 := 7%positive ]}) 100 7%positive);
    reflexivity.
Defined.

Lemma LargeLogTest_passes_without_trailing_commits_witness :
  let equal_deep := λ (row : positive) (r : WAL.LogRecord), bool_decide (row = 7%positive) in
  let log := [WAL.mkLogRecord WAL.REDO 3 0 100] in
  let cs := [WAL.mkLogRecord WAL.COMMIT 3 5 0] in
  let txns_map : gmap Z LargeLogTest.RandomWorkloadTransaction :=
    {[ 3 := LargeLogTest.mkRandomWorkloadTransaction 5 {[ 100 := 7%positive ]} ]} in
  (Forall (λ r, WAL.RecordType r = WAL.COMMIT) cs ∧
   LargeLogTest.expectations_hold equal_deep (log ++ cs) txns_map = true) ∧
  LargeLogTest.expectations_hold equal_deep log txns_map = true.
Proof.
  intros equal_deep log cs txns_map.
  assert (Hcs : Forall (λ r, WAL.RecordType r = WAL.COMMIT) cs) by (by repeat constructor).
  assert (Hok : LargeLogTest.expectations_hold equal_deep (log ++ cs) txns_map = true)
    by (vm_compute; reflexivity).
  split; [split; [exact Hcs|exact Hok]|].
  exact (LargeLogTest_passes_without_trailing_commits equal_deep log cs txns_map Hcs Hok).
Defined.

(** ** The customer of a payment by last name *)

Lemma string_lt_irrefl a : Payment.string_lt a a = false.
Proof. induction a as [|x a IH]; [done|]. cbn. by rewrite N.ltb_irrefl. Qed.

Lemma byte_to_N_inj x y : Byte.to_N x = Byte.to_N y → x = y.
Proof.
  intros Heq. apply (f_equal Byte.of_N) in Heq. rewrite !Byte.of_to_N in Heq. by injection Heq.
Qed.

Lemma string_lt_trichotomy a b :
  Payment.string_lt a b = false → Payment.string_lt b a = false → a = b.
Proof.
  revert b. induction a as [|x a IH]; intros [|y b]; cbn; try done.
  destruct (N.ltb_spec (Byte.to_N x) (Byte.to_N y)); [done|].
  destruct (N.ltb_spec (Byte.to_N y) (Byte.to_N x)); [done|].
  intros Hab Hba. f_equal; [apply byte_to_N_inj; lia|by apply IH].
Qed.

Lemma emplace_keys key tuple_slot m k :
  k ∈ (Payment.emplace key tuple_slot m).*1 ↔ k = key ∨ k ∈ m.*1.
Proof.
  induction m as [|[k' v'] m IH]; cbn.
  { rewrite elem_of_cons. split; (intros [?|?]; [by left|by right]). }
  destruct (Payment.string_lt key k') eqn:Hlt; cbn.
  { by rewrite elem_of_cons. }
  destruct (Payment.string_lt k' key) eqn:Hgt; cbn.
  - rewrite !elem_of_cons, IH. clear. intuition.
  - rewrite (string_lt_trichotomy _ _ Hlt Hgt). rewrite elem_of_cons. clear. intuition.
Qed.

Lemma emplace_all_keys c_first results m k :
  k ∈ (foldl (λ m tuple_slot, Payment.emplace (c_first tuple_slot) tuple_slot m) m results).*1 ↔
  k ∈ m.*1 ∨ ∃ s, s ∈ results ∧ c_first s = k.
Proof.
  revert m. induction results as [|s results IH]; intros m; cbn.
  { split; [by left|]. intros [?|(s & Hs & _)]; [done|]. by apply elem_of_nil in Hs. }
  rewrite IH, emplace_keys. split.
  - intros [[->|?]|(s' & Hs' & Heq)].
    + right. exists s. split; [apply elem_of_cons; by left|done].
    + by left.
    + right. exists s'. split; [apply elem_of_cons; by right|done].
  - intros [?|(s' & [->|Hs']%elem_of_cons & Heq)].
    + left. by right.
    + left. by left.
    + right. by exists s'.
Qed.

Lemma emplace_same_key key c_first results v :
  Forall (λ s, c_first s = key) results →
  foldl (λ m tuple_slot, Payment.emplace (c_first tuple_slot) tuple_slot m) [(key, v)] results
  = [(key, v)].
Proof.
  induction 1 as [|s results Hs _ IH]; [done|]. cbn.
  by rewrite Hs, string_lt_irrefl, IH.
Qed.

Lemma two_keys_length {A B} (m : list (A * B)) k1 k2 :
  k1 ∈ m.*1 → k2 ∈ m.*1 → k1 ≠ k2 → (2 <= length m)%nat.
Proof.
  destruct m as [|[a1 b1] [|[a2 b2] m]]; cbn; [by intros ?%elem_of_nil| |lia].
  intros ->%list_elem_of_singleton ->%list_elem_of_singleton. done.
Qed.

(** X12: when a payment names its customer by last name and the scan of the
    index returns more than one customer, the customer is the entry at
    position [(n + 1) / 2] of the map from first names to slots, [n] being
    the number of distinct first names.  This position is inside the map,
    and its slot is one of the scan results, exactly when the customers do
    not all have the same first name; when they all have the same first
    name the map holds one entry and the code dereferences its end
    iterator. *)
Theorem Payment_customer_by_last_name (c_first : Z → list Byte.byte)
    (index_scan_results : list Z) :
  (1 < length index_scan_results)%nat →
  (Payment.customer_slot c_first index_scan_results = None ↔
   ∀ s s', s ∈ index_scan_results → s' ∈ index_scan_results → c_first s = c_first s') ∧
  (∀ slot, Payment.customer_slot c_first index_scan_results = Some slot →
           slot ∈ index_scan_results).
Proof.
  intros Hlen. unfold Payment.customer_slot. rewrite bool_decide_true by done. cbv zeta.
  set (m := foldl _ [] index_scan_results).
  assert (Hkeys : ∀ k, k ∈ m.*1 ↔ ∃ s, s ∈ index_scan_results ∧ c_first s = k).
  { intros k. unfold m. rewrite emplace_all_keys. split; [|by right].
    intros [Hin|?]; [|done]. by apply elem_of_nil in Hin. }
  split; [split|].
  - intros Hnone s s' Hs Hs'.
    assert (Hdec : c_first s = c_first s' ∨ c_first s ≠ c_first s').
    { destruct (Payment.string_lt (c_first s) (c_first s')) eqn:H1.
      { right. intros Heq. by rewrite Heq, string_lt_irrefl in H1. }
      destruct (Payment.string_lt (c_first s') (c_first s)) eqn:H2.
      { right. intros Heq. by rewrite Heq, string_lt_irrefl in H2. }
      left. by apply string_lt_trichotomy. }
    destruct Hdec as [|Hne]; [done|].
    assert (2 <= length m)%nat as Hm.
    { apply (two_keys_length m (c_first s) (c_first s')); [| |done]; apply Hkeys; eauto. }
    apply fmap_None, lookup_ge_None in Hnone.
    assert ((length m + 1) / 2 < length m)%nat; [|lia].
    apply Nat.Div0.div_lt_upper_bound. lia.
  - intros Hsame. destruct index_scan_results as [|s0 results]; [cbn in Hlen; lia|].
    unfold m. cbn. rewrite (emplace_same_key (c_first s0)); [done|].
    apply Forall_forall. intros s Hs.
    apply Hsame; [by apply elem_of_cons; right|apply elem_of_cons; by left].
  - intros slot Hslot. apply fmap_Some in Hslot as ([k v] & Hlookup & ->). cbn.
    apply list_elem_of_lookup_2 in Hlookup. clear -Hlookup.
    assert (Hslots : ∀ results m0,
              (k, v) ∈ foldl (λ m tuple_slot, Payment.emplace (c_first tuple_slot) tuple_slot m)
                         m0 results →
              (k, v) ∈ m0 ∨ v ∈ results).
    { clear. intros results. induction results as [|s results IH]; intros m0 Hin; cbn in Hin.
      { by left. }
      apply IH in Hin as [Hin|Hin]; [|right; by apply elem_of_cons; right].
      assert (Hone : (k, v) ∈ m0 ∨ v = s).
      { clear -Hin. induction m0 as [|[k' v'] m0 IH]; cbn in Hin.
        - apply list_elem_of_singleton in Hin. injection Hin as _ ->. by right.
        - destruct (Payment.string_lt (c_first s) k').
          + apply elem_of_cons in Hin as [Heq|Hin]; [|by left].
            injection Heq as _ ->. by right.
          + destruct (Payment.string_lt k' (c_first s)); [|by left].
            apply elem_of_cons in Hin as [->|Hin]; [left; apply elem_of_cons; by left|].
            destruct (IH Hin) as [?|?]; [left; apply elem_of_cons; by right|by right]. }
      destruct Hone as [? | ->]; [by left|right; apply elem_of_cons; by left]. }
    destruct (Hslots _ _ Hlookup) as [Hin|Hin]; [by apply elem_of_nil in Hin|done].
Qed.

Lemma Payment_customer_by_last_name_witness :
  (1 < length [10; 20])%nat ∧
  Payment.customer_slot (λ _, [Byte.x41]) [10; 20] = None.
Proof.
  assert (Hlen : (1 < length [10; 20])%nat) by (cbn; lia).
  split; [exact Hlen|].
  apply (proj1 (Payment_customer_by_last_name (λ _, [Byte.x41]) [10; 20] Hlen)).
  intros s s' _ _. reflexivity.
Defined.
